(** * Worker pools of the Node.js interview guide

    Three [WorkerPool] classes and one cluster master are embedded here:

    - [WorkerThreadsPool]: [worker-pool.js] of the worker-threads chapter
      (fields [workers], [freeWorkers], [queue]; methods [addWorker],
      [runTask], [runTaskOnWorker], [runNext], [close]);
    - [WorkerDemo]: the pool of [examples/14-worker-threads/worker-demo.js]
      (slots [{worker, busy}]; methods [execute], [runTask], [finishTask],
      [terminate]);
    - [ChildProcessPool]: [pool.js] of [12-child-process.md]
      ([createWorker], [runTask], [processQueue], [destroy]);
    - [ClusterDemo]: the master of [examples/13-clustering/cluster-demo.js].

    Around them, the pieces of the worker-threads chapter that the pools are
    used with:

    - [FibWorker]: [fib] of [fib-worker.js] and [fibonacci] of
      [worker-demo.js];
    - [RunWorker]: one worker behind a promise ([runWorker], [fibonacci] of
      [main.js], [processImage]) and the worker half of [worker-demo.js];
    - [ImageProcessor]: [chunkArray] and [processImages] of
      [image-processor.js];
    - [MultipleWorkers]: the two loops of [multipleWorkersExample];
    - [AtomicCounter]: the counter of the [Atomics] example.

    JavaScript objects that are shared by reference (worker objects held by
    the arrays and by the event-handler closures) live in a store indexed by
    their identity; arrays of references are lists of identities.  Payloads,
    results and errors are opaque values, represented by [nat].  Calls that
    leave the pool ([postMessage], [resolve], [reject], callbacks, [fork])
    are recorded, in order, in a log of effects. *)

From stdpp Require Import base list gmap strings.
From Stdlib Require Import Lia ZArith.
From Equations Require Import Equations.

(** ** JavaScript array primitives *)

Section Arrays.
Context {A : Type}.

(** [Array.prototype.pop]: the last element and the array without it. *)
Definition pop (l : list A) : option (A * list A) :=
  match last l with
  | Some x => Some (x, take (pred (length l)) l)
  | None => None
  end.

End Arrays.

(** The ways two sequences of steps can be interleaved. *)
Inductive interleaved {A : Type} : list A -> list A -> list A -> Prop :=
| interleaved_nil : interleaved [] [] []
| interleaved_l (x : A) (l1 l2 l : list A) :
    interleaved l1 l2 l -> interleaved (x :: l1) l2 (x :: l)
| interleaved_r (x : A) (l1 l2 l : list A) :
    interleaved l1 l2 l -> interleaved l1 (x :: l2) (x :: l).

(** ** The worker-threads pool ([worker-pool.js]) *)

Module WorkerThreadsPool.

(** A task object [{ data, resolve, reject }]; [tid] is the identity of
    the promise whose resolvers the object carries. *)
Record task := Task { tid : nat; data : nat }.

(** The thread behind a [Worker] object: it runs, or [terminate()] was
    called on it, or it died raising ['error']. *)
Inductive thread := Alive | Terminated | Dead.

(** A [Worker] object: the [currentTask] property the pool hangs on it,
    and the thread behind it. *)
Record worker := Worker { currentTask : option task; thread_of : thread }.

(** Whether the thread has stopped: [terminate()] was called, or the
    thread died. *)
Definition stopped (wk : worker) : bool :=
  match thread_of wk with Alive => false | _ => true end.

Inductive effect :=
| Posted (w : nat) (t : task)     (* worker.postMessage(task.data) *)
| Resolved (t : nat) (r : nat)    (* task.resolve(result) *)
| Rejected (t : nat) (e : nat)    (* task.reject(err) *)
| Uncaught.                       (* TypeError: currentTask is null *)

Record pool := Pool {
  poolSize : nat;
  workers : list worker;          (* store of Worker objects, by identity *)
  freeWorkers : list nat;
  queue : list task;
  nextTask : nat;                 (* identity of the next promise *)
  log : list effect
}.

Definition set_currentTask (o : option task) (wk : worker) : worker :=
  Worker o (thread_of wk).

(** [worker.terminate()]. *)
Definition stop (wk : worker) : worker :=
  Worker (currentTask wk)
         (match thread_of wk with Alive => Terminated | th => th end).

(** The thread dies of an uncaught exception. *)
Definition crash (wk : worker) : worker := Worker (currentTask wk) Dead.

Definition emit (e : effect) (p : pool) : pool :=
  Pool (poolSize p) (workers p) (freeWorkers p) (queue p) (nextTask p)
       (log p ++ [e]).

Definition addWorker (p : pool) : pool :=
  Pool (poolSize p)
       (workers p ++ [Worker None Alive])
       (freeWorkers p ++ [length (workers p)])
       (queue p) (nextTask p) (log p).

Definition constructor (n : nat) : pool :=
  Nat.iter n addWorker (Pool n [] [] [] 0 []).

Definition runTaskOnWorker (w : nat) (t : task) (p : pool) : pool :=
  emit (Posted w t)
    (Pool (poolSize p) (alter (set_currentTask (Some t)) w (workers p))
          (freeWorkers p) (queue p) (nextTask p) (log p)).

Definition runTask (d : nat) (p : pool) : pool :=
  let t := Task (nextTask p) d in
  match pop (freeWorkers p) with
  | Some (w, rest) =>
      runTaskOnWorker w t
        (Pool (poolSize p) (workers p) rest (queue p) (S (nextTask p)) (log p))
  | None =>
      Pool (poolSize p) (workers p) (freeWorkers p) (queue p ++ [t])
           (S (nextTask p)) (log p)
  end.

Definition runNext (p : pool) : pool :=
  match queue p with
  | [] => p
  | t :: q =>
      match pop (freeWorkers p) with
      | Some (w, rest) =>
          runTaskOnWorker w t
            (Pool (poolSize p) (workers p) rest q (nextTask p) (log p))
      | None => p
      end
  end.

(** The ['message'] listener of worker [w]. *)
Definition on_message (w r : nat) (p : pool) : pool :=
  match workers p !! w with
  | Some wk =>
      match currentTask wk with
      | Some t =>
          runNext
            (Pool (poolSize p) (alter (set_currentTask None) w (workers p))
                  (freeWorkers p ++ [w]) (queue p) (nextTask p)
                  (log p ++ [Resolved (tid t) r]))
      | None => emit Uncaught p
      end
  | None => p
  end.

(** The ['error'] listener of worker [w]. *)
Definition on_error (w e : nat) (p : pool) : pool :=
  match workers p !! w with
  | Some wk =>
      match currentTask wk with
      | Some t =>
          Pool (poolSize p) (alter (set_currentTask None) w (workers p))
               (freeWorkers p) (queue p) (nextTask p)
               (log p ++ [Rejected (tid t) e])
      | None => p
      end
  | None => p
  end.

Definition close (p : pool) : pool :=
  Pool (poolSize p) (stop <$> workers p) (freeWorkers p) (queue p)
       (nextTask p) (log p).

(** *** The event loop

    What the pool's owner and the worker threads can do to it.  The
    listeners look at no flag: whatever a thread delivers is handled.  A
    message that a thread posted before [terminate()] was called on it can
    still be delivered after [close()], so a terminated thread is not
    silent; only the thread that died is, the ['error'] it raised being the
    last event it delivers (Node stops a thread whose uncaught exception
    raises ['error']).  A listener that throws is recorded as [Uncaught] and
    the trace goes on, as under an ['uncaughtException'] handler; without
    one the program ends there, so what holds of every trace here holds of
    every run. *)
Inductive event :=
| RunTask (d : nat)
| Message (w r : nat)
| Error (w e : nat)
| Close.

Definition running (w : nat) (p : pool) : bool :=
  match workers p !! w with
  | Some wk => negb (stopped wk)
  | None => false
  end.

(** Whether the thread of worker [w] can still deliver an event. *)
Definition delivers (w : nat) (p : pool) : bool :=
  match workers p !! w with
  | Some wk => match thread_of wk with Dead => false | _ => true end
  | None => false
  end.

Definition die (w : nat) (p : pool) : pool :=
  Pool (poolSize p) (alter crash w (workers p)) (freeWorkers p) (queue p)
       (nextTask p) (log p).

Definition step (p : pool) (ev : event) : pool :=
  match ev with
  | RunTask d => runTask d p
  | Message w r => if delivers w p then on_message w r p else p
  | Error w e => if delivers w p then on_error w e (die w p) else p
  | Close => close p
  end.

Definition run (evs : list event) (p : pool) : pool := foldl step p evs.

(** *** Observations on the log *)

Definition settles (t : nat) (e : effect) : bool :=
  match e with
  | Resolved t' _ | Rejected t' _ => bool_decide (t' = t)
  | _ => false
  end.

(** How many times the resolvers of promise [t] were called. *)
Definition settled (t : nat) (l : list effect) : nat :=
  length (filter (fun e => settles t e = true) l).

(** The tasks handed to a worker, in the order they were handed. *)
Definition started (l : list effect) : list task :=
  omap (fun e => match e with Posted _ t => Some t | _ => None end) l.

(** The task objects the [RunTask] events of a trace create, in order;
    [n] is the identity of the first. *)
Fixpoint submitted (n : nat) (evs : list event) : list task :=
  match evs with
  | [] => []
  | RunTask d :: evs' => Task n d :: submitted (S n) evs'
  | _ :: evs' => submitted n evs'
  end.

(** The task worker [w] is working on, read through the store. *)
Definition cur (p : pool) (w : nat) : option task :=
  workers p !! w ≫= currentTask.

(** A free worker implies an empty queue. *)
Definition tp_drained (p : pool) : Prop :=
  freeWorkers p <> [] -> queue p = [].

(** The bookkeeping invariant of the pool. *)
Record tp_inv (p : pool) : Prop := TpInv {
  tp_size : length (workers p) = poolSize p;
  tp_free_nodup : NoDup (freeWorkers p);
  tp_free_idle : forall w, w ∈ freeWorkers p ->
    w < length (workers p) /\ cur p w = None;
  tp_fifo : tid <$> (started (log p) ++ queue p) = seq 0 (nextTask p);
  tp_cur_started : forall w t, cur p w = Some t ->
    tid t ∈ tid <$> started (log p);
  tp_cur_inj : forall w1 w2 t1 t2,
    cur p w1 = Some t1 -> cur p w2 = Some t2 -> tid t1 = tid t2 -> w1 = w2;
  tp_cur_pending : forall w t, cur p w = Some t ->
    settled (tid t) (log p) = 0;
  tp_settled_started : forall t, 0 < settled t (log p) ->
    t ∈ tid <$> started (log p);
  tp_once : forall t, settled t (log p) <= 1
}.

(** Whether each thread has stopped, worker by worker. *)
Definition flags (p : pool) : list bool := stopped <$> workers p.

(** The threads, worker by worker. *)
Definition threads (p : pool) : list thread := thread_of <$> workers p.

(** Every thread has stopped. *)
Definition all_stopped (p : pool) : Prop := forall w, running w p = false.

(** Every thread is dead: none is left to deliver an event. *)
Definition all_dead (p : pool) : Prop := forall w, delivers w p = false.

(** A thread stops when it dies or when [close()] terminates them all:
    while some thread runs, every thread that has stopped is dead. *)
Definition tp_unclosed (p : pool) : Prop :=
  (exists w, running w p = true) ->
  forall w wk, workers p !! w = Some wk -> thread_of wk <> Terminated.

Definition is_worker_event (ev : event) : bool :=
  match ev with Message _ _ | Error _ _ => true | _ => false end.

(** Whether [ev] is an event of worker [w]. *)
Definition event_of (w : nat) (ev : event) : bool :=
  match ev with
  | Message w' _ | Error w' _ => bool_decide (w' = w)
  | _ => false
  end.

(** A trace in which worker [w] delivers nothing. *)
Definition silent (w : nat) (evs : list event) : Prop :=
  Forall (fun ev => event_of w ev = false) evs.

(** A trace in which no thread delivers anything. *)
Definition quiet (evs : list event) : Prop :=
  Forall (fun ev => is_worker_event ev = false) evs.


(** The tasks handed to a worker and not settled yet. *)
Definition in_flight (p : pool) : list task :=
  filter (fun t => settled (tid t) (log p) = 0) (started (log p)).

(** The tasks the workers hold, worker by worker. *)
Definition held (p : pool) : list nat :=
  omap (fun wk => tid <$> currentTask wk) (workers p).

Definition is_error (ev : event) : bool :=
  match ev with Error _ _ => true | _ => false end.

(** No ['error'] is raised in the trace. *)
Definition error_free (evs : list event) : Prop :=
  Forall (fun ev => is_error ev = false) evs.

(** Every task in flight is the current task of a worker. *)
Definition tp_held (p : pool) : Prop :=
  forall t, t ∈ started (log p) -> settled (tid t) (log p) = 0 ->
            exists w, cur p w = Some t.

(** Every worker is free or busy. *)
Definition tp_staffed (p : pool) : Prop :=
  forall w, w < length (workers p) -> w ∈ freeWorkers p \/ cur p w <> None.

End WorkerThreadsPool.

(** ** The pool of [worker-demo.js] *)

Module WorkerDemo.

(** A task object [{ data, resolve, reject }]. *)
Record task := Task { tid : nat; data : nat }.

(** A slot [{ worker, busy }]; [worker] refers to a [Worker] thread. *)
Record slot := Slot { worker : option nat; busy : bool }.

Inductive status := Running | Terminated | Exited.

(** A [Worker] thread made by [runTask]; its three listeners are closures
    over the task and the slot it was made for. *)
Record thread := Thread {
  th_slot : nat;
  th_task : task;
  th_status : status
}.

Inductive effect :=
| Spawned (k : nat) (t : task)    (* new Worker(__filename, {workerData}) *)
| Resolved (t : nat) (r : nat)    (* task.resolve(result) *)
| Rejected (t : nat) (e : nat).   (* task.reject(err) *)

Record pool := Pool {
  poolSize : nat;
  workers : list slot;
  queue : list task;
  threads : list thread;          (* store of Worker threads, by identity *)
  nextTask : nat;
  log : list effect
}.

Definition constructor (n : nat) : pool :=
  Nat.iter n
    (fun p => Pool (poolSize p) (workers p ++ [Slot None false]) (queue p)
                   (threads p) (nextTask p) (log p))
    (Pool n [] [] [] 0 []).

Definition runTask (i : nat) (t : task) (p : pool) : pool :=
  let k := length (threads p) in
  Pool (poolSize p)
       (alter (fun _ => Slot (Some k) true) i (workers p))
       (queue p)
       (threads p ++ [Thread i t Running])
       (nextTask p)
       (log p ++ [Spawned k t]).

(** [this.workers.find(w => !w.busy)], as the index of the slot found. *)
Definition available (ws : list slot) : option nat :=
  fst <$> list_find (fun s => busy s = false) ws.

Definition execute (d : nat) (p : pool) : pool :=
  let t := Task (nextTask p) d in
  let p' := Pool (poolSize p) (workers p) (queue p) (threads p)
                 (S (nextTask p)) (log p) in
  match available (workers p) with
  | Some i => runTask i t p'
  | None =>
      Pool (poolSize p) (workers p) (queue p ++ [t]) (threads p)
           (S (nextTask p)) (log p)
  end.

Definition finishTask (i : nat) (p : pool) : pool :=
  let ws := alter (fun _ => Slot None false) i (workers p) in
  match queue p with
  | [] => Pool (poolSize p) ws [] (threads p) (nextTask p) (log p)
  | t :: q => runTask i t (Pool (poolSize p) ws q (threads p) (nextTask p) (log p))
  end.

Definition emit (e : effect) (p : pool) : pool :=
  Pool (poolSize p) (workers p) (queue p) (threads p) (nextTask p)
       (log p ++ [e]).

(** The listeners of thread [k]. *)
Definition on_message (k r : nat) (p : pool) : pool :=
  match threads p !! k with
  | Some th => finishTask (th_slot th) (emit (Resolved (tid (th_task th)) r) p)
  | None => p
  end.

Definition on_error (k e : nat) (p : pool) : pool :=
  match threads p !! k with
  | Some th => finishTask (th_slot th) (emit (Rejected (tid (th_task th)) e) p)
  | None => p
  end.

Definition on_exit (k code : nat) (p : pool) : pool :=
  match threads p !! k with
  | Some th =>
      if decide (code = 0) then p
      else emit (Rejected (tid (th_task th)) code) p
  | None => p
  end.

Definition set_status (s : status) (th : thread) : thread :=
  Thread (th_slot th) (th_task th) s.

(** [worker.terminate()]: a thread that has exited stays exited. *)
Definition kill (th : thread) : thread :=
  match th_status th with
  | Exited => th
  | _ => set_status Terminated th
  end.

(** One turn of the loop of [terminate], for slot [i]: the call of
    [slot.worker.terminate()], if the slot has a worker.  The [await] then
    gives way to whatever event comes before the loop goes on. *)
Definition terminate_slot (p : pool) (i : nat) : pool :=
  match workers p !! i with
  | Some (Slot (Some k) _) =>
      Pool (poolSize p) (workers p) (queue p) (alter kill k (threads p))
           (nextTask p) (log p)
  | _ => p
  end.

(** A call of [terminate] is a [TerminateSlot] for each slot in turn; the
    events that run at its [await]s come between them in a trace. *)
Inductive event :=
| Execute (d : nat)
| Message (k r : nat)
| Error (k e : nat)
| Exit (k code : nat)
| TerminateSlot (i : nat).

Definition status_of (k : nat) (p : pool) : option status :=
  th_status <$> threads p !! k.

Definition mark (s : status) (k : nat) (p : pool) : pool :=
  Pool (poolSize p) (workers p) (queue p) (alter (set_status s) k (threads p))
       (nextTask p) (log p).

(** The listeners look at no flag.  Until its ['exit'], which comes once
    and last, a thread can deliver a message or an error, also one it
    posted before [terminate()] was called on it; Node stops a thread whose
    uncaught exception raises ['error']. *)
Definition step (p : pool) (ev : event) : pool :=
  match ev with
  | Execute d => execute d p
  | Message k r =>
      match status_of k p with
      | Some Running | Some Terminated => on_message k r p
      | _ => p
      end
  | Error k e =>
      match status_of k p with
      | Some Running | Some Terminated => on_error k e (mark Terminated k p)
      | _ => p
      end
  | Exit k code =>
      match status_of k p with
      | Some Running | Some Terminated => on_exit k code (mark Exited k p)
      | _ => p
      end
  | TerminateSlot i => terminate_slot p i
  end.

Definition run (evs : list event) (p : pool) : pool := foldl step p evs.

(** The turns of one call of [terminate] on [p], in the order of the
    loop. *)
Definition terminate_turns (p : pool) : list event :=
  TerminateSlot <$> seq 0 (length (workers p)).

(** Whether thread [k] can still deliver an event. *)
Definition delivers (k : nat) (p : pool) : bool :=
  match status_of k p with
  | Some Running | Some Terminated => true
  | _ => false
  end.

Definition has_exited (th : thread) : bool :=
  match th_status th with Exited => true | _ => false end.

(** The threads that have not exited. *)
Definition live (p : pool) : list thread :=
  filter (fun th => has_exited th = false) (threads p).

(** Every thread has exited: none is left to deliver an event. *)
Definition all_exited (p : pool) : Prop :=
  Forall (fun th => has_exited th = true) (threads p).

Definition started (l : list effect) : list task :=
  omap (fun e => match e with Spawned _ t => Some t | _ => None end) l.

Fixpoint submitted (n : nat) (evs : list event) : list task :=
  match evs with
  | [] => []
  | Execute d :: evs' => Task n d :: submitted (S n) evs'
  | _ :: evs' => submitted n evs'
  end.

Definition busy_count (p : pool) : nat :=
  length (filter (fun s => busy s = true) (workers p)).

Definition settles (t : nat) (e : effect) : bool :=
  match e with
  | Resolved t' _ | Rejected t' _ => bool_decide (t' = t)
  | _ => false
  end.

(** The state of promise [t]: the first call of one of its resolvers, if
    any; later calls have no effect on a promise. *)
Definition outcome (t : nat) (l : list effect) : option effect :=
  head (filter (fun e => settles t e = true) l).

(** An idle slot implies an empty queue. *)
Definition wd_drained (p : pool) : Prop :=
  available (workers p) <> None -> queue p = [].

(** The threads the loop of [terminate] reaches through the slots [l]. *)
Definition targets (p : pool) (l : list nat) : list nat :=
  omap (fun i => workers p !! i ≫= worker) l.

(** What the listeners of a thread close over: its slot and its task. *)
Definition th_core (th : thread) : nat * task := (th_slot th, th_task th).

(** Every task that was started has a thread, and a thread whose promise
    is pending is the worker of its slot, which is busy. *)
Definition wd_kept (p : pool) : Prop :=
  (forall t, t ∈ started (log p) ->
     exists k i, th_core <$> threads p !! k = Some (i, t)) /\
  (forall k i t, th_core <$> threads p !! k = Some (i, t) ->
     outcome (tid t) (log p) = None ->
     workers p !! i = Some (Slot (Some k) true)).

(** A thread posts a message or raises an error only while the promise of
    its task is pending: it reports once. *)
Definition reports_once (p : pool) (ev : event) : Prop :=
  match ev with
  | Message k _ | Error k _ =>
      forall th, threads p !! k = Some th ->
                 outcome (tid (th_task th)) (log p) = None
  | _ => True
  end.

Fixpoint polite (p : pool) (evs : list event) : Prop :=
  match evs with
  | [] => True
  | ev :: evs' => reports_once p ev /\ polite (step p ev) evs'
  end.

End WorkerDemo.

(** ** The child-process pool ([pool.js]) *)

Module ChildProcessPool.

(** An entry [{ task, callback }] of the queue; [callback] is the identity
    of the caller's function. *)
Record job := Job { task : nat; callback : nat }.

Inductive status := Alive | Killed | Exited.

(** A worker object [{ process, busy, callback }]. *)
Record worker := Worker {
  process : status;
  busy : bool;
  wcallback : option nat
}.

(** A message of a child: [msg.error] when truthy, else [msg.result]. *)
Record msg := Msg { error : option nat; result : nat }.

Inductive effect :=
| Forked (w : nat)                       (* fork(this.workerScript) *)
| Sent (w : nat) (t : nat)               (* worker.process.send(task) *)
| CalledError (cb : nat) (e : nat)       (* callback(new Error(msg.error)) *)
| CalledResult (cb : nat) (r : nat)      (* callback(null, msg.result) *)
| Died                                   (* console.log('Worker died, ...') *)
| Uncaught.                              (* TypeError: callback undefined *)

Record pool := Pool {
  size : nat;
  heap : list worker;             (* store of worker objects, by identity *)
  workers : list nat;
  queue : list job;
  log : list effect
}.

Definition createWorker (p : pool) : pool :=
  let w := length (heap p) in
  Pool (size p) (heap p ++ [Worker Alive false None]) (workers p ++ [w])
       (queue p) (log p ++ [Forked w]).

Definition constructor (n : nat) : pool :=
  Nat.iter n createWorker (Pool n [] [] [] []).

Definition idle (h : list worker) (w : nat) : bool :=
  match h !! w with
  | Some wk => negb (busy wk)
  | None => false
  end.

(** [this.workers.find(w => !w.busy)]. *)
Definition find_idle (p : pool) : option nat :=
  snd <$> list_find (fun w => idle (heap p) w = true) (workers p).

(** [worker.busy = true; worker.callback = callback;
    worker.process.send(task)]. *)
Definition assign (w t cb : nat) (p : pool) : pool :=
  Pool (size p)
       (alter (fun wk => Worker (process wk) true (Some cb)) w (heap p))
       (workers p) (queue p) (log p ++ [Sent w t]).

Definition runTask (t cb : nat) (p : pool) : pool :=
  match find_idle p with
  | Some w => assign w t cb p
  | None =>
      Pool (size p) (heap p) (workers p) (queue p ++ [Job t cb]) (log p)
  end.

Definition processQueue (p : pool) : pool :=
  match queue p with
  | [] => p
  | j :: q =>
      match find_idle p with
      | Some w =>
          assign w (task j) (callback j)
            (Pool (size p) (heap p) (workers p) q (log p))
      | None => p
      end
  end.

Definition emit (e : effect) (p : pool) : pool :=
  Pool (size p) (heap p) (workers p) (queue p) (log p ++ [e]).

(** The ['message'] listener of worker [w], when the callback it calls
    does not call back into the pool. *)
Definition on_message (w : nat) (m : msg) (p : pool) : pool :=
  match heap p !! w with
  | Some wk =>
      let p1 :=
        Pool (size p)
             (alter (fun wk => Worker (process wk) false (wcallback wk)) w
                    (heap p))
             (workers p) (queue p) (log p) in
      match wcallback wk with
      | Some cb =>
          processQueue
            (emit (match error m with
                   | Some e => CalledError cb e
                   | None => CalledResult cb (result m)
                   end) p1)
      | None => emit Uncaught p1
      end
  | None => p
  end.

(** What a callback does when it submits the jobs [subs], one [runTask]
    after the other, before it returns. *)
Definition submit_all (subs : list job) (p : pool) : pool :=
  foldl (fun q j => runTask (task j) (callback j) q) p subs.

(** The ['message'] listener of worker [w] in general: the callback runs
    between [worker.busy = false] and [this.processQueue()], and what it
    submits is handled there. *)
Definition on_message_then (w : nat) (m : msg) (subs : list job) (p : pool)
    : pool :=
  match heap p !! w with
  | Some wk =>
      let p1 :=
        Pool (size p)
             (alter (fun wk => Worker (process wk) false (wcallback wk)) w
                    (heap p))
             (workers p) (queue p) (log p) in
      match wcallback wk with
      | Some cb =>
          processQueue
            (submit_all subs
               (emit (match error m with
                      | Some e => CalledError cb e
                      | None => CalledResult cb (result m)
                      end) p1))
      | None => emit Uncaught p1
      end
  | None => p
  end.

(** [Array.prototype.indexOf]; [None] stands for [-1]. *)
Definition indexOf (w : nat) (l : list nat) : option nat :=
  fst <$> list_find (fun x => x = w) l.

(** [array.splice(index, 1)]; a start of [-1] counts from the end. *)
Definition splice1 (i : option nat) (l : list nat) : list nat :=
  match i with
  | Some i => delete i l
  | None => take (length l - 1) l
  end.

(** The first half of the ['exit'] listener: the dead worker is taken
    out of [workers]. *)
Definition remove_dead (w : nat) (p : pool) : pool :=
  Pool (size p) (heap p) (splice1 (indexOf w (workers p)) (workers p))
       (queue p) (log p ++ [Died]).

(** The ['exit'] listener of worker [w]. *)
Definition on_exit (w : nat) (p : pool) : pool :=
  createWorker (remove_dead w p).

Definition set_process (s : status) (wk : worker) : worker :=
  Worker s (busy wk) (wcallback wk).

(** [process.kill()]: a process that has exited stays exited. *)
Definition kill (wk : worker) : worker :=
  match process wk with
  | Exited => wk
  | _ => set_process Killed wk
  end.

Definition destroy (p : pool) : pool :=
  Pool (size p)
       (foldl (fun h w => alter kill w h) (heap p) (workers p))
       (workers p) (queue p) (log p).

(** [Message] is the message of a child whose callback leaves the pool
    alone; [MessageThen] is one whose callback submits [subs]. *)
Inductive event :=
| RunTask (t cb : nat)
| Message (w : nat) (m : msg)
| Exit (w : nat)
| Destroy
| MessageThen (w : nat) (m : msg) (subs : list job).

Definition status_of (w : nat) (p : pool) : option status :=
  process <$> heap p !! w.

Definition mark_exited (w : nat) (p : pool) : pool :=
  Pool (size p) (alter (set_process Exited) w (heap p)) (workers p)
       (queue p) (log p).

(** A child that has not exited can send a message, and exits once. *)
Definition step (p : pool) (ev : event) : pool :=
  match ev with
  | RunTask t cb => runTask t cb p
  | Message w m =>
      match status_of w p with
      | Some Alive | Some Killed => on_message w m p
      | _ => p
      end
  | Exit w =>
      match status_of w p with
      | Some Alive | Some Killed => on_exit w (mark_exited w p)
      | _ => p
      end
  | Destroy => destroy p
  | MessageThen w m subs =>
      match status_of w p with
      | Some Alive | Some Killed => on_message_then w m subs p
      | _ => p
      end
  end.

Definition run (evs : list event) (p : pool) : pool := foldl step p evs.

Definition exited (w : nat) (p : pool) : bool :=
  match status_of w p with
  | Some Exited => true
  | _ => false
  end.

(** The processes that have not exited. *)
Definition live (p : pool) : list nat :=
  filter (fun w => exited w p = false) (seq 0 (length (heap p))).

Definition busy_count (p : pool) : nat :=
  length (filter (fun w => idle (heap p) w = false) (workers p)).

Definition is_fork (e : effect) : bool :=
  match e with Forked _ => true | _ => false end.

Definition is_death (e : effect) : bool :=
  match e with Died => true | _ => false end.

Definition forks (l : list effect) : nat :=
  length (filter (fun e => is_fork e = true) l).

Definition deaths (l : list effect) : nat :=
  length (filter (fun e => is_death e = true) l).

Definition statuses (p : pool) : list status := process <$> heap p.

(** [workers] holds, once each, the [k] processes that have not exited. *)
Definition cp_tracks (k : nat) (p : pool) : Prop :=
  length (workers p) = k /\
  NoDup (workers p) /\
  forall w, w ∈ live p <-> w ∈ workers p.

Definition cp_inv (p : pool) : Prop := cp_tracks (size p) p.


(** The tasks of the [RunTask] events of a trace, in order. *)
Definition submitted (evs : list event) : list nat :=
  omap (fun ev => match ev with RunTask t _ => Some t | _ => None end) evs.





Definition is_call (cb : nat) (e : effect) : bool :=
  match e with
  | CalledError c _ | CalledResult c _ => bool_decide (c = cb)
  | _ => false
  end.

(** How many times callback [cb] has been called. *)
Definition calls (cb : nat) (l : list effect) : nat :=
  length (filter (fun e => is_call cb e = true) l).

(** No worker object but [w] holds callback [cb], and no entry of the
    queue does. *)
Definition cp_only (w cb : nat) (p : pool) : Prop :=
  (forall w' wk, w' <> w -> heap p !! w' = Some wk -> wcallback wk <> Some cb) /\
  (forall j, j ∈ queue p -> callback j <> cb).

(** A submission that brings a callback other than [cb]. *)
Definition brings_other (cb : nat) (ev : event) : Prop :=
  match ev with
  | RunTask _ cb' => cb' <> cb
  | MessageThen _ _ subs => Forall (fun j => callback j <> cb) subs
  | _ => True
  end.

End ChildProcessPool.

(** ** The cluster master ([cluster-demo.js]) *)

Module ClusterDemo.

Record info := Info { requests : nat; startTime : nat }.

(** The [workers] map of the master, and the pids it has forked. *)
Record master := Master {
  workers : gmap nat info;
  forked : list nat
}.

(** [cluster.fork()] and [workers.set(pid, ...)]; the pid comes from the
    operating system and the start time from the clock. *)
Definition fork (pid now : nat) (m : master) : master :=
  Master (<[pid := Info 0 now]> (workers m)) (forked m ++ [pid]).

(** The ['exit'] listener. *)
Definition on_exit (pid newpid now : nat) (m : master) : master :=
  fork newpid now (Master (delete pid (workers m)) (forked m)).

(** The ['message'] listener. *)
Definition on_message (pid : nat) (request : bool) (m : master) : master :=
  if request then
    Master (alter (fun i => Info (S (requests i)) (startTime i)) pid (workers m))
           (forked m)
  else m.

Inductive event :=
| Exit (pid newpid now : nat)
| Message (pid : nat) (request : bool).

Definition step (m : master) (ev : event) : master :=
  match ev with
  | Exit pid newpid now => on_exit pid newpid now m
  | Message pid request => on_message pid request m
  end.

Definition run (evs : list event) (m : master) : master := foldl step m evs.

Definition is_exit (ev : event) : bool :=
  match ev with Exit _ _ _ => true | _ => false end.

(** How many ['exit'] events a trace holds. *)
Definition exits (evs : list event) : nat :=
  length (filter (fun ev => is_exit ev = true) evs).

(** The loop that forks the first workers, one for each pair of a pid and
    the time of its fork. *)
Definition start (forks : list (nat * nat)) : master :=
  foldl (fun m f => fork (fst f) (snd f) m) (Master ∅ []) forks.

Definition is_request (pid : nat) (ev : event) : bool :=
  match ev with
  | Message p true => bool_decide (p = pid)
  | _ => false
  end.

(** How many [{cmd: 'request'}] messages of worker [pid] a trace holds. *)
Definition requests_from (pid : nat) (evs : list event) : nat :=
  length (filter (fun ev => is_request pid ev = true) evs).

(** An ['exit'] of worker [pid], or one whose replacement gets [pid]. *)
Definition concerns (pid : nat) (ev : event) : bool :=
  match ev with
  | Exit p newpid _ => bool_decide (p = pid) || bool_decide (newpid = pid)
  | Message _ _ => false
  end.

(** What the operating system grants: the worker that exits is one the
    master tracks, and the pid of its replacement is not the pid of another
    tracked worker. *)
Fixpoint well_formed (m : master) (evs : list event) : Prop :=
  match evs with
  | [] => True
  | ev :: evs' =>
      match ev with
      | Exit pid newpid _ =>
          is_Some (workers m !! pid) /\
          delete pid (workers m) !! newpid = None
      | Message _ _ => True
      end /\ well_formed (step m ev) evs'
  end.

(** The [SIGTERM] listener: the pids of the workers that are sent
    ['shutdown'] and, five seconds later, killed.  The map is left as it
    is. *)
Definition on_sigterm (m : master) : gset nat := dom (workers m).

(** The ['exit'] events of workers, each with the pid and the start time
    of its replacement. *)
Definition exits_of (l : list (nat * nat * nat)) : list event :=
  (fun x => Exit (fst (fst x)) (snd (fst x)) (snd x)) <$> l.

End ClusterDemo.



(** ** The Fibonacci worker ([fib-worker.js], [worker-demo.js]) *)

Module FibWorker.

(** [fib] of [fib-worker.js] and [fibonacci] of [worker-demo.js], on an
    integer argument. *)
Equations? fibonacci (n : Z) : Z by wf (Z.to_nat n) lt :=
fibonacci n with Z_lt_dec n 2 := {
  | left _ => n
  | right _ => (fibonacci (n - 1) + fibonacci (n - 2))%Z }.
Proof. all: lia. Qed.

(** How many times [fibonacci] is entered to compute [fibonacci n]: the
    same recursion, counting one for each call. *)
Equations? calls (n : Z) : Z by wf (Z.to_nat n) lt :=
calls n with Z_lt_dec n 2 := {
  | left _ => 1%Z
  | right _ => (1 + calls (n - 1) + calls (n - 2))%Z }.
Proof. all: lia. Qed.

(** The textbook loop, to compare [fibonacci] with: after [k] turns the
    pair holds the [k]-th and the next Fibonacci number. *)
Definition fib_pair (k : nat) : Z * Z :=
  Nat.iter k (fun ab => (snd ab, (fst ab + snd ab)%Z)) (0%Z, 1%Z).

End FibWorker.

(** ** One worker behind a promise ([runWorker], [fibonacci], [processImage]) *)

Module RunWorker.

(** What a worker of [worker-demo.js] posts: a number, or the summary
    object of the records it was given. *)
Inductive value := Num (z : Z) | Summary (records : list nat).

Inductive error := TypeError | RangeError | Failure (e : nat).

(** What the promise is rejected with: the error of ['error'], or
    [new Error(`Worker stopped with code ${code}`)]. *)
Inductive reason := Raised (e : error) | Stopped (code : Z).

(** The events of a [Worker]. *)
Inductive wevent := Message (v : value) | Error (e : error) | Exit (code : Z).

Inductive promise := Pending | Fulfilled (v : value) | Rejected (r : reason).

(** The resolvers of a promise: the first call settles it. *)
Definition resolve (v : value) (pr : promise) : promise :=
  match pr with Pending => Fulfilled v | _ => pr end.

Definition reject (r : reason) (pr : promise) : promise :=
  match pr with Pending => Rejected r | _ => pr end.

(** The three listeners [runWorker] registers. *)
Definition listen (pr : promise) (ev : wevent) : promise :=
  match ev with
  | Message v => resolve v pr
  | Error e => reject (Raised e) pr
  | Exit code => if decide (code = 0%Z) then pr else reject (Stopped code) pr
  end.

Definition runWorker (evs : list wevent) : promise := foldl listen Pending evs.


Section Engine.

(** The most arguments the engine takes in one call; [Math.max(...array)]
    passes one argument for each element. *)
Variable max_args : nat.


End Engine.

Definition is_settling (ev : wevent) : bool :=
  match ev with
  | Message _ | Error _ => true
  | Exit code => negb (bool_decide (code = 0%Z))
  end.

End RunWorker.

(** ** The image processor ([image-processor.js]) *)

Module ImageProcessor.

(** [array.slice(start, end)]: a negative index counts from the end. *)
Definition slice {A : Type} (l : list A) (first last : Z) : list A :=
  let len := Z.of_nat (length l) in
  let k := if (first <? 0)%Z then Z.max (len + first) 0 else Z.min first len in
  let f := if (last <? 0)%Z then Z.max (len + last) 0 else Z.min last len in
  take (Z.to_nat (f - k)) (drop (Z.to_nat k) l).

(** The loop of [chunkArray]; [None] when the fuel runs out. *)
Fixpoint chunk_loop {A : Type} (fuel : nat) (array : list A) (size i : Z)
    (chunks : list (list A)) : option (list (list A)) :=
  match fuel with
  | O => None
  | S fuel' =>
      if (i <? Z.of_nat (length array))%Z
      then chunk_loop fuel' array size (i + size)%Z
             (chunks ++ [slice array i (i + size)])
      else Some chunks
  end.

Definition chunkArray {A : Type} (fuel : nat) (array : list A) (size : Z)
    : option (list (list A)) :=
  chunk_loop fuel array size 0%Z [].

(** What [Promise.all] makes of promises: fulfilled with all the values, in
    the order of the promises, when all are fulfilled; rejected as soon as
    one is, with the reason of the first to be rejected, which is one of
    [reasons]; pending otherwise. *)
Inductive all_promise :=
| AllFulfilled (vs : list RunWorker.value)
| AllRejected (reasons : list RunWorker.reason)
| AllPending.

Definition rejection (pr : RunWorker.promise) : option RunWorker.reason :=
  match pr with RunWorker.Rejected r => Some r | _ => None end.

Definition fulfilment (pr : RunWorker.promise) : option RunWorker.value :=
  match pr with RunWorker.Fulfilled v => Some v | _ => None end.

Definition promise_all (ps : list RunWorker.promise) : all_promise :=
  match omap rejection ps with
  | [] =>
      match mapM fulfilment ps with
      | Some vs => AllFulfilled vs
      | None => AllPending
      end
  | reasons => AllRejected reasons
  end.

(** How a call of [processImages] ends, and the batches of workers it has
    started by then. *)
Inductive ending :=
| Returned (results : list RunWorker.value)
| Threw (reasons : list RunWorker.reason)
| Waiting.

Section Processor.
Context {Path : Type}.

(** What the worker started for an image does. *)
Variable work : Path -> list RunWorker.wevent.

Definition processImage (imagePath : Path) : RunWorker.promise :=
  RunWorker.runWorker (work imagePath).

(** The loop of [processImages] over the chunks. *)
Fixpoint process_chunks (chunks : list (list Path))
    (results : list RunWorker.value) (batches : list (list Path))
    : ending * list (list Path) :=
  match chunks with
  | [] => (Returned results, batches)
  | chunk :: rest =>
      match promise_all (processImage <$> chunk) with
      | AllFulfilled vs =>
          process_chunks rest (results ++ vs) (batches ++ [chunk])
      | AllRejected reasons => (Threw reasons, batches ++ [chunk])
      | AllPending => (Waiting, batches ++ [chunk])
      end
  end.

Definition processImages (fuel : nat) (concurrency : Z)
    (imagePaths : list Path) : option (ending * list (list Path)) :=
  match chunkArray fuel imagePaths concurrency with
  | Some chunks => Some (process_chunks chunks [] [])
  | None => None
  end.

End Processor.

End ImageProcessor.

(** ** Workers one after the other and side by side
       ([multipleWorkersExample]) *)

Module MultipleWorkers.

Section Engine.

Variable max_args : nat.




End Engine.

End MultipleWorkers.

(** ** The shared counter ([atomic-worker.js]) *)

Module AtomicCounter.

(** The value an [Int32Array] cell keeps of an integer. *)
Definition int32 (z : Z) : Z := ((z + 2 ^ 31) mod 2 ^ 32 - 2 ^ 31)%Z.

(** [Atomics.store(sharedArray, 0, v)] and [Atomics.add(sharedArray, 0, d)]. *)
Inductive op := Store (v : Z) | Add (d : Z).

Definition exec (cell : Z) (o : op) : Z :=
  match o with
  | Store v => int32 v
  | Add d => int32 (cell + d)
  end.

(** The main thread stores 0 and adds 1 a thousand times; the worker adds 1
    a thousand times. *)
Definition main_thread : list op := Store 0 :: replicate 1000 (Add 1).

Definition worker_thread : list op := replicate 1000 (Add 1).

(** The cell after the operations [l], from the zeroes of a fresh
    [SharedArrayBuffer]. *)
Definition final (l : list op) : Z := foldl exec 0%Z l.

End AtomicCounter.

(** * Proofs *)

(** ** Array primitives *)

Section ArrayFacts.
Context {A : Type}.

Lemma pop_snoc (l : list A) (x : A) : pop (l ++ [x]) = Some (x, l).
Proof.
  unfold pop. rewrite last_snoc, length_app. simpl.
  replace (pred (length l + 1)) with (length l) by lia.
  by rewrite take_app_length.
Qed.

Lemma pop_Some (l r : list A) (x : A) : pop l = Some (x, r) -> l = r ++ [x].
Proof.
  destruct l as [|a l'] using rev_ind; [done|].
  rewrite pop_snoc. by intros [= -> ->].
Qed.

Lemma pop_None (l : list A) : pop l = None -> l = [].
Proof.
  destruct l as [|a l'] using rev_ind; [done|]. by rewrite pop_snoc.
Qed.

Lemma interleaved_fmap_inv {B : Type} (f : A -> B) (l1 l2 : list A)
    (l : list B) :
  interleaved (f <$> l1) (f <$> l2) l ->
  exists l', l = f <$> l' /\ interleaved l1 l2 l'.
Proof.
  revert l1 l2. induction l as [|y l IH]; intros l1 l2 H.
  - inversion H as [Ha Hb| |]. symmetry in Ha, Hb.
    apply fmap_nil_inv in Ha, Hb. subst. exists []. split; [done|constructor].
  - inversion H as [|x k1 k2 k Hk Ha Hb|x k1 k2 k Hk Ha Hb]; subst.
    + symmetry in Ha. apply fmap_cons_inv in Ha as (a & l1' & -> & -> & ->).
      destruct (IH _ _ Hk) as (l' & -> & Hl').
      exists (a :: l'). split; [done|by constructor].
    + symmetry in Hb. apply fmap_cons_inv in Hb as (a & l2' & -> & -> & ->).
      destruct (IH _ _ Hk) as (l' & -> & Hl').
      exists (a :: l'). split; [done|by constructor].
Qed.

Lemma interleaved_elem_of (l1 l2 l : list A) (x : A) :
  interleaved l1 l2 l -> x ∈ l <-> x ∈ l1 \/ x ∈ l2.
Proof.
  induction 1 as [|y l1 l2 l H IH|y l1 l2 l H IH].
  - rewrite elem_of_nil. tauto.
  - rewrite !elem_of_cons, IH. tauto.
  - rewrite !elem_of_cons, IH. tauto.
Qed.
End ArrayFacts.

(** ** Facts about the worker-threads pool *)

Section WorkerThreadsPoolFacts.
Import WorkerThreadsPool.

Lemma tp_settled_snoc (t : nat) (l : list effect) (e : effect) :
  settled t (l ++ [e]) = settled t l + (if settles t e then 1 else 0).
Proof.
  unfold settled. rewrite filter_app, length_app. f_equal.
  rewrite filter_cons. destruct (settles t e); by case_decide.
Qed.

Lemma tp_started_snoc (l : list effect) (e : effect) :
  started (l ++ [e]) =
  started l ++ match e with Posted _ t => [t] | _ => [] end.
Proof. unfold started. rewrite omap_app. by destruct e. Qed.

Lemma tp_cur_alter (ws : list worker) (w w' : nat) (o : option task) :
  alter (set_currentTask o) w ws !! w' ≫= currentTask =
  if decide (w' = w /\ w < length ws) then o else ws !! w' ≫= currentTask.
Proof.
  case_decide as Hd.
  - destruct Hd as [-> Hlt]. apply lookup_lt_is_Some in Hlt as [wk Hwk].
    by rewrite list_lookup_alter_eq, Hwk.
  - destruct (decide (w' = w)) as [->|Hne].
    + rewrite list_lookup_alter_eq.
      destruct (ws !! w) eqn:Hwk; [|done].
      apply lookup_lt_Some in Hwk. tauto.
    + by rewrite list_lookup_alter_ne.
Qed.

Lemma tp_cur_stop_all (ws : list worker) (w : nat) :
  (stop <$> ws) !! w ≫= currentTask = ws !! w ≫= currentTask.
Proof. rewrite list_lookup_fmap. by destruct (ws !! w). Qed.

Lemma tp_cur_stop_one (ws : list worker) (w w' : nat) :
  alter crash w ws !! w' ≫= currentTask = ws !! w' ≫= currentTask.
Proof.
  destruct (decide (w' = w)) as [->|Hne].
  - rewrite list_lookup_alter_eq. by destruct (ws !! w).
  - by rewrite list_lookup_alter_ne.
Qed.

Lemma tp_iter_addWorker (m n : nat) :
  Nat.iter n addWorker (Pool m [] [] [] 0 []) =
  Pool m (replicate n (Worker None Alive)) (seq 0 n) [] 0 [].
Proof.
  induction n as [|n IH]; simpl; [done|].
  rewrite IH. unfold addWorker; simpl. rewrite length_replicate. f_equal.
  - symmetry. apply replicate_cons_app.
  - change (0 :: seq 1 n) with (seq 0 (S n)). by rewrite seq_S.
Qed.

Lemma tp_constructor_shape (n : nat) :
  constructor n = Pool n (replicate n (Worker None Alive)) (seq 0 n) [] 0 [].
Proof. apply tp_iter_addWorker. Qed.

Lemma tp_cur_constructor (n w : nat) : cur (constructor n) w = None.
Proof.
  rewrite tp_constructor_shape. unfold cur; simpl.
  destruct (replicate n (Worker None Alive) !! w) eqn:Hw; [|done].
  by apply lookup_replicate in Hw as [-> _].
Qed.

Lemma tp_inv_constructor (n : nat) : tp_inv (constructor n).
Proof.
  split; try (intros *; rewrite tp_cur_constructor; done);
    rewrite tp_constructor_shape; simpl.
  - apply length_replicate.
  - apply NoDup_seq.
  - intros w Hw. apply elem_of_seq in Hw. rewrite length_replicate.
    split; [lia|]. rewrite <- (tp_constructor_shape n).
    apply tp_cur_constructor.
  - done.
  - intros t. unfold settled. simpl. lia.
  - intros t. unfold settled. simpl. lia.
Qed.

Lemma tp_drained_constructor (n : nat) : tp_drained (constructor n).
Proof. rewrite tp_constructor_shape. by intros _. Qed.

(** *** Preservation of the invariants by the methods *)

Lemma tp_drained_step (p : pool) (ev : event) :
  tp_drained p -> tp_drained (step p ev).
Proof.
  unfold tp_drained. intros Hp. destruct ev as [d|w r|w e|]; simpl.
  - unfold runTask. destruct (pop (freeWorkers p)) as [[w rest]|] eqn:Hpop.
    + apply pop_Some in Hpop. simpl. intros _. apply Hp.
      rewrite Hpop. by destruct rest.
    + apply pop_None in Hpop. simpl. by rewrite Hpop.
  - destruct (delivers w p); [|done]. unfold on_message.
    destruct (workers p !! w) as [wk|]; [|done].
    destruct (currentTask wk) as [t|]; [|done].
    unfold runNext; simpl. destruct (queue p) as [|t' q] eqn:Hq; [done|].
    rewrite pop_snoc. simpl. intros Hfree. by specialize (Hp Hfree).
  - destruct (delivers w p); [|done]. unfold on_error, die; simpl.
    destruct (alter crash w (workers p) !! w) as [wk|]; [|done].
    by destruct (currentTask wk).
  - done.
Qed.

Lemma tp_queue_fresh (p : pool) (t : task) :
  tp_inv p -> t ∈ queue p -> tid t ∉ tid <$> started (log p).
Proof.
  intros Hp Ht Hin.
  assert (NoDup (tid <$> (started (log p) ++ queue p))) as Hnd.
  { rewrite (tp_fifo _ Hp). apply NoDup_seq. }
  rewrite fmap_app in Hnd. apply NoDup_app in Hnd as (_ & Hdis & _).
  apply (Hdis _ Hin). by apply list_elem_of_fmap_2.
Qed.

Lemma tp_fresh_unsettled (p : pool) (t : nat) :
  tp_inv p -> t ∉ tid <$> started (log p) -> settled t (log p) = 0.
Proof.
  intros Hp Ht. destruct (settled t (log p)) eqn:Hs; [done|].
  exfalso. apply Ht, (tp_settled_started _ Hp). lia.
Qed.

Lemma tp_inv_enqueue (d : nat) (p : pool) :
  tp_inv p ->
  tp_inv (Pool (poolSize p) (workers p) (freeWorkers p)
               (queue p ++ [Task (nextTask p) d]) (S (nextTask p)) (log p)).
Proof.
  intros Hp. split; try apply Hp. cbn [queue log nextTask].
  rewrite app_assoc, fmap_app, (tp_fifo _ Hp), seq_S. done.
Qed.

Lemma tp_inv_runNext (p : pool) : tp_inv p -> tp_inv (runNext p).
Proof.
  intros Hp. unfold runNext.
  destruct (queue p) as [|t q] eqn:Hq; [done|].
  destruct (pop (freeWorkers p)) as [[w rest]|] eqn:Hpop; [|done].
  apply pop_Some in Hpop.
  pose proof (tp_free_nodup _ Hp) as Hnd. rewrite Hpop in Hnd.
  apply NoDup_app in Hnd as (Hnd & Hw & _).
  assert (w ∉ rest) as Hwr by (intros Hin; apply (Hw _ Hin); left).
  assert (w < length (workers p)) as Hwlt.
  { apply (tp_free_idle _ Hp). rewrite Hpop. set_solver. }
  assert (tid t ∉ tid <$> started (log p)) as Hfresh.
  { apply tp_queue_fresh; [done|]. rewrite Hq. left. }
  assert (forall w', cur (runTaskOnWorker w t
            (Pool (poolSize p) (workers p) rest q (nextTask p) (log p))) w'
            = if decide (w' = w) then Some t else cur p w') as Hcur.
  { intros w'. unfold cur; simpl. rewrite tp_cur_alter.
    repeat case_decide; try done; tauto. }
  assert (forall t0, settled t0 (log p ++ [Posted w t]) = settled t0 (log p))
    as Hset.
  { intros t0. rewrite tp_settled_snoc. simpl. lia. }
  split; try (intros *; rewrite !Hcur); cbn [poolSize workers freeWorkers
    queue nextTask log runTaskOnWorker emit];
    rewrite ?tp_started_snoc, ?length_alter.
  - apply Hp.
  - done.
  - intros Hw'.
    assert (w0 ∈ freeWorkers p) as Hin by (rewrite Hpop; set_solver).
    destruct (tp_free_idle _ Hp _ Hin) as [Hlt Hidle].
    split; [done|]. case_decide; [congruence|done].
  - rewrite <- app_assoc. simpl. rewrite <- Hq. apply Hp.
  - case_decide.
    + intros [= <-]. rewrite fmap_app. set_solver.
    + intros Hc. rewrite fmap_app. apply elem_of_app. left.
      by apply (tp_cur_started _ Hp w0).
  - repeat case_decide; subst; try done.
    + intros [= <-] Hc Heq. exfalso. apply Hfresh. rewrite Heq.
      by apply (tp_cur_started _ Hp w2).
    + intros Hc [= <-] Heq. exfalso. apply Hfresh. rewrite <- Heq.
      by apply (tp_cur_started _ Hp w1).
    + apply Hp.
  - rewrite Hset. case_decide.
    + intros [= <-]. by apply tp_fresh_unsettled.
    + apply Hp.
  - intros t0. rewrite Hset. intros Ht0.
    rewrite fmap_app. apply elem_of_app. left.
    by apply (tp_settled_started _ Hp).
  - intros t0. rewrite Hset. apply Hp.
Qed.

(** Settling the task of worker [w], and possibly returning [w] to the
    free list ([fr] is the free list afterwards). *)
Lemma tp_inv_settle (p : pool) (w : nat) (t : task) (e : effect)
    (fr : list nat) :
  tp_inv p -> cur p w = Some t ->
  (forall t0, settles t0 e = bool_decide (tid t = t0)) ->
  started (log p ++ [e]) = started (log p) ->
  fr = freeWorkers p \/ fr = freeWorkers p ++ [w] ->
  tp_inv (Pool (poolSize p) (alter (set_currentTask None) w (workers p)) fr
               (queue p) (nextTask p) (log p ++ [e])).
Proof.
  intros Hp Hw Hse Hst Hfr.
  assert (w < length (workers p)) as Hwlt.
  { unfold cur in Hw. destruct (workers p !! w) eqn:Hl; [|done].
    by apply lookup_lt_Some in Hl. }
  assert (forall w', cur (Pool (poolSize p)
            (alter (set_currentTask None) w (workers p)) fr
            (queue p) (nextTask p) (log p ++ [e])) w'
            = if decide (w' = w) then None else cur p w') as Hcur.
  { intros w'. unfold cur; simpl. rewrite tp_cur_alter.
    repeat case_decide; try done; tauto. }
  assert (forall t0, settled t0 (log p ++ [e]) =
            settled t0 (log p) + (if decide (tid t = t0) then 1 else 0))
    as Hset.
  { intros t0. rewrite tp_settled_snoc, Hse. by case_bool_decide; case_decide. }
  assert (w ∉ freeWorkers p) as Hnf.
  { intros Hin. destruct (tp_free_idle _ Hp _ Hin) as [_ Hi]. congruence. }
  split; try (intros *; rewrite !Hcur); cbn [poolSize workers freeWorkers
    queue nextTask log]; rewrite ?Hst, ?length_alter.
  - apply Hp.
  - destruct Hfr as [->| ->]; [apply Hp|].
    apply NoDup_app. split; [apply Hp|]. split; [|apply NoDup_singleton].
    intros x Hx ->%list_elem_of_singleton. done.
  - intros Hin. case_decide as Hd.
    + subst. done.
    + assert (w0 ∈ freeWorkers p) as Hin'.
      { destruct Hfr as [->| ->]; [done|].
        apply elem_of_app in Hin as [Hin|Hin%list_elem_of_singleton];
          [done|congruence]. }
      by apply (tp_free_idle _ Hp).
  - apply Hp.
  - case_decide; [done|]. apply Hp.
  - repeat case_decide; try done. apply Hp.
  - case_decide as Hd; [done|]. intros Hc. rewrite Hset.
    rewrite (tp_cur_pending _ Hp _ _ Hc). case_decide as Heq; [|done].
    exfalso. apply Hd. symmetry. by apply (tp_cur_inj _ Hp w w0 t t0).
  - intros t0. rewrite Hset. case_decide as Heq.
    + subst. intros _. by apply (tp_cur_started _ Hp w).
    + rewrite Nat.add_0_r. apply Hp.
  - intros t0. rewrite Hset. case_decide as Heq.
    + subst. rewrite (tp_cur_pending _ Hp _ _ Hw). lia.
    + rewrite Nat.add_0_r. apply Hp.
Qed.

(** Stopping threads leaves the bookkeeping alone. *)
Lemma tp_inv_stopping (p : pool) (ws : list worker) :
  length ws = length (workers p) ->
  (forall w, ws !! w ≫= currentTask = cur p w) ->
  tp_inv p ->
  tp_inv (Pool (poolSize p) ws (freeWorkers p) (queue p) (nextTask p) (log p)).
Proof.
  intros Hlen Hcur Hp.
  split; unfold cur; cbn [poolSize workers freeWorkers queue nextTask log];
    try (intros *; rewrite !Hcur); rewrite ?Hlen; apply Hp.
Qed.

Lemma tp_inv_uncaught (p : pool) : tp_inv p -> tp_inv (emit Uncaught p).
Proof.
  intros Hp.
  assert (forall t0, settled t0 (log p ++ [Uncaught]) = settled t0 (log p))
    as Hset.
  { intros t0. rewrite tp_settled_snoc. simpl. lia. }
  split; unfold cur, emit;
    cbn [poolSize workers freeWorkers queue nextTask log];
    rewrite ?tp_started_snoc, ?app_nil_r; try apply Hp.
  - intros w t. rewrite Hset. apply Hp.
  - intros t. rewrite Hset. apply Hp.
  - intros t. rewrite Hset. apply Hp.
Qed.

(** Under [tp_drained], submitting is enqueueing followed by [runNext]. *)
Lemma tp_runTask_runNext (d : nat) (p : pool) :
  tp_drained p ->
  runTask d p =
  runNext (Pool (poolSize p) (workers p) (freeWorkers p)
                (queue p ++ [Task (nextTask p) d]) (S (nextTask p)) (log p)).
Proof.
  intros Hd. unfold runTask, runNext. cbn [queue freeWorkers].
  destruct (pop (freeWorkers p)) as [[w rest]|] eqn:Hpop.
  - rewrite Hd; [done|]. apply pop_Some in Hpop. rewrite Hpop. by destruct rest.
  - by destruct (queue p ++ [Task (nextTask p) d]).
Qed.

Lemma tp_inv_step (p : pool) (ev : event) :
  tp_drained p -> tp_inv p -> tp_inv (step p ev).
Proof.
  intros Hd Hp. destruct ev as [d|w r|w e|]; simpl.
  - rewrite tp_runTask_runNext by done. by apply tp_inv_runNext, tp_inv_enqueue.
  - destruct (delivers w p); [|done]. unfold on_message.
    destruct (workers p !! w) as [wk|] eqn:Hw; [|done].
    destruct (currentTask wk) as [t|] eqn:Ht; [|by apply tp_inv_uncaught].
    apply tp_inv_runNext.
    apply (tp_inv_settle p w t); auto.
    + unfold cur. by rewrite Hw.
    + by rewrite tp_started_snoc, app_nil_r.
  - destruct (delivers w p); [|done].
    assert (tp_inv (die w p)) as Hp'.
    { apply tp_inv_stopping; [apply length_alter| |done].
      intros w'. apply tp_cur_stop_one. }
    unfold on_error.
    destruct (workers (die w p) !! w) as [wk|] eqn:Hw; [|done].
    destruct (currentTask wk) as [t|] eqn:Ht; [|done].
    apply (tp_inv_settle (die w p) w t); auto.
    + unfold cur. by rewrite Hw.
    + by rewrite tp_started_snoc, app_nil_r.
  - apply tp_inv_stopping; [apply length_fmap| |done].
    intros w'. apply tp_cur_stop_all.
Qed.

Lemma tp_inv_run (evs : list event) (p : pool) :
  tp_drained p -> tp_inv p ->
  tp_drained (run evs p) /\ tp_inv (run evs p).
Proof.
  revert p. induction evs as [|ev evs IH]; intros p Hd Hp; [done|].
  simpl. apply IH; [by apply tp_drained_step|by apply tp_inv_step].
Qed.

Lemma tp_reachable (n : nat) (evs : list event) :
  tp_drained (run evs (constructor n)) /\ tp_inv (run evs (constructor n)).
Proof.
  apply tp_inv_run; [apply tp_drained_constructor|apply tp_inv_constructor].
Qed.

(** *** Threads only ever stop *)

Lemma tp_running_flags (w : nat) (p : pool) :
  running w p = match flags p !! w with Some false => true | _ => false end.
Proof.
  unfold running, flags. rewrite list_lookup_fmap.
  destruct (workers p !! w) as [wk|]; [|done]. simpl. by destruct (stopped wk).
Qed.

Lemma tp_flags_alter_cur (o : option task) (w : nat) (ws : list worker) :
  stopped <$> alter (set_currentTask o) w ws = stopped <$> ws.
Proof.
  apply list_eq. intros i. rewrite !list_lookup_fmap.
  destruct (decide (i = w)) as [->|Hne].
  - rewrite list_lookup_alter_eq. by destruct (ws !! w).
  - by rewrite list_lookup_alter_ne.
Qed.

Lemma tp_flags_runNext (p : pool) : flags (runNext p) = flags p.
Proof.
  unfold runNext. destruct (queue p) as [|t q]; [done|].
  destruct (pop (freeWorkers p)) as [[w rest]|]; [|done].
  apply tp_flags_alter_cur.
Qed.

Lemma tp_flags_runTask (d : nat) (p : pool) : flags (runTask d p) = flags p.
Proof.
  unfold runTask. destruct (pop (freeWorkers p)) as [[w rest]|]; [|done].
  apply tp_flags_alter_cur.
Qed.

Lemma tp_flags_on_message (w r : nat) (p : pool) :
  flags (on_message w r p) = flags p.
Proof.
  unfold on_message. destruct (workers p !! w) as [wk|]; [|done].
  destruct (currentTask wk); [|done].
  rewrite tp_flags_runNext. apply tp_flags_alter_cur.
Qed.

Lemma tp_flags_on_error (w e : nat) (p : pool) :
  flags (on_error w e p) = flags p.
Proof.
  unfold on_error. destruct (workers p !! w) as [wk|]; [|done].
  destruct (currentTask wk); [|done]. apply tp_flags_alter_cur.
Qed.

Lemma tp_flags_close (p : pool) (w : nat) :
  flags (close p) !! w = (fun _ => true) <$> flags p !! w.
Proof.
  unfold flags, close; simpl. rewrite !list_lookup_fmap.
  by destruct (workers p !! w) as [[c []]|].
Qed.

Lemma tp_flags_die (p : pool) (w w' : nat) :
  flags (die w p) !! w' =
  if decide (w' = w) then (fun _ => true) <$> flags p !! w'
  else flags p !! w'.
Proof.
  unfold flags, die; simpl. rewrite !list_lookup_fmap. case_decide.
  - subst. rewrite list_lookup_alter_eq. by destruct (workers p !! w).
  - by rewrite list_lookup_alter_ne.
Qed.

Lemma tp_running_threads (w : nat) (p : pool) :
  running w p = match threads p !! w with Some Alive => true | _ => false end.
Proof.
  unfold running, threads, stopped. rewrite list_lookup_fmap.
  by destruct (workers p !! w) as [[c []]|].
Qed.

Lemma tp_delivers_threads (w : nat) (p : pool) :
  delivers w p =
  match threads p !! w with Some Dead | None => false | _ => true end.
Proof.
  unfold delivers, threads. rewrite list_lookup_fmap.
  by destruct (workers p !! w) as [[c []]|].
Qed.

(** A thread that runs can deliver. *)
Lemma tp_running_delivers (w : nat) (p : pool) :
  running w p = true -> delivers w p = true.
Proof.
  rewrite tp_running_threads, tp_delivers_threads.
  by destruct (threads p !! w) as [[]|].
Qed.

Lemma tp_threads_alter_cur (o : option task) (w : nat) (ws : list worker) :
  thread_of <$> alter (set_currentTask o) w ws = thread_of <$> ws.
Proof.
  apply list_eq. intros i. rewrite !list_lookup_fmap.
  destruct (decide (i = w)) as [->|Hne].
  - rewrite list_lookup_alter_eq. by destruct (ws !! w).
  - by rewrite list_lookup_alter_ne.
Qed.

Lemma tp_threads_runNext (p : pool) : threads (runNext p) = threads p.
Proof.
  unfold runNext. destruct (queue p) as [|t q]; [done|].
  destruct (pop (freeWorkers p)) as [[w rest]|]; [|done].
  apply tp_threads_alter_cur.
Qed.

Lemma tp_threads_runTask (d : nat) (p : pool) :
  threads (runTask d p) = threads p.
Proof.
  unfold runTask. destruct (pop (freeWorkers p)) as [[w rest]|]; [|done].
  apply tp_threads_alter_cur.
Qed.

Lemma tp_threads_on_message (w r : nat) (p : pool) :
  threads (on_message w r p) = threads p.
Proof.
  unfold on_message. destruct (workers p !! w) as [wk|]; [|done].
  destruct (currentTask wk); [|done].
  rewrite tp_threads_runNext. apply tp_threads_alter_cur.
Qed.

Lemma tp_threads_on_error (w e : nat) (p : pool) :
  threads (on_error w e p) = threads p.
Proof.
  unfold on_error. destruct (workers p !! w) as [wk|]; [|done].
  destruct (currentTask wk); [|done]. apply tp_threads_alter_cur.
Qed.

Lemma tp_threads_close (p : pool) (w : nat) :
  threads (close p) !! w =
  (fun th => match th with Alive => Terminated | _ => th end) <$>
    threads p !! w.
Proof.
  unfold threads, close; simpl. rewrite !list_lookup_fmap.
  by destruct (workers p !! w) as [[c []]|].
Qed.

Lemma tp_threads_die (p : pool) (w w' : nat) :
  threads (die w p) !! w' =
  if decide (w' = w) then (fun _ => Dead) <$> threads p !! w'
  else threads p !! w'.
Proof.
  unfold threads, die; simpl. rewrite !list_lookup_fmap. case_decide.
  - subst. rewrite list_lookup_alter_eq. by destruct (workers p !! w).
  - by rewrite list_lookup_alter_ne.
Qed.

(** What a step does to the threads: [close()] terminates those that run,
    an ['error'] leaves its thread dead, and nothing else changes them. *)
Lemma tp_threads_step (p : pool) (ev : event) (w : nat) :
  threads (step p ev) !! w =
  match ev with
  | Close =>
      (fun th => match th with Alive => Terminated | _ => th end) <$>
        threads p !! w
  | Error w' _ =>
      if decide (w = w' /\ delivers w' p = true)
      then (fun _ => Dead) <$> threads p !! w
      else threads p !! w
  | _ => threads p !! w
  end.
Proof.
  destruct ev as [d|w' r|w' e|]; simpl.
  - by rewrite tp_threads_runTask.
  - destruct (delivers w' p); [|done]. by rewrite tp_threads_on_message.
  - destruct (delivers w' p) eqn:Hd.
    + rewrite tp_threads_on_error, tp_threads_die.
      repeat case_decide; try done; tauto.
    + case_decide as H; [by destruct H|done].
  - apply tp_threads_close.
Qed.

(** A dead thread stays dead. *)
Lemma tp_delivers_step (w : nat) (p : pool) (ev : event) :
  delivers w p = false -> delivers w (step p ev) = false.
Proof.
  rewrite !tp_delivers_threads, tp_threads_step.
  destruct ev as [d|w' r|w' e|]; try done.
  - case_decide; [|done]. by destruct (threads p !! w) as [[]|].
  - by destruct (threads p !! w) as [[]|].
Qed.

Lemma tp_all_dead_step (p : pool) (ev : event) :
  all_dead p -> all_dead (step p ev).
Proof. intros Hp w. by apply tp_delivers_step. Qed.

Lemma tp_all_dead_stopped (p : pool) : all_dead p -> all_stopped p.
Proof.
  intros Hp w. destruct (running w p) eqn:Hr; [|done].
  apply tp_running_delivers in Hr. by rewrite Hp in Hr.
Qed.

(** While a thread runs, [close()] has not been called: a thread that has
    stopped is dead. *)
Lemma tp_unclosed_step (p : pool) (ev : event) :
  tp_unclosed p -> tp_unclosed (step p ev).
Proof.
  assert (forall q w wk, workers q !! w = Some wk ->
            threads q !! w = Some (thread_of wk)) as Hth.
  { intros q w wk Hw. unfold threads. by rewrite list_lookup_fmap, Hw. }
  assert (forall q w th, threads q !! w = Some th ->
            exists wk, workers q !! w = Some wk /\ thread_of wk = th) as Hth'.
  { intros q w th. unfold threads. rewrite list_lookup_fmap.
    intros (wk & Hw & ->)%fmap_Some. by exists wk. }
  intros Hp [w0 Hw0] w wk Hw Hterm.
  rewrite tp_running_threads, tp_threads_step in Hw0.
  apply Hth in Hw. rewrite tp_threads_step in Hw.
  destruct ev as [d|w' r|w' e|].
  - apply Hth' in Hw as (wk' & Hw & Hwk').
    apply (Hp ltac:(exists w0; by rewrite tp_running_threads) w wk' Hw).
    congruence.
  - apply Hth' in Hw as (wk' & Hw & Hwk').
    apply (Hp ltac:(exists w0; by rewrite tp_running_threads) w wk' Hw).
    congruence.
  - assert (exists w1, running w1 p = true) as Hrun.
    { exists w0. rewrite tp_running_threads.
      destruct (decide (w0 = w' /\ delivers w' p = true));
        [by destruct (threads p !! w0)|done]. }
    destruct (decide (w = w' /\ delivers w' p = true)).
    + destruct (threads p !! w); simplify_eq/=. congruence.
    + apply Hth' in Hw as (wk' & Hw & Hwk').
      apply (Hp Hrun w wk' Hw). congruence.
  - by destruct (threads p !! w0) as [[]|].
Qed.

Lemma tp_unclosed_reachable (n : nat) (evs : list event) :
  tp_unclosed (run evs (constructor n)).
Proof.
  induction evs as [|ev evs IH] using rev_ind.
  - rewrite tp_constructor_shape. intros _ w wk; cbn [workers run foldl].
    by intros [-> _]%lookup_replicate.
  - unfold run. rewrite foldl_app. by apply tp_unclosed_step.
Qed.

(** Where close() was not called, the threads that have stopped are dead. *)
Lemma tp_unclosed_all_dead (p : pool) (w e : nat) :
  tp_unclosed p -> running w p = true ->
  all_stopped (step p (Error w e)) -> all_dead (step p (Error w e)).
Proof.
  intros Hp Hr Hall w'.
  specialize (Hall w'). rewrite tp_running_threads in Hall.
  rewrite tp_delivers_threads. rewrite tp_threads_step in *.
  rewrite (tp_running_delivers _ _ Hr) in *.
  case_decide as Hw'.
  - by destruct (threads p !! w').
  - destruct (threads p !! w') as [[]|] eqn:Hth; try done. exfalso.
    unfold threads in Hth. rewrite list_lookup_fmap in Hth.
    apply fmap_Some in Hth as (wk & Hwk & Hterm).
    by apply (Hp ltac:(by exists w) w' wk Hwk).
Qed.

Lemma tp_running_step (w : nat) (p : pool) (ev : event) :
  running w p = false -> running w (step p ev) = false.
Proof.
  rewrite !tp_running_flags. intros Hw.
  destruct ev as [d|w' r|w' e|]; simpl.
  - by rewrite tp_flags_runTask.
  - destruct (delivers w' p); [|done]. by rewrite tp_flags_on_message.
  - destruct (delivers w' p); [|done].
    rewrite tp_flags_on_error, tp_flags_die. case_decide; [|done].
    by destruct (flags p !! w).
  - rewrite tp_flags_close. by destruct (flags p !! w).
Qed.

Lemma tp_all_stopped_step (p : pool) (ev : event) :
  all_stopped p -> all_stopped (step p ev).
Proof. intros Hp w. by apply tp_running_step. Qed.

Lemma tp_all_stopped_close (p : pool) : all_stopped (close p).
Proof.
  intros w. rewrite tp_running_flags, tp_flags_close.
  by destruct (flags p !! w).
Qed.

(** With every thread dead, no promise is settled any more. *)
Lemma tp_frozen_step (p : pool) (ev : event) (t : nat) :
  all_dead p -> settled t (log (step p ev)) = settled t (log p).
Proof.
  intros Hp. destruct ev as [d|w r|w e|]; simpl.
  - unfold runTask. destruct (pop (freeWorkers p)) as [[w rest]|]; [|done].
    simpl. rewrite tp_settled_snoc. simpl. lia.
  - by rewrite Hp.
  - by rewrite Hp.
  - done.
Qed.

Lemma tp_frozen_run (evs : list event) (p : pool) (t : nat) :
  all_dead p -> settled t (log (run evs p)) = settled t (log p).
Proof.
  revert p. induction evs as [|ev evs IH]; intros p Hp; [done|].
  simpl. rewrite IH by (by apply tp_all_dead_step).
  by apply tp_frozen_step.
Qed.

(** Nothing but the event of a worker settles a promise: submissions and
    [close()] do not. *)
Lemma tp_quiet_step (p : pool) (ev : event) (t : nat) :
  is_worker_event ev = false ->
  settled t (log (step p ev)) = settled t (log p) /\
  queue p `prefix_of` queue (step p ev).
Proof.
  intros Hev. destruct ev as [d|w r|w e|]; try done; simpl.
  unfold runTask. destruct (pop (freeWorkers p)) as [[w rest]|]; simpl.
  - rewrite tp_settled_snoc. simpl. split; [lia|done].
  - split; [done|by apply prefix_app_r].
Qed.

Lemma tp_quiet_run (evs : list event) (p : pool) (t : nat) :
  quiet evs ->
  settled t (log (run evs p)) = settled t (log p) /\
  queue p `prefix_of` queue (run evs p).
Proof.
  revert p. induction evs as [|ev evs IH]; intros p Hevs; [done|].
  apply Forall_cons in Hevs as [Hev Hevs].
  destruct (tp_quiet_step p ev t Hev) as [H1 H2].
  destruct (IH (step p ev) Hevs) as [H3 H4].
  simpl. split; [congruence|by etrans].
Qed.

(** With every thread dead, the queue only grows. *)
Lemma tp_stuck_run (evs : list event) (p : pool) :
  all_dead p -> queue p `prefix_of` queue (run evs p).
Proof.
  revert p. induction evs as [|ev evs IH]; intros p Hp; [done|].
  simpl. etrans; [|apply IH; by apply tp_all_dead_step].
  destruct ev as [d|w r|w e|]; simpl; rewrite ?Hp; try done.
  unfold runTask. destruct (pop (freeWorkers p)) as [[w rest]|]; [done|].
  simpl. by apply prefix_app_r.
Qed.

Lemma tp_run_app (evs1 evs2 : list event) (p : pool) :
  run (evs1 ++ evs2) p = run evs2 (run evs1 p).
Proof. apply foldl_app. Qed.

(** *** Submission order *)

Lemma tp_submitted_snoc (n : nat) (evs : list event) (ev : event) :
  submitted n (evs ++ [ev]) =
  submitted n evs ++
  match ev with
  | RunTask d => [Task (n + length (submitted n evs)) d]
  | _ => []
  end.
Proof.
  revert n. induction evs as [|ev' evs IH]; intros n; simpl.
  - destruct ev; simpl; by rewrite ?Nat.add_0_r.
  - destruct ev'; rewrite IH; simpl; try done.
    by rewrite Nat.add_succ_r.
Qed.

Lemma tp_runNext_order (p : pool) :
  started (log (runNext p)) ++ queue (runNext p) =
  started (log p) ++ queue p.
Proof.
  unfold runNext. destruct (queue p) as [|t q] eqn:Hq; [by rewrite Hq|].
  destruct (pop (freeWorkers p)) as [[w rest]|]; [|by rewrite Hq].
  simpl. rewrite tp_started_snoc, <- app_assoc. done.
Qed.

Lemma tp_step_order (p : pool) (ev : event) :
  tp_drained p ->
  started (log (step p ev)) ++ queue (step p ev) =
  (started (log p) ++ queue p) ++
  match ev with RunTask d => [Task (nextTask p) d] | _ => [] end.
Proof.
  intros Hd. destruct ev as [d|w r|w e|]; simpl; rewrite ?app_nil_r.
  - rewrite tp_runTask_runNext, tp_runNext_order by done. simpl.
    by rewrite app_assoc.
  - destruct (delivers w p); [|done]. unfold on_message.
    destruct (workers p !! w) as [wk|]; [|done].
    destruct (currentTask wk) as [t|].
    + rewrite tp_runNext_order. simpl.
      by rewrite tp_started_snoc, app_nil_r.
    + simpl. by rewrite tp_started_snoc, app_nil_r.
  - destruct (delivers w p); [|done]. unfold on_error.
    destruct (workers (die w p) !! w) as [wk|]; [|done].
    destruct (currentTask wk) as [t|]; [|done].
    simpl. by rewrite tp_started_snoc, app_nil_r.
  - done.
Qed.

Lemma tp_order (n : nat) (evs : list event) :
  let p := run evs (constructor n) in
  started (log p) ++ queue p = submitted 0 evs.
Proof.
  induction evs as [|ev evs IH] using rev_ind; simpl.
  - by rewrite tp_constructor_shape.
  - rewrite tp_run_app. simpl. simpl in IH.
    destruct (tp_reachable n evs) as [Hd Hp].
    rewrite tp_step_order, tp_submitted_snoc, IH by done.
    f_equal. destruct ev; try done. do 2 f_equal.
    rewrite <- IH, <- (length_fmap tid), (tp_fifo _ Hp), length_seq. done.
Qed.

(** *** A worker that died while busy *)

Lemma tp_free_step (w : nat) (p : pool) (ev : event) :
  delivers w p = false -> w ∉ freeWorkers p -> w ∉ freeWorkers (step p ev).
Proof.
  intros Hw Hnf. destruct ev as [d|w' r|w' e|]; simpl.
  - unfold runTask.
    destruct (pop (freeWorkers p)) as [[w0 rest]|] eqn:Hpop; [|done].
    apply pop_Some in Hpop. simpl. rewrite Hpop in Hnf.
    intros Hin. apply Hnf, elem_of_app. by left.
  - destruct (delivers w' p) eqn:Hw'; [|done]. unfold on_message.
    destruct (workers p !! w') as [wk|]; [|done].
    destruct (currentTask wk) as [t|]; [|done].
    assert (w ∉ freeWorkers p ++ [w']) as Hnf'.
    { intros [Hin|Hin%list_elem_of_singleton]%elem_of_app; [done|].
      congruence. }
    unfold runNext. simpl. destruct (queue p) as [|t' q]; [done|].
    rewrite pop_snoc. done.
  - destruct (delivers w' p); [|done]. unfold on_error.
    destruct (workers (die w' p) !! w') as [wk|]; [|done].
    by destruct (currentTask wk).
  - done.
Qed.

Lemma tp_dead_forever (w : nat) (evs : list event) (p : pool) :
  delivers w p = false -> w ∉ freeWorkers p ->
  running w (run evs p) = false /\ w ∉ freeWorkers (run evs p).
Proof.
  revert p. induction evs as [|ev evs IH]; intros p Hw Hnf.
  - split; [|done]. destruct (running w p) eqn:Hr; [|done].
    apply tp_running_delivers in Hr. simpl in *. congruence.
  - simpl. apply IH; [by apply tp_delivers_step|by apply tp_free_step].
Qed.

Lemma tp_busy_not_free (p : pool) (w : nat) (t : task) :
  tp_inv p -> cur p w = Some t -> w ∉ freeWorkers p.
Proof.
  intros Hp Hc Hin. destruct (tp_free_idle _ Hp _ Hin) as [_ Hi]. congruence.
Qed.

(** What the ['error'] of a busy worker does. *)
Lemma tp_error_busy (p : pool) (w e : nat) (t : task) :
  delivers w p = true -> cur p w = Some t ->
  let p' := step p (Error w e) in
  log p' = log p ++ [Rejected (tid t) e] /\
  queue p' = queue p /\ freeWorkers p' = freeWorkers p /\
  length (workers p') = length (workers p) /\
  cur p' w = None /\ running w p' = false /\ delivers w p' = false.
Proof.
  intros Hr Hc. simpl. rewrite Hr. unfold on_error.
  assert (cur (die w p) w = Some t) as Hc'.
  { unfold cur, die; simpl. by rewrite tp_cur_stop_one. }
  unfold cur in Hc'. destruct (workers (die w p) !! w) as [wk|] eqn:Hw; [|done].
  simpl in Hc'. rewrite Hc'. simpl. repeat split.
  - by rewrite !length_alter.
  - unfold cur; simpl. rewrite tp_cur_alter, length_alter.
    case_decide as Hd; [done|]. exfalso. apply Hd. split; [done|].
    unfold delivers in Hr. destruct (workers p !! w) eqn:Hl; [|done].
    by apply lookup_lt_Some in Hl.
  - unfold running; simpl. rewrite list_lookup_alter_eq.
    unfold die; simpl. rewrite list_lookup_alter_eq.
    by destruct (workers p !! w).
  - unfold delivers; simpl. rewrite list_lookup_alter_eq.
    unfold die; simpl. rewrite list_lookup_alter_eq.
    by destruct (workers p !! w).
Qed.

(** What the ['message'] of a busy worker does to its task. *)
Lemma tp_message_busy (p : pool) (w r : nat) (t : task) :
  tp_inv p -> delivers w p = true -> cur p w = Some t ->
  settled (tid t) (log (step p (Message w r))) = 1.
Proof.
  intros Hp Hr Hc. simpl. rewrite Hr.
  unfold on_message.
  unfold cur in Hc. destruct (workers p !! w) as [wk|] eqn:Hw; [|done].
  simpl in Hc. rewrite Hc.
  assert (cur p w = Some t) as Hc' by (unfold cur; by rewrite Hw).
  pose proof (tp_cur_pending _ Hp _ _ Hc') as H0.
  unfold runNext; simpl. destruct (queue p) as [|t' q].
  - simpl. rewrite tp_settled_snoc, H0. simpl. by rewrite bool_decide_eq_true_2.
  - rewrite pop_snoc. simpl. rewrite !tp_settled_snoc, H0. simpl.
    by rewrite bool_decide_eq_true_2.
Qed.

(** *** Shutdown *)

Lemma tp_close_idem (p : pool) : close (close p) = close p.
Proof.
  unfold close; simpl. f_equal. rewrite <- list_fmap_compose.
  apply list_fmap_ext. by intros i [c []] _.
Qed.

Lemma tp_stop_alter_cur (o : option task) (w : nat) (ws : list worker) :
  stop <$> alter (set_currentTask o) w ws =
  alter (set_currentTask o) w (stop <$> ws).
Proof. apply list_fmap_alter, Forall_forall. done. Qed.

Lemma tp_close_runTask (d : nat) (p : pool) :
  runTask d (close p) = close (runTask d p).
Proof.
  unfold runTask, close; simpl.
  destruct (pop (freeWorkers p)) as [[w rest]|]; [|done].
  unfold runTaskOnWorker, emit; simpl. f_equal.
  symmetry. apply tp_stop_alter_cur.
Qed.

(** *** The queue has no bound *)

Lemma tp_flood (d k : nat) (p : pool) :
  freeWorkers p = [] ->
  let p' := run (replicate k (RunTask d)) p in
  freeWorkers p' = [] /\ length (queue p') = length (queue p) + k.
Proof.
  revert p. induction k as [|k IH]; intros p Hf; simpl.
  - split; [done|lia].
  - assert (runTask d p = Pool (poolSize p) (workers p) (freeWorkers p)
              (queue p ++ [Task (nextTask p) d]) (S (nextTask p)) (log p))
      as ->.
    { unfold runTask. by rewrite Hf. }
    destruct (IH (Pool (poolSize p) (workers p) (freeWorkers p)
              (queue p ++ [Task (nextTask p) d]) (S (nextTask p)) (log p)) Hf)
      as [H1 H2].
    split; [done|]. simpl in H2. rewrite H2, length_app. simpl. lia.
Qed.

(** *** The log only grows *)

Lemma tp_log_step (p : pool) (ev : event) :
  log p `prefix_of` log (step p ev).
Proof.
  destruct ev as [d|w r|w e|]; simpl.
  - unfold runTask. destruct (pop (freeWorkers p)) as [[w rest]|]; [|done].
    simpl. by apply prefix_app_r.
  - destruct (delivers w p); [|done]. unfold on_message.
    destruct (workers p !! w) as [wk|]; [|done].
    destruct (currentTask wk) as [t|]; [|by apply prefix_app_r].
    unfold runNext; simpl. destruct (queue p) as [|t' q].
    + by apply prefix_app_r.
    + rewrite pop_snoc. simpl. rewrite <- app_assoc. by apply prefix_app_r.
  - destruct (delivers w p); [|done]. unfold on_error.
    destruct (workers (die w p) !! w) as [wk|]; [|done].
    destruct (currentTask wk) as [t|]; [|done]. by apply prefix_app_r.
  - done.
Qed.

Lemma tp_log_run (evs : list event) (p : pool) :
  log p `prefix_of` log (run evs p).
Proof.
  revert p. induction evs as [|ev evs IH]; intros p; [done|].
  simpl. etrans; [apply tp_log_step|apply IH].
Qed.

Lemma tp_started_prefix (l1 l2 : list effect) :
  l1 `prefix_of` l2 -> started l1 `prefix_of` started l2.
Proof.
  intros [k ->]. unfold started. rewrite omap_app. by apply prefix_app_r.
Qed.

(** A task that was handed to a worker is never queued or handed again. *)
Lemma tp_never_again (p : pool) (evs : list event) (t : nat) :
  tp_drained p -> tp_inv p -> t ∈ tid <$> started (log p) ->
  let q := run evs p in
  NoDup (tid <$> started (log q)) /\ t ∉ tid <$> queue q.
Proof.
  intros Hd Hp Ht. simpl.
  destruct (tp_inv_run evs p Hd Hp) as [_ Hq].
  assert (NoDup (tid <$> (started (log (run evs p)) ++ queue (run evs p))))
    as Hnd.
  { rewrite (tp_fifo _ Hq). apply NoDup_seq. }
  rewrite fmap_app in Hnd. apply NoDup_app in Hnd as (H1 & H2 & _).
  split; [done|]. apply H2.
  destruct (tp_started_prefix _ _ (tp_log_run evs p)) as [k ->].
  rewrite fmap_app. apply elem_of_app. by left.
Qed.

(** With a task waiting, the message of a busy worker starts the head of
    the queue. *)
Lemma tp_message_starts_next (p : pool) (w r : nat) (t t' : task)
    (q : list task) :
  tp_drained p -> running w p = true -> cur p w = Some t ->
  queue p = t' :: q ->
  started (log (step p (Message w r))) = started (log p) ++ [t'] /\
  queue (step p (Message w r)) = q.
Proof.
  intros Hd Hr Hc Hq. simpl. rewrite (tp_running_delivers _ _ Hr).
  unfold on_message.
  unfold cur in Hc. destruct (workers p !! w) as [wk|]; [|done].
  simpl in Hc. rewrite Hc. unfold runNext. simpl. rewrite Hq, pop_snoc.
  simpl. by rewrite !tp_started_snoc, app_nil_r.
Qed.

(** With a task waiting, the message of a worker that holds a task hands
    the head of the queue to that worker, whatever the state of its
    thread. *)
Lemma tp_message_hands_over (p : pool) (w r : nat) (t t' : task)
    (q : list task) :
  tp_drained p -> delivers w p = true -> cur p w = Some t ->
  queue p = t' :: q ->
  started (log (step p (Message w r))) = started (log p) ++ [t'] /\
  queue (step p (Message w r)) = q /\
  cur (step p (Message w r)) w = Some t' /\
  running w (step p (Message w r)) = running w p.
Proof.
  intros Hd Hr Hc Hq.
  assert (running w (step p (Message w r)) = running w p) as Hrun.
  { simpl. rewrite Hr. by rewrite !tp_running_flags, tp_flags_on_message. }
  split; [|split; [|split; [|done]]]; simpl; rewrite Hr; unfold on_message;
    unfold cur in Hc; destruct (workers p !! w) as [wk|] eqn:Hw; try done;
    simpl in Hc; rewrite Hc; unfold runNext; simpl; rewrite Hq, pop_snoc;
    simpl.
  - by rewrite !tp_started_snoc, app_nil_r.
  - done.
  - unfold cur; simpl. rewrite !tp_cur_alter. rewrite decide_True; [done|].
    split; [done|]. rewrite length_alter. by eapply lookup_lt_Some.
Qed.

Lemma tp_all_stopped_run (evs : list event) (p : pool) :
  all_stopped p -> all_stopped (run evs p).
Proof.
  revert p. induction evs as [|ev evs IH]; intros p Hp; [done|].
  simpl. by apply IH, tp_all_stopped_step.
Qed.

Lemma tp_close_stopped (p : pool) : all_stopped p -> close p = p.
Proof.
  intros Hp. unfold close. destruct p as [n ws fr q nt l]; simpl. f_equal.
  apply list_eq. intros w. rewrite list_lookup_fmap.
  specialize (Hp w). unfold running in Hp. simpl in Hp.
  by destruct (ws !! w) as [[c []]|].
Qed.

(** A second [close()] changes nothing, whatever came since the first. *)
Lemma tp_close_again (evs : list event) (p : pool) :
  close (run evs (close p)) = run evs (close p).
Proof. apply tp_close_stopped, tp_all_stopped_run, tp_all_stopped_close. Qed.

Lemma tp_poolSize_step (p : pool) (ev : event) :
  poolSize (step p ev) = poolSize p.
Proof.
  destruct ev as [d|w r|w e|]; simpl; try done.
  - unfold runTask. by destruct (pop (freeWorkers p)) as [[w rest]|].
  - destruct (delivers w p); [|done]. unfold on_message.
    destruct (workers p !! w) as [wk|]; [|done].
    destruct (currentTask wk); [|done].
    unfold runNext. simpl. destruct (queue p); [done|]. by rewrite pop_snoc.
  - destruct (delivers w p); [|done]. unfold on_error.
    destruct (workers _ !! w) as [wk|]; [|done].
    by destruct (currentTask wk).
Qed.

Lemma tp_workers_reachable (n : nat) (evs : list event) :
  length (workers (run evs (constructor n))) = n.
Proof.
  assert (poolSize (run evs (constructor n)) = n) as Hn.
  { induction evs as [|ev evs IH] using rev_ind.
    - by rewrite tp_constructor_shape.
    - rewrite tp_run_app. simpl. by rewrite tp_poolSize_step. }
  destruct (tp_reachable n evs) as [_ Hp]. by rewrite (tp_size _ Hp).
Qed.

(** *** Tasks in flight *)

Lemma tp_cur_dispatch (w w' : nat) (t : task) (p : pool) :
  w < length (workers p) ->
  cur (runTaskOnWorker w t p) w' = if decide (w' = w) then Some t else cur p w'.
Proof.
  intros Hw. unfold cur; simpl. rewrite tp_cur_alter.
  repeat case_decide; try done; tauto.
Qed.

Lemma tp_settled_posted (t0 w : nat) (t : task) (l : list effect) :
  settled t0 (l ++ [Posted w t]) = settled t0 l.
Proof. rewrite tp_settled_snoc. simpl. lia. Qed.

Lemma tp_held_runNext (p : pool) : tp_inv p -> tp_held p -> tp_held (runNext p).
Proof.
  intros Hp Hh. unfold runNext.
  destruct (queue p) as [|t q] eqn:Hq; [done|].
  destruct (pop (freeWorkers p)) as [[w rest]|] eqn:Hpop; [|done].
  apply pop_Some in Hpop.
  assert (w ∈ freeWorkers p) as Hin by (rewrite Hpop; set_solver).
  destruct (tp_free_idle _ Hp _ Hin) as [Hwlt Hidle].
  intros t0. cbn [runTaskOnWorker emit log].
  rewrite tp_started_snoc, tp_settled_posted.
  intros [Ht0|Ht0%list_elem_of_singleton]%elem_of_app Hs.
  - destruct (Hh t0 Ht0 Hs) as [w0 Hw0]. exists w0.
    rewrite (tp_cur_dispatch w w0 t (Pool _ _ _ _ _ _)) by done.
    case_decide; [congruence|done].
  - subst. exists w.
    rewrite (tp_cur_dispatch w w t (Pool _ _ _ _ _ _)) by done.
    by rewrite decide_True.
Qed.

Lemma tp_held_settle (p : pool) (w : nat) (t : task) (e : effect)
    (fr : list nat) :
  tp_inv p -> tp_held p -> cur p w = Some t ->
  (forall t0, settles t0 e = bool_decide (tid t = t0)) ->
  started (log p ++ [e]) = started (log p) ->
  tp_held (Pool (poolSize p) (alter (set_currentTask None) w (workers p)) fr
                (queue p) (nextTask p) (log p ++ [e])).
Proof.
  intros Hp Hh Hw Hse Hst t0. cbn [log]. rewrite Hst, tp_settled_snoc, Hse.
  intros Ht0 Hs.
  assert (settled (tid t0) (log p) = 0) as Hs0 by lia.
  assert (tid t <> tid t0) as Hne.
  { intros Heq. rewrite bool_decide_eq_true_2 in Hs by done. lia. }
  destruct (Hh t0 Ht0 Hs0) as [w0 Hw0]. exists w0.
  unfold cur; simpl. rewrite tp_cur_alter.
  destruct (decide (w0 = w /\ w < length (workers p))) as [[-> _]|];
    [congruence|exact Hw0].
Qed.

Lemma tp_held_step (p : pool) (ev : event) :
  tp_drained p -> tp_inv p -> tp_held p -> tp_held (step p ev).
Proof.
  intros Hd Hp Hh. destruct ev as [d|w r|w e|]; simpl.
  - rewrite tp_runTask_runNext by done.
    apply tp_held_runNext; [by apply tp_inv_enqueue|done].
  - destruct (delivers w p); [|done]. unfold on_message.
    destruct (workers p !! w) as [wk|] eqn:Hw; [|done].
    destruct (currentTask wk) as [t|] eqn:Ht.
    + assert (cur p w = Some t) as Hc by (unfold cur; by rewrite Hw).
      apply tp_held_runNext.
      * apply (tp_inv_settle p w t); auto.
        by rewrite tp_started_snoc, app_nil_r.
      * apply (tp_held_settle p w t); auto.
        by rewrite tp_started_snoc, app_nil_r.
    + intros t0. cbn [emit log]. rewrite tp_started_snoc, app_nil_r.
      rewrite tp_settled_snoc. simpl. rewrite Nat.add_0_r. apply Hh.
  - destruct (delivers w p); [|done].
    assert (tp_inv (die w p)) as Hp'.
    { apply tp_inv_stopping; [apply length_alter| |done].
      intros w'. apply tp_cur_stop_one. }
    assert (tp_held (die w p)) as Hh'.
    { intros t0 Ht0 Hs. destruct (Hh t0 Ht0 Hs) as [w0 Hw0]. exists w0.
      unfold cur, die; simpl. by rewrite tp_cur_stop_one. }
    unfold on_error.
    destruct (workers (die w p) !! w) as [wk|] eqn:Hw; [|done].
    destruct (currentTask wk) as [t|] eqn:Ht; [|done].
    apply (tp_held_settle (die w p) w t); auto.
    + unfold cur. by rewrite Hw.
    + by rewrite tp_started_snoc, app_nil_r.
  - intros t0 Ht0 Hs. destruct (Hh t0 Ht0 Hs) as [w0 Hw0]. exists w0.
    unfold cur, close; simpl. by rewrite tp_cur_stop_all.
Qed.

Lemma tp_held_reachable (n : nat) (evs : list event) :
  tp_held (run evs (constructor n)).
Proof.
  induction evs as [|ev evs IH] using rev_ind.
  - rewrite tp_constructor_shape. intros t Ht. by apply elem_of_nil in Ht.
  - rewrite tp_run_app. simpl. destruct (tp_reachable n evs) as [Hd Hp].
    by apply tp_held_step.
Qed.

(** At most one task per worker is in flight. *)
Lemma tp_in_flight_bound (p : pool) :
  tp_inv p -> tp_held p -> length (in_flight p) <= length (workers p).
Proof.
  intros Hp Hh.
  assert (NoDup (tid <$> in_flight p)) as Hnd.
  { eapply sublist_NoDup; [|apply fmap_sublist, sublist_filter].
    assert (NoDup (tid <$> (started (log p) ++ queue p))) as H.
    { rewrite (tp_fifo _ Hp). apply NoDup_seq. }
    rewrite fmap_app in H. by apply NoDup_app in H as (H & _). }
  assert (tid <$> in_flight p ⊆+ held p) as Hsub.
  { apply NoDup_submseteq; [done|]. intros x Hx.
    apply list_elem_of_fmap in Hx as (t & -> & Ht).
    apply list_elem_of_filter in Ht as [Hs Ht].
    destruct (Hh t Ht Hs) as [w Hw]. unfold cur in Hw.
    destruct (workers p !! w) as [wk|] eqn:Hwk; [|done]. simpl in Hw.
    apply list_elem_of_omap. exists wk. split.
    - apply list_elem_of_lookup. by exists w.
    - by rewrite Hw. }
  apply submseteq_length in Hsub. rewrite length_fmap in Hsub.
  etrans; [done|]. unfold held. clear.
  induction (workers p) as [|wk ws IH]; csimpl; [done|].
  destruct (tid <$> currentTask wk); csimpl; lia.
Qed.

(** *** Pools whose workers never fail *)

Lemma tp_staffed_step (p : pool) (ev : event) :
  is_error ev = false -> tp_inv p -> tp_staffed p -> tp_staffed (step p ev).
Proof.
  intros Hev Hp Hs. destruct ev as [d|w r|w e|]; simpl; [| |done|].
  - unfold runTask.
    destruct (pop (freeWorkers p)) as [[w rest]|] eqn:Hpop; [|done].
    apply pop_Some in Hpop.
    assert (w ∈ freeWorkers p) as Hin by (rewrite Hpop; set_solver).
    destruct (tp_free_idle _ Hp _ Hin) as [Hwlt _].
    intros w'. cbn [runTaskOnWorker emit workers freeWorkers].
    rewrite length_alter. intros Hw'.
    rewrite (tp_cur_dispatch w w' _ (Pool _ _ _ _ _ _)) by done.
    case_decide; [by right|].
    destruct (Hs w' Hw') as [Hf|Hc]; [|by right]. left.
    rewrite Hpop in Hf.
    apply elem_of_app in Hf as [Hf|Hf%list_elem_of_singleton]; done.
  - destruct (delivers w p); [|done]. unfold on_message.
    destruct (workers p !! w) as [wk|] eqn:Hw; [|done].
    destruct (currentTask wk) as [t|] eqn:Ht; [|done].
    assert (w < length (workers p)) as Hwlt by (by apply lookup_lt_Some in Hw).
    unfold runNext. cbn [queue freeWorkers].
    destruct (queue p) as [|t' q].
    + intros w'. cbn [workers freeWorkers]. rewrite length_alter. intros Hw'.
      destruct (decide (w' = w)) as [->|Hne]; [left; set_solver|].
      destruct (Hs w' Hw') as [Hf|Hc]; [left; set_solver|right].
      unfold cur in *; simpl. rewrite tp_cur_alter.
      case_decide; [tauto|done].
    + rewrite pop_snoc. intros w'.
      cbn [runTaskOnWorker emit workers freeWorkers].
      rewrite !length_alter. intros Hw'.
      rewrite (tp_cur_dispatch w w' _ (Pool _ _ _ _ _ _))
        by (simpl; by rewrite length_alter).
      case_decide; [by right|].
      destruct (Hs w' Hw') as [Hf|Hc]; [by left|right].
      unfold cur in *; simpl. rewrite tp_cur_alter.
      case_decide; [tauto|done].
  - intros w'. cbn [close workers freeWorkers]. rewrite length_fmap.
    intros Hw'. destruct (Hs w' Hw') as [Hf|Hc]; [by left|right].
    unfold cur in *; simpl. by rewrite tp_cur_stop_all.
Qed.

Lemma tp_staffed_reachable (n : nat) (evs : list event) :
  error_free evs -> tp_staffed (run evs (constructor n)).
Proof.
  induction evs as [|ev evs IH] using rev_ind; intros Hef.
  - rewrite tp_constructor_shape. intros w. simpl.
    rewrite length_replicate, elem_of_seq. intros Hw. left. lia.
  - apply Forall_app in Hef as [Hef Hev]. apply Forall_cons in Hev as [Hev _].
    rewrite tp_run_app. simpl. destruct (tp_reachable n evs) as [Hd Hp].
    apply tp_staffed_step; auto.
Qed.

(** No promise is rejected when no worker fails. *)
Lemma tp_no_reject_step (p : pool) (ev : event) (t e : nat) :
  is_error ev = false -> Rejected t e ∈ log (step p ev) -> Rejected t e ∈ log p.
Proof.
  intros Hev. destruct ev as [d|w r|w e'|]; simpl; [| |done|done].
  - unfold runTask. destruct (pop (freeWorkers p)) as [[w rest]|]; [|done].
    simpl. intros [H|H%list_elem_of_singleton]%elem_of_app; done.
  - destruct (delivers w p); [|done]. unfold on_message.
    destruct (workers p !! w) as [wk|]; [|done].
    destruct (currentTask wk) as [t0|].
    + unfold runNext. simpl. destruct (queue p) as [|t' q]; simpl.
      * intros [H|H%list_elem_of_singleton]%elem_of_app; done.
      * rewrite pop_snoc. simpl.
        intros [[H|H%list_elem_of_singleton]%elem_of_app|
                H%list_elem_of_singleton]%elem_of_app; done.
    + simpl. intros [H|H%list_elem_of_singleton]%elem_of_app; done.
Qed.

(** *** A task held by a worker that delivers nothing *)

Lemma tp_kept_step (p : pool) (ev : event) (w : nat) (t : task) :
  tp_inv p -> cur p w = Some t -> event_of w ev = false ->
  cur (step p ev) w = Some t.
Proof.
  intros Hp Hc Hr.
  assert (forall w' : nat, bool_decide (w' = w) = false -> w <> w') as Hother.
  { intros w' Hw' ->. by rewrite bool_decide_eq_true_2 in Hw'. }
  assert (w ∉ freeWorkers p) as Hnf by (by apply (tp_busy_not_free _ _ t)).
  destruct ev as [d|w' r|w' e|]; simpl.
  - unfold runTask.
    destruct (pop (freeWorkers p)) as [[w0 rest]|] eqn:Hpop; [|done].
    apply pop_Some in Hpop.
    assert (w0 ∈ freeWorkers p) as Hin by (rewrite Hpop; set_solver).
    destruct (tp_free_idle _ Hp _ Hin) as [Hwlt _].
    rewrite (tp_cur_dispatch w0 w _ (Pool _ _ _ _ _ _)) by done.
    case_decide; [congruence|done].
  - destruct (delivers w' p) eqn:Hr'; [|done].
    assert (w <> w') as Hne by (by apply Hother).
    unfold on_message.
    destruct (workers p !! w') as [wk|] eqn:Hw'; [|done].
    destruct (currentTask wk) as [t0|] eqn:Ht0; [|done].
    assert (w' < length (workers p)) as Hwlt
      by (by apply lookup_lt_Some in Hw').
    assert (cur (Pool (poolSize p)
                      (alter (set_currentTask None) w' (workers p))
                      (freeWorkers p ++ [w']) (queue p) (nextTask p)
                      (log p ++ [Resolved (tid t0) r])) w = Some t) as Hc'.
    { unfold cur in *; simpl. rewrite tp_cur_alter.
      case_decide; [tauto|done]. }
    unfold runNext. cbn [queue freeWorkers].
    destruct (queue p) as [|t' q]; [done|]. rewrite pop_snoc.
    rewrite (tp_cur_dispatch w' w _ (Pool _ _ _ _ _ _))
      by (simpl; by rewrite length_alter).
    by rewrite decide_False.
  - destruct (delivers w' p) eqn:Hr'; [|done].
    assert (w <> w') as Hne by (by apply Hother).
    assert (cur (die w' p) w = Some t) as Hc'.
    { unfold cur, die; simpl. by rewrite tp_cur_stop_one. }
    unfold on_error.
    destruct (workers (die w' p) !! w') as [wk|]; [|done].
    destruct (currentTask wk) as [t0|]; [|done].
    unfold cur in *; simpl. rewrite tp_cur_alter.
    case_decide; [tauto|done].
  - unfold cur, close; simpl. by rewrite tp_cur_stop_all.
Qed.

Lemma tp_kept_run (evs : list event) (p : pool)
    (w : nat) (t : task) :
  tp_drained p -> tp_inv p -> cur p w = Some t -> silent w evs ->
  cur (run evs p) w = Some t /\ settled (tid t) (log (run evs p)) = 0.
Proof.
  revert p. induction evs as [|ev evs IH]; intros p Hd Hp Hc Hr.
  - split; [done|]. by apply (tp_cur_pending _ Hp w).
  - apply Forall_cons in Hr as [Hev Hr]. simpl. apply IH.
    + by apply tp_drained_step.
    + by apply tp_inv_step.
    + by apply tp_kept_step.
    + done.
Qed.

Lemma tp_no_reject_run (n : nat) (evs : list event) (t e : nat) :
  error_free evs -> Rejected t e ∉ log (run evs (constructor n)).
Proof.
  induction evs as [|ev evs IH] using rev_ind; intros Hef.
  - rewrite tp_constructor_shape. apply not_elem_of_nil.
  - apply Forall_app in Hef as [Hef Hev]. apply Forall_cons in Hev as [Hev _].
    rewrite tp_run_app. simpl. intros Hin. apply (IH Hef).
    by apply (tp_no_reject_step _ ev).
Qed.

End WorkerThreadsPoolFacts.

(** ** Facts about the pool of [worker-demo.js] *)

Section WorkerDemoFacts.
Import WorkerDemo.

Lemma wd_iter_slots (m n : nat) :
  Nat.iter n
    (fun p => Pool (poolSize p) (workers p ++ [Slot None false]) (queue p)
                   (threads p) (nextTask p) (log p))
    (Pool m [] [] [] 0 []) =
  Pool m (replicate n (Slot None false)) [] [] 0 [].
Proof.
  induction n as [|n IH]; simpl; [done|].
  rewrite IH. simpl. f_equal. symmetry. apply replicate_cons_app.
Qed.

Lemma wd_constructor_shape (n : nat) :
  constructor n = Pool n (replicate n (Slot None false)) [] [] 0 [].
Proof. apply wd_iter_slots. Qed.

Lemma wd_started_snoc (l : list effect) (e : effect) :
  started (l ++ [e]) =
  started l ++ match e with Spawned _ t => [t] | _ => [] end.
Proof. unfold started. rewrite omap_app. by destruct e. Qed.

Lemma wd_run_app (evs1 evs2 : list event) (p : pool) :
  run (evs1 ++ evs2) p = run evs2 (run evs1 p).
Proof. apply foldl_app. Qed.

(** *** The loop of [terminate] *)

Lemma wd_kill_idem (th : thread) : kill (kill th) = kill th.
Proof. unfold kill. by destruct th as [i t []]. Qed.

Lemma wd_terminate_slots (l : list nat) (p : pool) :
  let p' := foldl terminate_slot p l in
  poolSize p' = poolSize p /\ workers p' = workers p /\
  queue p' = queue p /\ nextTask p' = nextTask p /\ log p' = log p /\
  forall k, threads p' !! k =
            if decide (k ∈ targets p l) then kill <$> threads p !! k
            else threads p !! k.
Proof.
  induction l as [|i l IH] using rev_ind; simpl.
  - done.
  - rewrite foldl_app. simpl. destruct IH as (H1 & H2 & H3 & H4 & H5 & H6).
    unfold terminate_slot at 1 3 5 7 9 11. rewrite H2.
    unfold targets. rewrite omap_app. simpl.
    destruct (workers p !! i) as [[[k0|] b]|] eqn:Hi; simpl;
      repeat split; try done.
    + intros k. fold (targets p l). destruct (decide (k = k0)) as [->|Hne].
      * rewrite list_lookup_alter_eq, H6.
        rewrite (decide_True (P := k0 ∈ targets p l ++ [k0]))
          by (apply elem_of_app; right; left).
        case_decide; [|done].
        destruct (threads p !! k0) as [th|]; [|done].
        simpl. by rewrite wd_kill_idem.
      * rewrite list_lookup_alter_ne by done. rewrite H6.
        assert (k ∈ targets p l ++ [k0] <-> k ∈ targets p l) as Hk.
        { rewrite elem_of_app, list_elem_of_singleton. tauto. }
        repeat case_decide; tauto.
    + intros k. rewrite H6, app_nil_r. done.
    + intros k. rewrite H6, app_nil_r. done.
Qed.

Lemma wd_terminate_slots_length (l : list nat) (p : pool) :
  length (threads (foldl terminate_slot p l)) = length (threads p).
Proof.
  induction l as [|i l IH] using rev_ind; [done|].
  rewrite foldl_app. simpl. rewrite <- IH.
  generalize (foldl terminate_slot p l) as q. intros q.
  unfold terminate_slot.
  destruct (workers q !! i) as [[[k|] b]|]; simpl; by rewrite ?length_alter.
Qed.

Lemma wd_pool_eq (p q : pool) :
  poolSize p = poolSize q -> workers p = workers q -> queue p = queue q ->
  threads p = threads q -> nextTask p = nextTask q -> log p = log q ->
  p = q.
Proof. destruct p, q; simpl. by intros -> -> -> -> -> ->. Qed.

(** Two runs of the loop that reach the same slots leave the same pool. *)
Lemma wd_terminate_same (l1 l2 : list nat) (p : pool) :
  (forall i, i ∈ l1 <-> i ∈ l2) ->
  foldl terminate_slot p l1 = foldl terminate_slot p l2.
Proof.
  intros Hl.
  destruct (wd_terminate_slots l1 p) as (H1 & H2 & H3 & H4 & H5 & H6).
  destruct (wd_terminate_slots l2 p) as (G1 & G2 & G3 & G4 & G5 & G6).
  apply wd_pool_eq; try congruence.
  apply list_eq. intros k. rewrite H6, G6.
  assert (k ∈ targets p l1 <-> k ∈ targets p l2) as Hk.
  { unfold targets. rewrite !list_elem_of_omap.
    split; intros (i & Hi & Hs); exists i; split; try done; by apply Hl. }
  repeat case_decide; tauto.
Qed.

Lemma wd_terminate_slot_fields (i : nat) (p : pool) :
  poolSize (terminate_slot p i) = poolSize p /\
  workers (terminate_slot p i) = workers p /\
  queue (terminate_slot p i) = queue p /\
  nextTask (terminate_slot p i) = nextTask p /\
  log (terminate_slot p i) = log p.
Proof.
  unfold terminate_slot. by destruct (workers p !! i) as [[[k|] b]|].
Qed.

Lemma wd_run_turns (l : list nat) (p : pool) :
  run (TerminateSlot <$> l) p = foldl terminate_slot p l.
Proof.
  revert p. induction l as [|i l IH]; intros p; [done|]. simpl. apply IH.
Qed.

(** A turn of the loop, taken twice in a row, is taken once. *)
Lemma wd_terminate_slot_idem (i : nat) (p : pool) :
  terminate_slot (terminate_slot p i) i = terminate_slot p i.
Proof.
  change (foldl terminate_slot p [i; i] = foldl terminate_slot p [i]).
  apply wd_terminate_same. intros j. rewrite !elem_of_cons. tauto.
Qed.

(** Two calls whose turns come one after the other in any way, with no
    event of a thread between them, leave the pool as one call does. *)
Lemma wd_terminate_interleaved (p : pool) (l : list event) :
  interleaved (terminate_turns p) (terminate_turns p) l ->
  run l p = run (terminate_turns p) p.
Proof.
  intros Hl. apply interleaved_fmap_inv in Hl as (l' & -> & Hl).
  unfold terminate_turns. rewrite !wd_run_turns.
  apply wd_terminate_same. intros i.
  rewrite (interleaved_elem_of _ _ _ _ Hl). tauto.
Qed.

(** A turn of the loop changes the pool exactly when the worker of its
    slot is a thread that runs. *)
Lemma wd_terminate_slot_same (i : nat) (p : pool) :
  terminate_slot p i = p <->
  forall k, workers p !! i ≫= worker = Some k -> status_of k p <> Some Running.
Proof.
  unfold terminate_slot, status_of.
  destruct (workers p !! i) as [[[k|] b]|] eqn:Hi; simpl;
    [|by split..].
  split.
  - intros Heq k' [= <-]. apply (f_equal threads) in Heq. simpl in Heq.
    apply (f_equal (fun l => l !! k)) in Heq.
    rewrite list_lookup_alter_eq in Heq.
    destruct (threads p !! k) as [[j t []]|]; by simpl in *.
  - intros Hk. specialize (Hk k eq_refl).
    assert (alter kill k (threads p) = threads p) as ->; [|by destruct p].
    apply list_eq. intros k'. destruct (decide (k = k')) as [<-|Hne].
    + rewrite list_lookup_alter_eq.
      destruct (threads p !! k) as [[j t []]|]; by simpl in *.
    + by rewrite list_lookup_alter_ne.
Qed.

(** *** The slots *)

Lemma wd_finishTask_slots (i : nat) (p : pool) :
  poolSize (finishTask i p) = poolSize p /\
  length (workers (finishTask i p)) = length (workers p) /\
  nextTask (finishTask i p) = nextTask p.
Proof.
  unfold finishTask. destruct (queue p); simpl; by rewrite !length_alter.
Qed.

Lemma wd_step_slots (p : pool) (ev : event) :
  poolSize (step p ev) = poolSize p /\
  length (workers (step p ev)) = length (workers p) /\
  nextTask (step p ev) =
  nextTask p + match ev with Execute _ => 1 | _ => 0 end.
Proof.
  destruct ev as [d|k r|k e|k c|i]; simpl.
  - unfold execute. destruct (available (workers p)); simpl;
      rewrite ?length_alter; repeat split; lia.
  - destruct (status_of k p) as [[]|]; rewrite ?Nat.add_0_r; try done.
    all: unfold on_message; destruct (threads p !! k); [|done].
    all: apply (wd_finishTask_slots _ (emit _ p)).
  - destruct (status_of k p) as [[]|]; rewrite ?Nat.add_0_r; try done.
    all: unfold on_error; destruct (threads (mark Terminated k p) !! k);
      [|done].
    all: apply (wd_finishTask_slots _ (emit _ (mark Terminated k p))).
  - destruct (status_of k p) as [[]|]; rewrite ?Nat.add_0_r; try done;
      unfold on_exit; destruct (threads (mark Exited k p) !! k); try done;
      by case_decide.
  - destruct (wd_terminate_slot_fields i p) as (H1 & H2 & _ & H4 & _).
    by rewrite H1, H2, H4, Nat.add_0_r.
Qed.

Lemma wd_slots (n : nat) (evs : list event) :
  let p := run evs (constructor n) in
  poolSize p = n /\ length (workers p) = n /\ busy_count p <= n.
Proof.
  assert (poolSize (run evs (constructor n)) = n /\
          length (workers (run evs (constructor n))) = n) as [H1 H2].
  { induction evs as [|ev evs IH] using rev_ind.
    - rewrite wd_constructor_shape. simpl. by rewrite length_replicate.
    - rewrite wd_run_app. simpl.
      destruct (wd_step_slots (run evs (constructor n)) ev) as (-> & -> & _).
      done. }
  simpl. repeat split; try done.
  unfold busy_count. rewrite <- H2 at 2. apply length_filter.
Qed.

(** *** Submission order *)

Lemma wd_available_None (ws : list slot) :
  available ws = None <-> Forall (fun s => busy s = true) ws.
Proof.
  unfold available. rewrite fmap_None, list_find_None.
  apply Forall_iff. intros [k []]; simpl; split; congruence.
Qed.

Lemma wd_finishTask_drained (i : nat) (p : pool) :
  wd_drained p -> wd_drained (finishTask i p).
Proof.
  unfold wd_drained, finishTask. intros Hp.
  destruct (queue p) as [|t q] eqn:Hq; [done|].
  simpl. intros Ha. exfalso. apply Ha. clear Ha.
  assert (available (workers p) = None) as Hnone.
  { destruct (available (workers p)) eqn:Ha; [|done].
    by discriminate Hp. }
  apply wd_available_None in Hnone. apply wd_available_None.
  apply Forall_lookup. intros j s.
  destruct (decide (j = i)) as [->|Hne].
  - rewrite list_lookup_alter_eq.
    destruct (alter _ i (workers p) !! i); simpl; [|done]. by intros [= <-].
  - rewrite !list_lookup_alter_ne by done.
    by apply (proj1 (Forall_lookup _ _) Hnone).
Qed.

Lemma wd_step_drained (p : pool) (ev : event) :
  wd_drained p -> wd_drained (step p ev).
Proof.
  intros Hp. destruct ev as [d|k r|k e|k c|i]; simpl.
  - unfold execute, wd_drained.
    destruct (available (workers p)) as [i|] eqn:Ha; simpl.
    + intros _. apply Hp. by rewrite Ha.
    + by rewrite Ha.
  - destruct (status_of k p) as [[]|]; try done.
    all: unfold on_message; destruct (threads p !! k); [|done].
    all: by apply wd_finishTask_drained.
  - destruct (status_of k p) as [[]|]; try done.
    all: unfold on_error; destruct (threads (mark Terminated k p) !! k);
      [|done].
    all: by apply wd_finishTask_drained.
  - destruct (status_of k p) as [[]|]; try done;
      unfold on_exit; destruct (threads (mark Exited k p) !! k); try done;
      by case_decide.
  - unfold wd_drained.
    destruct (wd_terminate_slot_fields i p) as (_ & -> & -> & _). done.
Qed.

Lemma wd_finishTask_order (i : nat) (p : pool) :
  started (log (finishTask i p)) ++ queue (finishTask i p) =
  started (log p) ++ queue p.
Proof.
  unfold finishTask. destruct (queue p) as [|t q]; simpl; [done|].
  by rewrite wd_started_snoc, <- app_assoc.
Qed.

Lemma wd_step_order (p : pool) (ev : event) :
  wd_drained p ->
  started (log (step p ev)) ++ queue (step p ev) =
  (started (log p) ++ queue p) ++
  match ev with Execute d => [Task (nextTask p) d] | _ => [] end.
Proof.
  intros Hd. destruct ev as [d|k r|k e|k c|i]; simpl; rewrite ?app_nil_r.
  - unfold execute. destruct (available (workers p)) as [i|] eqn:Ha; simpl.
    + rewrite Hd by (by rewrite Ha).
      by rewrite wd_started_snoc, !app_nil_r.
    + by rewrite app_assoc.
  - destruct (status_of k p) as [[]|]; try done.
    all: unfold on_message; destruct (threads p !! k); [|done].
    all: rewrite wd_finishTask_order; simpl.
    all: by rewrite wd_started_snoc, app_nil_r.
  - destruct (status_of k p) as [[]|]; try done.
    all: unfold on_error; destruct (threads (mark Terminated k p) !! k);
      [|done].
    all: rewrite wd_finishTask_order; simpl.
    all: by rewrite wd_started_snoc, app_nil_r.
  - destruct (status_of k p) as [[]|]; try done;
      unfold on_exit; destruct (threads (mark Exited k p) !! k); try done;
      case_decide; try done; simpl; by rewrite wd_started_snoc, app_nil_r.
  - destruct (wd_terminate_slot_fields i p) as (_ & _ & -> & _ & ->). done.
Qed.

Lemma wd_submitted_snoc (n : nat) (evs : list event) (ev : event) :
  submitted n (evs ++ [ev]) =
  submitted n evs ++
  match ev with
  | Execute d => [Task (n + length (submitted n evs)) d]
  | _ => []
  end.
Proof.
  revert n. induction evs as [|ev' evs IH]; intros n; simpl.
  - destruct ev; simpl; by rewrite ?Nat.add_0_r.
  - destruct ev'; rewrite IH; simpl; try done.
    by rewrite Nat.add_succ_r.
Qed.

Lemma wd_order (n : nat) (evs : list event) :
  let p := run evs (constructor n) in
  wd_drained p /\ nextTask p = length (submitted 0 evs) /\
  started (log p) ++ queue p = submitted 0 evs.
Proof.
  induction evs as [|ev evs IH] using rev_ind; simpl.
  - by rewrite wd_constructor_shape.
  - rewrite wd_run_app. simpl. simpl in IH. destruct IH as (Hd & Hn & Ho).
    split; [by apply wd_step_drained|].
    destruct (wd_step_slots (run evs (constructor n)) ev) as (_ & _ & ->).
    rewrite wd_step_order, wd_submitted_snoc, Ho, Hn by done.
    split; [|done]. rewrite length_app. by destruct ev.
Qed.

(** *** Submitting *)

Lemma wd_execute_full (d : nat) (p : pool) :
  available (workers p) = None ->
  queue (execute d p) = queue p ++ [Task (nextTask p) d] /\
  log (execute d p) = log p /\ workers (execute d p) = workers p.
Proof. intros Ha. unfold execute. by rewrite Ha. Qed.

(** [execute] does not look at the threads: after any turns of [terminate]
    it does what it does without them. *)
Lemma wd_execute_terminate (d : nat) (l : list nat) (p : pool) :
  workers (execute d (foldl terminate_slot p l)) = workers (execute d p) /\
  queue (execute d (foldl terminate_slot p l)) = queue (execute d p) /\
  log (execute d (foldl terminate_slot p l)) = log (execute d p).
Proof.
  destruct (wd_terminate_slots l p) as (H1 & H2 & H3 & H4 & H5 & H6).
  pose proof (wd_terminate_slots_length l p) as H7.
  unfold execute. rewrite H2, H3, H4, H5.
  destruct (available (workers p)); simpl; [|done].
  by rewrite H7.
Qed.

Lemma wd_flood (d k : nat) (p : pool) :
  available (workers p) = None ->
  let p' := run (replicate k (Execute d)) p in
  available (workers p') = None /\
  length (queue p') = length (queue p) + k.
Proof.
  revert p. induction k as [|k IH]; intros p Hf; simpl.
  - split; [done|lia].
  - destruct (wd_execute_full d p Hf) as (Hq & _ & Hw).
    destruct (IH (execute d p)) as [H1 H2]; [by rewrite Hw|].
    split; [done|]. simpl in H2. rewrite H2, Hq, length_app. simpl. lia.
Qed.

(** *** Promises *)

Lemma wd_log_finishTask (i : nat) (p : pool) :
  log p `prefix_of` log (finishTask i p).
Proof.
  unfold finishTask. destruct (queue p); simpl; [done|]. by apply prefix_app_r.
Qed.

Lemma wd_log_step (p : pool) (ev : event) : log p `prefix_of` log (step p ev).
Proof.
  destruct ev as [d|k r|k e|k c|i]; simpl.
  - unfold execute. destruct (available (workers p)); simpl; [|done].
    by apply prefix_app_r.
  - destruct (status_of k p) as [[]|]; try done.
    all: unfold on_message; destruct (threads p !! k); [|done].
    all: etrans; [|apply wd_log_finishTask]; by apply prefix_app_r.
  - destruct (status_of k p) as [[]|]; try done.
    all: unfold on_error; destruct (threads (mark Terminated k p) !! k);
      [|done].
    all: etrans; [|apply wd_log_finishTask]; by apply prefix_app_r.
  - destruct (status_of k p) as [[]|]; try done;
      unfold on_exit; destruct (threads (mark Exited k p) !! k); try done;
      case_decide; try done; by apply prefix_app_r.
  - by destruct (wd_terminate_slot_fields i p) as (_ & _ & _ & _ & ->).
Qed.

Lemma wd_log_run (evs : list event) (p : pool) :
  log p `prefix_of` log (run evs p).
Proof.
  revert p. induction evs as [|ev evs IH]; intros p; [done|].
  simpl. etrans; [apply wd_log_step|apply IH].
Qed.

(** The first call wins: a promise that is settled stays as it is. *)
Lemma wd_outcome_stable (t : nat) (o : effect) (evs : list event) (p : pool) :
  outcome t (log p) = Some o -> outcome t (log (run evs p)) = Some o.
Proof.
  destruct (wd_log_run evs p) as [k ->]. unfold outcome.
  rewrite filter_app. by destruct (filter _ (log p)).
Qed.

(** *** No task is lost *)

Lemma wd_outcome_snoc_None (t : nat) (l : list effect) (e : effect) :
  outcome t (l ++ [e]) = None -> outcome t l = None.
Proof.
  unfold outcome. rewrite filter_app. by destruct (filter _ l).
Qed.

Lemma wd_outcome_snoc_settles (t : nat) (l : list effect) (e : effect) :
  settles t e = true -> outcome t (l ++ [e]) <> None.
Proof.
  intros He. unfold outcome. rewrite filter_app, filter_cons, decide_True by done.
  by destruct (filter _ l).
Qed.

Lemma wd_outcome_snoc_spawn (t k : nat) (t' : task) (l : list effect) :
  outcome t (l ++ [Spawned k t']) = outcome t l.
Proof.
  unfold outcome. rewrite filter_app, filter_cons, decide_False by done.
  by rewrite filter_nil, app_nil_r.
Qed.

Lemma wd_core_alter (f : thread -> thread) (k k' : nat) (ths : list thread) :
  (forall th, th_core (f th) = th_core th) ->
  th_core <$> alter f k ths !! k' = th_core <$> ths !! k'.
Proof.
  intros Hf. destruct (decide (k = k')) as [->|Hne].
  - rewrite list_lookup_alter_eq. destruct (ths !! k'); simpl; [|done].
    by rewrite Hf.
  - by rewrite list_lookup_alter_ne.
Qed.

(** A change of the status of threads is of no matter. *)
Lemma wd_kept_ext (p q : pool) :
  workers q = workers p -> log q = log p ->
  (forall k, th_core <$> threads q !! k = th_core <$> threads p !! k) ->
  wd_kept p -> wd_kept q.
Proof.
  intros Hw Hl Hth [Ha Hb]. split.
  - intros t. rewrite Hl. intros (k & i & Hk)%Ha. exists k, i. by rewrite Hth.
  - intros k i t. rewrite Hth, Hl, Hw. apply Hb.
Qed.

Lemma wd_kept_mark (s : status) (k : nat) (p : pool) :
  wd_kept p -> wd_kept (mark s k p).
Proof.
  apply wd_kept_ext; [done|done|]. intros k'. by apply wd_core_alter.
Qed.

Lemma wd_kept_emit (e : effect) (p : pool) :
  started [e] = [] -> wd_kept p -> wd_kept (emit e p).
Proof.
  intros He [Ha Hb]. split.
  - intros t. unfold emit; cbn [log threads]. unfold started in *.
    rewrite omap_app, He, app_nil_r. apply Ha.
  - intros k i t Hk Ho. apply (Hb k i t Hk).
    apply (wd_outcome_snoc_None _ _ e). exact Ho.
Qed.

Lemma wd_kept_runTask (i : nat) (t : task) (s : slot) (p : pool) :
  workers p !! i = Some s -> (forall k, s <> Slot (Some k) true) ->
  wd_kept p -> wd_kept (runTask i t p).
Proof.
  intros Hi Hs [Ha Hb]. unfold runTask. split; cbn [log threads workers].
  - intros t'. rewrite wd_started_snoc, elem_of_app, list_elem_of_singleton.
    intros [Ht'| ->].
    + destruct (Ha t' Ht') as (k & j & Hk). exists k, j.
      rewrite lookup_app_l; [done|].
      apply lookup_lt_is_Some. destruct (threads p !! k); by eauto.
    + exists (length (threads p)), i.
      by rewrite lookup_app_r, Nat.sub_diag by lia.
  - intros k j t'. rewrite wd_outcome_snoc_spawn.
    destruct (decide (k < length (threads p))) as [Hlt|Hge].
    + rewrite lookup_app_l by done. intros Hk Ho.
      pose proof (Hb k j t' Hk Ho) as Hj.
      rewrite list_lookup_alter_ne; [done|]. intros ->.
      rewrite Hi in Hj. injection Hj as ->. by apply (Hs k).
    + rewrite lookup_app_r by lia.
      destruct (k - length (threads p)) as [|m] eqn:Hm; simpl; [|done].
      intros [= <- <-] _. rewrite list_lookup_alter_eq, Hi. simpl.
      do 3 f_equal. lia.
Qed.

Lemma wd_kept_finishTask (i : nat) (p : pool) :
  is_Some (workers p !! i) ->
  (forall k t, th_core <$> threads p !! k = Some (i, t) ->
     workers p !! i = Some (Slot (Some k) true) ->
     outcome (tid t) (log p) <> None) ->
  wd_kept p -> wd_kept (finishTask i p).
Proof.
  intros [s Hi] Hset [Ha Hb].
  assert (forall q,
            wd_kept (Pool (poolSize p)
                       (alter (fun _ => Slot None false) i (workers p))
                       q (threads p) (nextTask p) (log p))) as Hreset.
  { intros q. split; cbn [log threads workers]; [done|].
    intros k j t Hk Ho. pose proof (Hb k j t Hk Ho) as Hj.
    rewrite list_lookup_alter_ne; [done|]. intros ->.
    by destruct (Hset k t Hk Hj). }
  unfold finishTask. destruct (queue p) as [|t q]; [done|].
  apply (wd_kept_runTask i t (Slot None false));
    [|by intros k|apply Hreset].
  cbn [workers]. by rewrite list_lookup_alter_eq, Hi.
Qed.

(** The report of a thread whose promise is pending frees its slot. *)
Lemma wd_kept_report (k : nat) (th : thread) (e : effect) (p : pool) :
  threads p !! k = Some th ->
  outcome (tid (th_task th)) (log p) = None ->
  settles (tid (th_task th)) e = true -> started [e] = [] ->
  wd_kept p -> wd_kept (finishTask (th_slot th) (emit e p)).
Proof.
  intros Hk Ho He Hst Hp.
  assert (workers p !! th_slot th = Some (Slot (Some k) true)) as Hslot.
  { destruct Hp as [_ Hb]. apply (Hb k _ (th_task th)); [|done].
    by rewrite Hk. }
  apply wd_kept_finishTask;
    [exists (Slot (Some k) true); exact Hslot| |by apply wd_kept_emit].
  unfold emit; cbn [threads workers log]. intros k' t Hk' Hslot'.
  rewrite Hslot in Hslot'. injection Hslot' as <-.
  rewrite Hk in Hk'. injection Hk' as <-.
  by apply wd_outcome_snoc_settles.
Qed.

Lemma wd_kept_step (p : pool) (ev : event) :
  wd_kept p -> reports_once p ev -> wd_kept (step p ev).
Proof.
  intros Hp Hev. destruct ev as [d|k r|k e|k c|i]; simpl.
  - unfold execute. destruct (available (workers p)) as [i|] eqn:Hav; [|done].
    unfold available in Hav.
    apply fmap_Some in Hav as ([i' s] & (Hi & Hs & _)%list_find_Some & ->).
    eapply wd_kept_runTask; [exact Hi| |done].
    intros k ->. done.
  - assert (wd_kept (on_message k r p)) as Hm.
    { unfold on_message. destruct (threads p !! k) as [th|] eqn:Hk; [|done].
      apply (wd_kept_report k); try done.
      - by apply Hev.
      - simpl. by apply bool_decide_eq_true. }
    by destruct (status_of k p) as [[]|].
  - assert (wd_kept (on_error k e (mark Terminated k p))) as Hm.
    { unfold on_error.
      destruct (threads (mark Terminated k p) !! k) as [th'|] eqn:Hk';
        [|by apply wd_kept_mark].
      apply (wd_kept_report k); try done.
      - cbn [mark threads log] in *. rewrite list_lookup_alter_eq in Hk'.
        apply fmap_Some in Hk' as (th & Hk & ->). simpl. by apply Hev.
      - simpl. by apply bool_decide_eq_true.
      - by apply wd_kept_mark. }
    by destruct (status_of k p) as [[]|].
  - assert (wd_kept (on_exit k c (mark Exited k p))) as Hex.
    { unfold on_exit. destruct (threads (mark Exited k p) !! k); [|by apply wd_kept_mark].
      case_decide; [by apply wd_kept_mark|].
      by apply wd_kept_emit, wd_kept_mark. }
    by destruct (status_of k p) as [[]|].
  - destruct (wd_terminate_slots [i] p) as (_ & Hw & _ & _ & Hl & Hth).
    cbn zeta in *. cbn [foldl] in *.
    eapply wd_kept_ext; [exact Hw|exact Hl| |exact Hp].
    intros k. rewrite Hth. case_decide; [|done].
    destruct (threads p !! k) as [th|]; [|done]. simpl. f_equal.
    unfold kill. by destruct (th_status th).
Qed.

Lemma wd_kept_run (evs : list event) (p : pool) :
  wd_kept p -> polite p evs -> wd_kept (run evs p).
Proof.
  revert p. induction evs as [|ev evs IH]; intros p Hp Hevs; [done|].
  destruct Hevs as [Hev Hevs]. simpl. apply IH; [|done].
  by apply wd_kept_step.
Qed.

Lemma wd_kept_constructor (n : nat) : wd_kept (constructor n).
Proof.
  rewrite wd_constructor_shape. split; cbn [log threads workers].
  - intros t Ht. by apply elem_of_nil in Ht.
  - intros k i t Hk. by rewrite lookup_nil in Hk.
Qed.

(** A thread that dies raises ['error'] and then exits with a code other
    than 0: [reject] is called twice, and the promise keeps the first
    error. *)
Example wd_reject_called_twice :
  let p := run [Execute 10; Error 0 7; Exit 0 1] (constructor 1) in
  log p = [Spawned 0 (Task 0 10); Rejected 0 7; Rejected 0 1] /\
  outcome 0 (log p) = Some (Rejected 0 7).
Proof. split; reflexivity. Qed.

(** *** What a thread delivers *)

Lemma wd_delivers_lookup (k : nat) (p : pool) :
  delivers k p = true ->
  exists th, threads p !! k = Some th /\ has_exited th = false.
Proof.
  unfold delivers, status_of, has_exited.
  destruct (threads p !! k) as [[i t []]|]; simpl; try done; eauto.
Qed.

Lemma wd_lookup_delivers (k : nat) (th : thread) (p : pool) :
  threads p !! k = Some th -> has_exited th = false -> delivers k p = true.
Proof.
  unfold delivers, status_of, has_exited. intros ->. simpl.
  by destruct (th_status th).
Qed.

Lemma wd_step_message (k r : nat) (p : pool) :
  delivers k p = true -> step p (Message k r) = on_message k r p.
Proof. unfold delivers; simpl. by destruct (status_of k p) as [[]|]. Qed.

Lemma wd_step_error (k e : nat) (p : pool) :
  delivers k p = true ->
  step p (Error k e) = on_error k e (mark Terminated k p).
Proof. unfold delivers; simpl. by destruct (status_of k p) as [[]|]. Qed.

Lemma wd_step_exit (k code : nat) (p : pool) :
  delivers k p = true ->
  step p (Exit k code) = on_exit k code (mark Exited k p).
Proof. unfold delivers; simpl. by destruct (status_of k p) as [[]|]. Qed.

Lemma wd_finishTask_next (i : nat) (t' : task) (rest : list task) (p : pool) :
  queue p = t' :: rest ->
  log (finishTask i p) = log p ++ [Spawned (length (threads p)) t'] /\
  queue (finishTask i p) = rest /\
  threads (finishTask i p) = threads p ++ [Thread i t' Running].
Proof. intros Hq. unfold finishTask. by rewrite Hq. Qed.

(** With a task waiting, the message of a thread starts the head of the
    queue. *)
Lemma wd_message_starts_next (k r : nat) (t' : task) (rest : list task)
    (p : pool) :
  delivers k p = true -> queue p = t' :: rest ->
  started (log (step p (Message k r))) = started (log p) ++ [t'] /\
  queue (step p (Message k r)) = rest /\
  threads (step p (Message k r)) =
    threads p ++ [Thread (default 0 (th_slot <$> threads p !! k)) t' Running].
Proof.
  intros Hk Hq. rewrite wd_step_message by done.
  destruct (wd_delivers_lookup k p Hk) as (th & Hth & _).
  unfold on_message. rewrite Hth.
  destruct (wd_finishTask_next (th_slot th) t' rest
              (emit (Resolved (tid (th_task th)) r) p) Hq) as (Hl & Hq' & Ht).
  rewrite Hl, Hq', Ht. unfold emit; cbn [log threads].
  rewrite !wd_started_snoc. by rewrite app_nil_r.
Qed.

(** And so does its error. *)
Lemma wd_error_starts_next (k e : nat) (t' : task) (rest : list task)
    (p : pool) :
  delivers k p = true -> queue p = t' :: rest ->
  started (log (step p (Error k e))) = started (log p) ++ [t'] /\
  queue (step p (Error k e)) = rest.
Proof.
  intros Hk Hq. rewrite wd_step_error by done.
  destruct (wd_delivers_lookup k p Hk) as (th & Hth & _).
  unfold on_error, mark; cbn [threads].
  rewrite list_lookup_alter_eq, Hth. cbn [fmap option_fmap option_map].
  match goal with
  | |- context [finishTask ?i ?x] =>
      destruct (wd_finishTask_next i t' rest x Hq) as (Hl & Hq' & _)
  end.
  rewrite Hl, Hq'. unfold emit; cbn [log threads].
  rewrite !wd_started_snoc. by rewrite app_nil_r.
Qed.

(** The thread that posted the message has not exited when the next one
    is started. *)
Lemma wd_live_message (k r : nat) (p : pool) :
  delivers k p = true -> queue p <> [] ->
  length (live (step p (Message k r))) = S (length (live p)).
Proof.
  intros Hk Hq. destruct (queue p) as [|t' rest] eqn:Hq'; [done|].
  destruct (wd_message_starts_next k r t' rest p Hk Hq') as (_ & _ & Ht).
  unfold live. rewrite Ht, filter_app, length_app. simpl. lia.
Qed.

Lemma wd_outcome_first (t : nat) (l : list effect) (e : effect) :
  outcome t l = None -> settles t e = true -> outcome t (l ++ [e]) = Some e.
Proof.
  unfold outcome. intros Hl He. rewrite filter_app.
  destruct (filter _ l) as [|x l']; [|done].
  by rewrite app_nil_l, filter_cons, decide_True.
Qed.

(** The ['exit'] listener rejects a task that is still pending when its
    thread exits with a code other than 0. *)
Lemma wd_exit_rejects (k code : nat) (th : thread) (p : pool) :
  threads p !! k = Some th -> has_exited th = false -> code <> 0 ->
  outcome (tid (th_task th)) (log p) = None ->
  outcome (tid (th_task th)) (log (step p (Exit k code))) =
    Some (Rejected (tid (th_task th)) code).
Proof.
  intros Hth Hex Hc Ho.
  rewrite wd_step_exit by (by eapply wd_lookup_delivers).
  unfold on_exit, mark; cbn [threads].
  rewrite list_lookup_alter_eq, Hth. cbn [fmap option_fmap option_map].
  rewrite decide_False by done. unfold emit; cbn [log th_task set_status].
  apply wd_outcome_first; [done|]. simpl. by rewrite bool_decide_eq_true_2.
Qed.

(** With every slot busy and every thread gone, nothing is started and
    nothing is settled any more. *)
Lemma wd_over_step (p : pool) (ev : event) :
  all_exited p -> available (workers p) = None ->
  log (step p ev) = log p /\ all_exited (step p ev) /\
  available (workers (step p ev)) = None.
Proof.
  intros Hex Ha.
  assert (forall k, delivers k p = false) as Hk.
  { intros k. destruct (delivers k p) eqn:Hd; [|done].
    destruct (wd_delivers_lookup k p Hd) as (th & Hth & Hne).
    unfold all_exited in Hex. rewrite Forall_lookup in Hex.
    by rewrite (Hex k th Hth) in Hne. }
  destruct ev as [d|k r|k e|k c|i]; simpl.
  - unfold execute. by rewrite Ha.
  - specialize (Hk k). unfold delivers in Hk.
    by destruct (status_of k p) as [[]|].
  - specialize (Hk k). unfold delivers in Hk.
    by destruct (status_of k p) as [[]|].
  - specialize (Hk k). unfold delivers in Hk.
    by destruct (status_of k p) as [[]|].
  - destruct (wd_terminate_slot_fields i p) as (_ & Hw & _ & _ & Hl).
    rewrite Hw, Hl. split; [done|]. split; [|done].
    unfold terminate_slot. destruct (workers p !! i) as [[[k|] b]|]; try done.
    unfold all_exited; cbn [threads]. apply Forall_alter; [done|].
    intros [j t []]; by simpl.
Qed.

Lemma wd_over_run (evs : list event) (p : pool) :
  all_exited p -> available (workers p) = None ->
  log (run evs p) = log p.
Proof.
  revert p. induction evs as [|ev evs IH]; intros p Hex Ha; [done|].
  destruct (wd_over_step p ev Hex Ha) as (Hl & Hex' & Ha').
  simpl. by rewrite IH.
Qed.

End WorkerDemoFacts.

(** ** Facts about the child-process pool *)

Section ChildProcessPoolFacts.
Import ChildProcessPool.

Lemma cp_iter_createWorker (m n : nat) :
  Nat.iter n createWorker (Pool m [] [] [] []) =
  Pool m (replicate n (Worker Alive false None)) (seq 0 n) []
       (Forked <$> seq 0 n).
Proof.
  induction n as [|n IH]; [done|].
  rewrite Nat.iter_succ, IH. unfold createWorker.
  cbn [size heap workers queue log]. rewrite length_replicate.
  by rewrite seq_S, fmap_app, replicate_S_end.
Qed.

Lemma cp_constructor_shape (n : nat) :
  constructor n =
  Pool n (replicate n (Worker Alive false None)) (seq 0 n) []
       (Forked <$> seq 0 n).
Proof. apply cp_iter_createWorker. Qed.

Lemma cp_run_app (evs1 evs2 : list event) (p : pool) :
  run (evs1 ++ evs2) p = run evs2 (run evs1 p).
Proof. apply foldl_app. Qed.

(** *** Which processes have exited *)

Lemma cp_status_of (w : nat) (p : pool) : status_of w p = statuses p !! w.
Proof. unfold status_of, statuses. by rewrite list_lookup_fmap. Qed.

Lemma cp_live_spec (w : nat) (p : pool) :
  w ∈ live p <-> status_of w p = Some Alive \/ status_of w p = Some Killed.
Proof.
  unfold live. rewrite list_elem_of_filter, elem_of_seq. unfold exited.
  split.
  - intros [He [_ Hlt]]. simpl in Hlt.
    apply lookup_lt_is_Some in Hlt as [wk Hwk].
    unfold status_of in *. rewrite Hwk in *. simpl in *.
    destruct (process wk); auto; done.
  - intros Hs. split.
    + by destruct Hs as [-> | ->].
    + split; [lia|]. simpl. unfold status_of in Hs.
      destruct (heap p !! w) eqn:Hw; [|by destruct Hs].
      by apply lookup_lt_Some in Hw.
Qed.

Lemma cp_live_statuses (p q : pool) :
  statuses q = statuses p -> forall w, w ∈ live q <-> w ∈ live p.
Proof. intros Hs w. by rewrite !cp_live_spec, !cp_status_of, Hs. Qed.

Lemma cp_statuses_alter (f : worker -> worker) (w : nat) (h : list worker) :
  (forall wk, process (f wk) = process wk) ->
  process <$> alter f w h = process <$> h.
Proof.
  intros Hf. apply list_eq. intros i. rewrite !list_lookup_fmap.
  destruct (decide (i = w)) as [->|Hne].
  - rewrite list_lookup_alter_eq. destruct (h !! w); simpl; by rewrite ?Hf.
  - by rewrite list_lookup_alter_ne.
Qed.

Lemma cp_statuses_assign (w t cb : nat) (p : pool) :
  statuses (assign w t cb p) = statuses p.
Proof. unfold statuses, assign; simpl. by apply cp_statuses_alter. Qed.

Lemma cp_statuses_runTask (t cb : nat) (p : pool) :
  statuses (runTask t cb p) = statuses p.
Proof.
  unfold runTask. destruct (find_idle p); [|done]. apply cp_statuses_assign.
Qed.

Lemma cp_statuses_processQueue (p : pool) :
  statuses (processQueue p) = statuses p.
Proof.
  unfold processQueue. destruct (queue p) as [|j q]; [done|].
  destruct (find_idle p); [|done]. by rewrite cp_statuses_assign.
Qed.

Lemma cp_statuses_on_message (w : nat) (m : msg) (p : pool) :
  statuses (on_message w m p) = statuses p.
Proof.
  unfold on_message. destruct (heap p !! w) as [wk|]; [|done].
  destruct (wcallback wk).
  - rewrite cp_statuses_processQueue. unfold statuses; simpl.
    by apply cp_statuses_alter.
  - unfold statuses; simpl. by apply cp_statuses_alter.
Qed.

Lemma cp_kills_lookup (l : list nat) (h : list worker) (w : nat) :
  process <$> foldl (fun h w => alter kill w h) h l !! w =
  (if decide (w ∈ l) then process ∘ kill else process) <$> h !! w.
Proof.
  revert h. induction l as [|x l IH]; intros h; simpl.
  - done.
  - rewrite IH. destruct (decide (x = w)) as [->|Hne].
    + rewrite list_lookup_alter_eq.
      rewrite (decide_True (P := w ∈ w :: l)) by left.
      destruct (h !! w) as [wk|]; [|done]. simpl.
      case_decide; simpl; [|done]. by destruct wk as [[] b c].
    + rewrite list_lookup_alter_ne by done.
      assert (w ∈ x :: l <-> w ∈ l) as Hw.
      { rewrite elem_of_cons. split; [intros [?|?]|]; auto. congruence. }
      repeat case_decide; tauto.
Qed.

Lemma cp_kills_length (l : list nat) (h : list worker) :
  length (foldl (fun h w => alter kill w h) h l) = length h.
Proof.
  revert h. induction l as [|x l IH]; intros h; simpl; [done|].
  by rewrite IH, length_alter.
Qed.

(** [destroy] marks the workers of the pool, and no process exits by it. *)
Lemma cp_destroy_status (w : nat) (p : pool) :
  status_of w (destroy p) =
  if decide (w ∈ workers p)
  then process ∘ kill <$> heap p !! w
  else status_of w p.
Proof.
  unfold status_of, destroy; simpl. rewrite cp_kills_lookup.
  by case_decide.
Qed.

Lemma cp_live_destroy (p : pool) (w : nat) : w ∈ live (destroy p) <-> w ∈ live p.
Proof.
  rewrite !cp_live_spec, cp_destroy_status. case_decide; [|done].
  unfold status_of. destruct (heap p !! w) as [[[] b c]|]; simpl;
    split; intros [?|?]; auto; done.
Qed.

(** *** The workers of the pool are the live processes *)

Lemma cp_tracks_statuses (k : nat) (p q : pool) :
  statuses q = statuses p -> workers q = workers p ->
  cp_tracks k p -> cp_tracks k q.
Proof.
  intros Hs Hw (H1 & H2 & H3). unfold cp_tracks. rewrite Hw.
  repeat split; try done; rewrite cp_live_statuses by done; apply H3.
Qed.

Lemma cp_indexOf_Some (w : nat) (l : list nat) :
  w ∈ l -> exists i, indexOf w l = Some i /\ l !! i = Some w.
Proof.
  intros Hw. unfold indexOf.
  destruct (list_find_elem_of (fun x => x = w) l w Hw eq_refl) as [[i x] Hf].
  rewrite Hf. exists i. split; [done|].
  apply list_find_Some in Hf as (Hl & -> & _). done.
Qed.

Lemma cp_delete_elem (l : list nat) (i x y : nat) :
  NoDup l -> l !! i = Some x -> y ∈ delete i l <-> y <> x /\ y ∈ l.
Proof.
  intros Hnd Hi. pose proof (delete_Permutation l i x Hi) as Hp.
  rewrite Hp in Hnd. apply NoDup_cons in Hnd as [Hx _].
  rewrite (elem_of_Permutation_proper _ _ _ Hp), elem_of_cons.
  split.
  - intros Hy. split; [|by right]. by intros ->.
  - by intros [Hne [->|Hy]].
Qed.

Lemma cp_status_mark_exited (w w' : nat) (p : pool) :
  status_of w' (mark_exited w p) =
  if decide (w' = w) then (fun _ => Exited) <$> status_of w' p
  else status_of w' p.
Proof.
  unfold status_of, mark_exited; simpl. case_decide.
  - subst. rewrite list_lookup_alter_eq. by destruct (heap p !! w).
  - by rewrite list_lookup_alter_ne.
Qed.

(** The first half of the ['exit'] listener leaves one worker less. *)
Lemma cp_tracks_remove (k w : nat) (p : pool) :
  cp_tracks k p -> w ∈ live p ->
  0 < k /\ cp_tracks (k - 1) (remove_dead w (mark_exited w p)).
Proof.
  intros (H1 & H2 & H3) Hw.
  assert (w ∈ workers p) as Hin by (by apply H3).
  destruct (cp_indexOf_Some w (workers p) Hin) as (i & Hi & Hl).
  assert (0 < k) as Hk.
  { rewrite <- H1. apply lookup_lt_Some in Hl. lia. }
  assert (workers (remove_dead w (mark_exited w p)) = delete i (workers p))
    as Hws.
  { unfold remove_dead; simpl. by rewrite Hi. }
  assert (forall w', w' ∈ live (remove_dead w (mark_exited w p)) <->
                     w' <> w /\ w' ∈ live p) as Hlive.
  { intros w'.
    rewrite (cp_live_statuses (mark_exited w p)) by done.
    rewrite !cp_live_spec, cp_status_mark_exited. case_decide as Hd.
    - subst. destruct (status_of w p); simpl; split; intros H; try tauto;
        destruct H as [?|?]; done.
    - tauto. }
  split; [done|]. unfold cp_tracks. rewrite Hws. split; [|split].
  - rewrite length_delete by eauto. lia.
  - eapply sublist_NoDup; [apply H2|apply sublist_delete].
  - intros w'. rewrite Hlive, cp_delete_elem by done. by rewrite H3.
Qed.

Lemma cp_status_createWorker (w : nat) (p : pool) :
  status_of w (createWorker p) =
  if decide (w = length (heap p)) then Some Alive else status_of w p.
Proof.
  unfold status_of, createWorker; simpl. case_decide as Hd.
  - subst. by rewrite list_lookup_middle.
  - destruct (decide (w < length (heap p))) as [Hlt|Hge].
    + by rewrite lookup_app_l.
    + rewrite !(proj2 (lookup_ge_None _ _)); [done|lia|].
      rewrite length_app. simpl. lia.
Qed.

Lemma cp_live_lt (w : nat) (p : pool) : w ∈ live p -> w < length (heap p).
Proof.
  unfold live. rewrite list_elem_of_filter, elem_of_seq. lia.
Qed.

Lemma cp_tracks_create (k : nat) (p : pool) :
  cp_tracks k p -> cp_tracks (S k) (createWorker p).
Proof.
  intros (H1 & H2 & H3).
  assert (length (heap p) ∉ workers p) as Hfresh.
  { intros Hin. apply H3, cp_live_lt in Hin. lia. }
  unfold cp_tracks. cbn [createWorker workers]. repeat split.
  - rewrite length_app. simpl. lia.
  - apply NoDup_app. split; [done|]. split; [|apply NoDup_singleton].
    intros x Hx ->%list_elem_of_singleton. done.
  - rewrite cp_live_spec, cp_status_createWorker, elem_of_app,
      list_elem_of_singleton.
    case_decide; [by right|]. rewrite <- cp_live_spec. intros Hl.
    left. by apply H3.
  - rewrite cp_live_spec, cp_status_createWorker, elem_of_app,
      list_elem_of_singleton.
    case_decide; [by left|]. rewrite <- cp_live_spec.
    intros [Hin|?]; [|done]. by apply H3.
Qed.

Lemma cp_tracks_empty (n : nat) : cp_tracks 0 (Pool n [] [] [] []).
Proof.
  repeat split; simpl; try apply NoDup_nil_2.
  - unfold live; simpl. intros Hw. by apply elem_of_nil in Hw.
  - intros Hw. by apply elem_of_nil in Hw.
Qed.

Lemma cp_tracks_iter (n k : nat) :
  cp_tracks k (Nat.iter k createWorker (Pool n [] [] [] [])).
Proof.
  induction k as [|k IH]; [apply cp_tracks_empty|].
  rewrite Nat.iter_succ. by apply cp_tracks_create.
Qed.

Lemma cp_inv_constructor (n : nat) : cp_inv (constructor n).
Proof.
  unfold cp_inv. rewrite cp_constructor_shape at 1. simpl.
  apply cp_tracks_iter.
Qed.

Lemma cp_runTask_fields (t cb : nat) (p : pool) :
  size (runTask t cb p) = size p /\ workers (runTask t cb p) = workers p /\
  length (heap (runTask t cb p)) = length (heap p).
Proof.
  unfold runTask. destruct (find_idle p); simpl; by rewrite ?length_alter.
Qed.

Lemma cp_processQueue_fields (p : pool) :
  size (processQueue p) = size p /\ workers (processQueue p) = workers p /\
  length (heap (processQueue p)) = length (heap p).
Proof.
  unfold processQueue. destruct (queue p); [done|].
  destruct (find_idle p); simpl; by rewrite ?length_alter.
Qed.

Lemma cp_submit_all_fields (subs : list job) (p : pool) :
  size (submit_all subs p) = size p /\
  workers (submit_all subs p) = workers p /\
  length (heap (submit_all subs p)) = length (heap p) /\
  statuses (submit_all subs p) = statuses p.
Proof.
  revert p. induction subs as [|j subs IH]; intros p; [done|].
  simpl. destruct (IH (runTask (task j) (callback j) p)) as (-> & -> & -> & ->).
  destruct (cp_runTask_fields (task j) (callback j) p) as (-> & -> & ->).
  by rewrite cp_statuses_runTask.
Qed.

(** The listener with a callback that submits leaves the workers and
    their processes as the plain listener does. *)
Lemma cp_on_message_then_fields (w : nat) (m : msg) (subs : list job)
    (p : pool) :
  size (on_message_then w m subs p) = size p /\
  workers (on_message_then w m subs p) = workers p /\
  length (heap (on_message_then w m subs p)) = length (heap p) /\
  statuses (on_message_then w m subs p) = statuses p.
Proof.
  unfold on_message_then. destruct (heap p !! w) as [wk|]; [|done].
  assert (statuses
            (Pool (size p)
               (alter (fun wk => Worker (process wk) false (wcallback wk)) w
                  (heap p)) (workers p) (queue p) (log p)) = statuses p)
    as Hst by (unfold statuses; simpl; by apply cp_statuses_alter).
  destruct (wcallback wk) as [cb|].
  - match goal with
    | |- context [processQueue ?q] =>
        destruct (cp_processQueue_fields q) as (-> & -> & ->);
        rewrite (cp_statuses_processQueue q)
    end.
    match goal with
    | |- context [submit_all subs ?q] =>
        destruct (cp_submit_all_fields subs q) as (-> & -> & -> & ->)
    end.
    simpl. by rewrite length_alter.
  - simpl. by rewrite length_alter.
Qed.

Lemma cp_size_step (p : pool) (ev : event) : size (step p ev) = size p.
Proof.
  destruct ev as [t cb|w m|w| |w m subs]; simpl; try done.
  - unfold runTask. by destruct (find_idle p).
  - destruct (status_of w p) as [[]|]; try done; unfold on_message;
      destruct (heap p !! w) as [wk|]; try done;
      destruct (wcallback wk); try done;
      unfold processQueue; simpl; destruct (queue p); try done;
      by destruct (find_idle _).
  - by destruct (status_of w p) as [[]|].
  - destruct (status_of w p) as [[]|]; try done;
      apply cp_on_message_then_fields.
Qed.

Lemma cp_workers_on_message (w : nat) (m : msg) (p : pool) :
  workers (on_message w m p) = workers p.
Proof.
  unfold on_message. destruct (heap p !! w) as [wk|]; [|done].
  destruct (wcallback wk); [|done].
  unfold processQueue; simpl. destruct (queue p); [done|].
  by destruct (find_idle _).
Qed.

Lemma cp_inv_step (p : pool) (ev : event) : cp_inv p -> cp_inv (step p ev).
Proof.
  unfold cp_inv. rewrite cp_size_step. intros Hp.
  destruct ev as [t cb|w m|w| |w m subs]; simpl.
  - apply (cp_tracks_statuses _ p); [apply cp_statuses_runTask| |done].
    unfold runTask. by destruct (find_idle p).
  - assert (cp_tracks (size p) (on_message w m p)).
    { apply (cp_tracks_statuses _ p); [apply cp_statuses_on_message| |done].
      apply cp_workers_on_message. }
    by destruct (status_of w p) as [[]|].
  - assert (w ∈ live p -> cp_tracks (size p) (on_exit w (mark_exited w p)))
      as Hex.
    { intros Hw. destruct (cp_tracks_remove _ w p Hp Hw) as [Hk Hm].
      apply cp_tracks_create in Hm.
      by replace (S (size p - 1)) with (size p) in Hm by lia. }
    destruct (status_of w p) as [[]|] eqn:Hs; try done;
      apply Hex, cp_live_spec; auto.
  - destruct Hp as (H1 & H2 & H3). repeat split; try done; simpl;
      rewrite cp_live_destroy; apply H3.
  - assert (cp_tracks (size p) (on_message_then w m subs p)).
    { destruct (cp_on_message_then_fields w m subs p) as (_ & Hw & _ & Hst).
      by apply (cp_tracks_statuses _ p). }
    by destruct (status_of w p) as [[]|].
Qed.

Lemma cp_reachable (n : nat) (evs : list event) :
  cp_inv (run evs (constructor n)) /\ size (run evs (constructor n)) = n.
Proof.
  induction evs as [|ev evs IH] using rev_ind.
  - split; [apply cp_inv_constructor|]. by rewrite cp_constructor_shape.
  - rewrite cp_run_app. simpl. destruct IH as [H1 H2].
    split; [by apply cp_inv_step|]. by rewrite cp_size_step.
Qed.

Lemma cp_live_bound (k : nat) (p : pool) :
  cp_tracks k p -> length (live p) <= k.
Proof.
  intros (H1 & H2 & H3). rewrite <- H1. apply submseteq_length.
  apply NoDup_submseteq; [|intros w; apply H3].
  unfold live. apply NoDup_filter, NoDup_seq.
Qed.

Lemma cp_busy_bound (p : pool) : busy_count p <= length (workers p).
Proof. apply length_filter. Qed.

(** *** What an ['exit'] does *)

Lemma cp_step_exit_live (w : nat) (p : pool) :
  w ∈ live p -> step p (Exit w) = on_exit w (mark_exited w p).
Proof.
  intros Hw. apply cp_live_spec in Hw. simpl. by destruct Hw as [-> | ->].
Qed.

Lemma cp_step_exit_dead (w : nat) (p : pool) :
  w ∉ live p -> step p (Exit w) = p.
Proof.
  intros Hw. simpl. destruct (status_of w p) as [[]|] eqn:Hs; try done;
    exfalso; apply Hw, cp_live_spec; auto.
Qed.

Lemma cp_status_on_exit (w x : nat) (p : pool) :
  status_of w (on_exit x (mark_exited x p)) =
  if decide (w = length (heap p)) then Some Alive
  else if decide (w = x) then (fun _ => Exited) <$> status_of w p
  else status_of w p.
Proof.
  unfold on_exit. rewrite cp_status_createWorker.
  replace (length (heap (remove_dead x (mark_exited x p))))
    with (length (heap p)) by (simpl; by rewrite length_alter).
  case_decide; [done|].
  change (status_of w (remove_dead x (mark_exited x p)))
    with (status_of w (mark_exited x p)).
  apply cp_status_mark_exited.
Qed.

Lemma cp_on_exit_shape (w : nat) (p : pool) :
  let p' := on_exit w (mark_exited w p) in
  log p' = log p ++ [Died; Forked (length (heap p))] /\
  workers p' =
    splice1 (indexOf w (workers p)) (workers p) ++ [length (heap p)] /\
  length (heap p') = S (length (heap p)) /\ queue p' = queue p.
Proof.
  simpl. rewrite length_app, length_alter, <- app_assoc. simpl.
  repeat split. lia.
Qed.

Lemma cp_exited_spec (w : nat) (p : pool) :
  exited w p = true <-> status_of w p = Some Exited.
Proof.
  unfold exited. destruct (status_of w p) as [[]|]; split; congruence.
Qed.

Lemma cp_status_lt (w : nat) (p : pool) (s : status) :
  status_of w p = Some s -> w < length (heap p).
Proof.
  unfold status_of. destruct (heap p !! w) eqn:Hw; [|done].
  intros _. by apply lookup_lt_Some in Hw.
Qed.

Lemma cp_exited_step (w : nat) (p : pool) (ev : event) :
  exited w p = true -> exited w (step p ev) = true.
Proof.
  rewrite !cp_exited_spec. intros Hw.
  destruct ev as [t cb|x m|x| |x m subs].
  - simpl. by rewrite cp_status_of, cp_statuses_runTask, <- cp_status_of.
  - assert (status_of w (on_message x m p) = Some Exited).
    { by rewrite cp_status_of, cp_statuses_on_message, <- cp_status_of. }
    simpl. by destruct (status_of x p) as [[]|].
  - destruct (decide (x ∈ live p)) as [Hx|Hx].
    + rewrite cp_step_exit_live, cp_status_on_exit by done.
      pose proof (cp_status_lt _ _ _ Hw).
      rewrite decide_False by lia. case_decide; by rewrite Hw.
    + by rewrite cp_step_exit_dead.
  - simpl. rewrite cp_destroy_status. case_decide; [|done].
    unfold status_of in Hw. by destruct (heap p !! w) as [[[] b c]|].
  - assert (status_of w (on_message_then x m subs p) = Some Exited).
    { destruct (cp_on_message_then_fields x m subs p) as (_ & _ & _ & Hst).
      by rewrite cp_status_of, Hst, <- cp_status_of. }
    simpl. by destruct (status_of x p) as [[]|].
Qed.

Lemma cp_exited_run (w : nat) (evs : list event) (p : pool) :
  exited w p = true -> exited w (run evs p) = true.
Proof.
  revert p. induction evs as [|ev evs IH]; intros p Hw; [done|].
  simpl. by apply IH, cp_exited_step.
Qed.

Lemma cp_heap_step (p : pool) (ev : event) :
  length (heap p) <= length (heap (step p ev)).
Proof.
  assert (forall q, length (heap (processQueue q)) = length (heap q)) as Hpq.
  { intros q. unfold processQueue. destruct (queue q); [done|].
    destruct (find_idle q); simpl; by rewrite ?length_alter. }
  destruct ev as [t cb|x m|x| |x m subs]; simpl.
  - unfold runTask. destruct (find_idle p); simpl; by rewrite ?length_alter.
  - destruct (status_of x p) as [[]|]; try done; unfold on_message;
      destruct (heap p !! x) as [wk|]; try done;
      destruct (wcallback wk); rewrite ?Hpq; simpl; by rewrite length_alter.
  - destruct (status_of x p) as [[]|]; try done; simpl;
      rewrite length_app, length_alter; lia.
  - by rewrite cp_kills_length.
  - destruct (cp_on_message_then_fields x m subs p) as (_ & _ & Hlen & _).
    destruct (status_of x p) as [[]|]; try done; by rewrite Hlen.
Qed.

Lemma cp_exit_exits (w : nat) (p : pool) :
  w < length (heap p) -> exited w (step p (Exit w)) = true.
Proof.
  intros Hlt. destruct (decide (w ∈ live p)) as [Hw|Hw].
  - rewrite cp_step_exit_live by done. apply cp_exited_spec.
    rewrite cp_status_on_exit, decide_False, decide_True by (done || lia).
    apply cp_live_spec in Hw. by destruct Hw as [-> | ->].
  - rewrite cp_step_exit_dead by done. apply cp_exited_spec.
    apply lookup_lt_is_Some in Hlt as [wk Hwk].
    destruct (status_of w p) as [[]|] eqn:Hs; try done.
    + exfalso. apply Hw, cp_live_spec. auto.
    + exfalso. apply Hw, cp_live_spec. auto.
    + unfold status_of in Hs. by rewrite Hwk in Hs.
Qed.

Lemma cp_exits_exited (l : list nat) (w : nat) (p : pool) :
  w ∈ l -> w < length (heap p) -> exited w (run (Exit <$> l) p) = true.
Proof.
  revert p. induction l as [|x l IH]; intros p Hw Hlt.
  - by apply elem_of_nil in Hw.
  - simpl. apply elem_of_cons in Hw as [->|Hw].
    + by apply cp_exited_run, cp_exit_exits.
    + apply IH; [done|]. pose proof (cp_heap_step p (Exit x)). simpl in *. lia.
Qed.

(** A worker marked by [kill] was forked before the mark was set. *)
Lemma cp_killed_old (h0 : nat) (l : list nat) (p : pool) :
  (forall w, status_of w p = Some Killed -> w < h0) ->
  forall w, status_of w (run (Exit <$> l) p) = Some Killed -> w < h0.
Proof.
  revert p. induction l as [|x l IH]; intros p Hp; [done|].
  change (run (Exit <$> x :: l) p) with (run (Exit <$> l) (step p (Exit x))).
  apply IH. intros w.
  destruct (decide (x ∈ live p)) as [Hx|Hx].
  - rewrite (cp_step_exit_live x p Hx), cp_status_on_exit.
    repeat case_decide; try done; [|apply Hp].
    by destruct (status_of w p).
  - rewrite (cp_step_exit_dead x p Hx). apply Hp.
Qed.

Lemma cp_inv_run (evs : list event) (p : pool) :
  cp_inv p -> cp_inv (run evs p) /\ size (run evs p) = size p.
Proof.
  revert p. induction evs as [|ev evs IH]; intros p Hp; [done|].
  simpl. destruct (IH (step p ev)) as [H1 H2]; [by apply cp_inv_step|].
  split; [done|]. by rewrite H2, cp_size_step.
Qed.

(** After [destroy], once the killed children have exited. *)
Lemma cp_destroy_respawns (l : list nat) (p : pool) :
  cp_inv p -> (forall w, w ∈ workers p -> w ∈ l) ->
  let p' := run (Exit <$> l) (destroy p) in
  length (workers p') = size p /\
  forall w, w ∈ workers p' ->
            (w ∉ workers p) /\ status_of w p' = Some Alive.
Proof.
  intros Hp Hl. simpl.
  assert (cp_inv (destroy p)) as Hd by apply (cp_inv_step p Destroy Hp).
  destruct (cp_inv_run (Exit <$> l) (destroy p) Hd) as [Hi Hs].
  set (p' := run (Exit <$> l) (destroy p)) in *.
  assert (forall w, w ∈ workers p -> exited w p' = true) as Hgone.
  { intros w Hw. apply cp_exits_exited; [by apply Hl|].
    apply Hp, cp_live_lt in Hw. unfold destroy; simpl.
    by rewrite cp_kills_length. }
  assert (forall w, w ∈ workers p' -> w ∉ workers p) as Hfresh.
  { intros w Hw Hold. apply Hi, cp_live_spec in Hw.
    apply Hgone, cp_exited_spec in Hold. rewrite Hold in Hw.
    by destruct Hw. }
  split; [by destruct Hi as [-> _]|].
  intros w Hw. split; [by apply Hfresh|].
  pose proof Hw as Hlive. apply Hi, cp_live_spec in Hlive.
  destruct Hlive as [Ha|Hk]; [done|]. exfalso.
  apply (cp_killed_old (length (heap p)) l (destroy p)) in Hk as Hlt.
  - apply (Hfresh w Hw). apply Hp, cp_live_destroy, cp_live_spec.
    apply lookup_lt_is_Some in Hlt as [wk Hwk].
    destruct (status_of w (destroy p)) as [[]|] eqn:Hs0; auto.
    + assert (exited w p' = true) as He.
      { apply cp_exited_run. by apply cp_exited_spec. }
      apply cp_exited_spec in He. congruence.
    + rewrite cp_destroy_status in Hs0. unfold status_of in Hs0.
      rewrite Hwk in Hs0. by case_decide.
  - intros w' Hw'. eapply cp_status_lt in Hw'. unfold destroy in Hw'.
    simpl in Hw'. by rewrite cp_kills_length in Hw'.
Qed.

(** *** Forks and deaths in the log *)

Lemma cp_forks_app (l1 l2 : list effect) :
  forks (l1 ++ l2) = forks l1 + forks l2.
Proof. unfold forks. by rewrite filter_app, length_app. Qed.

Lemma cp_deaths_app (l1 l2 : list effect) :
  deaths (l1 ++ l2) = deaths l1 + deaths l2.
Proof. unfold deaths. by rewrite filter_app, length_app. Qed.

Lemma cp_forks_constructor (n : nat) :
  forks (log (constructor n)) = n /\ deaths (log (constructor n)) = 0.
Proof.
  rewrite cp_constructor_shape. simpl.
  assert (forall k, forks (Forked <$> seq k n) = n /\
                    deaths (Forked <$> seq k n) = 0) as H; [|apply H].
  induction n as [|n IH]; intros k; [done|].
  destruct (IH (S k)) as [H1 H2].
  change (Forked <$> seq k (S n))
    with ([Forked k] ++ (Forked <$> seq (S k) n)).
  by rewrite cp_forks_app, cp_deaths_app, H1, H2.
Qed.

Lemma cp_log_processQueue (p : pool) :
  forks (log (processQueue p)) = forks (log p) /\
  deaths (log (processQueue p)) = deaths (log p).
Proof.
  unfold processQueue. destruct (queue p); [done|].
  destruct (find_idle p); [|done]. simpl.
  rewrite cp_forks_app, cp_deaths_app. split; simpl; apply Nat.add_0_r.
Qed.

Lemma cp_log_runTask (t cb : nat) (p : pool) :
  forks (log (runTask t cb p)) = forks (log p) /\
  deaths (log (runTask t cb p)) = deaths (log p).
Proof.
  unfold runTask. destruct (find_idle p); simpl;
    rewrite ?cp_forks_app, ?cp_deaths_app; split; simpl; by rewrite ?Nat.add_0_r.
Qed.

Lemma cp_log_submit_all (subs : list job) (p : pool) :
  forks (log (submit_all subs p)) = forks (log p) /\
  deaths (log (submit_all subs p)) = deaths (log p).
Proof.
  revert p. induction subs as [|j subs IH]; intros p; [done|].
  simpl. destruct (IH (runTask (task j) (callback j) p)) as [-> ->].
  apply cp_log_runTask.
Qed.

Lemma cp_log_on_message_then (w : nat) (m : msg) (subs : list job)
    (p : pool) :
  forks (log (on_message_then w m subs p)) = forks (log p) /\
  deaths (log (on_message_then w m subs p)) = deaths (log p).
Proof.
  unfold on_message_then. destruct (heap p !! w) as [wk|]; [|done].
  destruct (wcallback wk) as [cb|].
  - match goal with
    | |- context [processQueue ?q] =>
        destruct (cp_log_processQueue q) as [-> ->]
    end.
    match goal with
    | |- context [submit_all subs ?q] =>
        destruct (cp_log_submit_all subs q) as [-> ->]
    end.
    simpl. rewrite cp_forks_app, cp_deaths_app.
    destruct (error m); split; simpl; by rewrite Nat.add_0_r.
  - simpl. rewrite cp_forks_app, cp_deaths_app. split; simpl;
      by rewrite Nat.add_0_r.
Qed.

Lemma cp_log_step (p : pool) (ev : event) :
  let k := match ev with
           | Exit w => if decide (w ∈ live p) then 1 else 0
           | _ => 0
           end in
  forks (log (step p ev)) = forks (log p) + k /\
  deaths (log (step p ev)) = deaths (log p) + k.
Proof.
  destruct ev as [t cb|w m|w| |w m subs]; cbn zeta.
  - simpl. unfold runTask. destruct (find_idle p); simpl;
      rewrite ?cp_forks_app, ?cp_deaths_app; done.
  - simpl. rewrite !Nat.add_0_r.
    destruct (status_of w p) as [[]|]; try done; unfold on_message;
      destruct (heap p !! w) as [wk|]; try done;
      destruct (wcallback wk);
      try (destruct (cp_log_processQueue (emit
             (match error m with
              | Some e => CalledError n e
              | None => CalledResult n (result m)
              end)
             (Pool (size p)
                (alter (fun wk => Worker (process wk) false (wcallback wk))
                   w (heap p)) (workers p) (queue p) (log p)))) as [-> ->]);
      simpl; rewrite ?cp_forks_app, ?cp_deaths_app;
      destruct (error m); simpl; by rewrite ?Nat.add_0_r.
  - case_decide as Hw.
    + rewrite cp_step_exit_live by done.
      destruct (cp_on_exit_shape w p) as (-> & _).
      by rewrite cp_forks_app, cp_deaths_app.
    + rewrite cp_step_exit_dead by done. by rewrite !Nat.add_0_r.
  - simpl. by rewrite !Nat.add_0_r.
  - simpl. rewrite !Nat.add_0_r.
    destruct (status_of w p) as [[]|]; try done;
      apply cp_log_on_message_then.
Qed.

(** Every worker that died was replaced. *)
Lemma cp_forks_deaths (n : nat) (evs : list event) :
  forks (log (run evs (constructor n))) =
  n + deaths (log (run evs (constructor n))).
Proof.
  induction evs as [|ev evs IH] using rev_ind.
  - change (run [] (constructor n)) with (constructor n).
    destruct (cp_forks_constructor n) as [-> ->]. lia.
  - rewrite cp_run_app. simpl.
    destruct (cp_log_step (run evs (constructor n)) ev) as [-> ->]. lia.
Qed.

(** A pool of one worker can be made to see any number of deaths. *)
Lemma cp_can_crash (k : nat) :
  exists evs, deaths (log (run evs (constructor 1))) = k.
Proof.
  induction k as [|k [evs IH]].
  - exists []. apply cp_forks_constructor.
  - destruct (cp_reachable 1 evs) as [(Hlen & _ & Hlive) Hsize].
    rewrite Hsize in Hlen.
    destruct (workers (run evs (constructor 1))) as [|w ws] eqn:Hws;
      [done|].
    assert (w ∈ live (run evs (constructor 1))) as Hw.
    { apply Hlive. left. }
    exists (evs ++ [Exit w]). rewrite cp_run_app. simpl.
    destruct (cp_log_step (run evs (constructor 1)) (Exit w)) as [_ Hd].
    simpl in Hd. rewrite Hd, IH, decide_True by done. lia.
Qed.

(** *** A child that reports an error *)

Lemma cp_message_error (w e cb : nat) (m : msg) (wk : worker) (p : pool) :
  heap p !! w = Some wk -> wcallback wk = Some cb -> error m = Some e ->
  (exists rest, log (on_message w m p) = log p ++ CalledError cb e :: rest) /\
  queue (on_message w m p) `suffix_of` queue p.
Proof.
  intros Hw Hcb He. unfold on_message. rewrite Hw, Hcb, He.
  unfold processQueue. simpl. destruct (queue p) as [|j q]; simpl.
  - split; [by exists []|done].
  - destruct (find_idle _); simpl.
    + split; [|by apply suffix_cons_r].
      eexists. by rewrite <- app_assoc.
    + split; [by exists []|done].
Qed.

Lemma cp_find_idle_None (p : pool) :
  find_idle p = None <-> forall w, w ∈ workers p -> idle (heap p) w = false.
Proof.
  unfold find_idle. rewrite fmap_None, list_find_None, Forall_forall.
  split; intros H w Hw; specialize (H w Hw);
    by destruct (idle (heap p) w).
Qed.
















(** After an exit there is an idle worker, whatever the queue holds. *)
Lemma cp_exit_idle (w : nat) (p : pool) :
  find_idle (on_exit w (mark_exited w p)) <> None.
Proof.
  intros Hnone.
  pose proof (proj1 (cp_find_idle_None _) Hnone (length (heap p))) as H.
  destruct (cp_on_exit_shape w p) as (_ & Hws & _). cbn zeta in Hws.
  rewrite Hws in H. clear Hws Hnone.
  assert (idle (heap (on_exit w (mark_exited w p))) (length (heap p)) = true)
    as Hi.
  { unfold idle, on_exit, createWorker, remove_dead, mark_exited.
    cbn [heap]. rewrite lookup_app_r by (by rewrite length_alter).
    by rewrite length_alter, Nat.sub_diag. }
  rewrite H in Hi; [done|]. apply elem_of_app. right. left.
Qed.

Lemma cp_calls_app (cb : nat) (l1 l2 : list effect) :
  calls cb (l1 ++ l2) = calls cb l1 + calls cb l2.
Proof. unfold calls. by rewrite filter_app, length_app. Qed.

Lemma cp_calls_snoc (cb : nat) (l : list effect) (e : effect) :
  calls cb (l ++ [e]) = calls cb l + (if is_call cb e then 1 else 0).
Proof.
  rewrite cp_calls_app. f_equal. unfold calls. rewrite filter_cons.
  by destruct (is_call cb e).
Qed.

Lemma cp_only_alter (w cb w0 : nat) (f : worker -> worker) (h : list worker) :
  (forall wk, wcallback (f wk) <> Some cb \/ wcallback (f wk) = wcallback wk) ->
  (forall w' wk, w' <> w -> h !! w' = Some wk -> wcallback wk <> Some cb) ->
  forall w' wk, w' <> w -> alter f w0 h !! w' = Some wk ->
                wcallback wk <> Some cb.
Proof.
  intros Hf Hh w' wk Hne. destruct (decide (w0 = w')) as [->|Hw0].
  - rewrite list_lookup_alter_eq. intros (wk0 & Hwk0 & ->)%fmap_Some.
    destruct (Hf wk0) as [H|H]; [done|]. rewrite H. by eapply Hh.
  - rewrite list_lookup_alter_ne by done. by apply Hh.
Qed.

Lemma cp_only_kills (w cb : nat) (l : list nat) (h : list worker) :
  (forall w' wk, w' <> w -> h !! w' = Some wk -> wcallback wk <> Some cb) ->
  forall w' wk, w' <> w ->
    foldl (fun h w => alter kill w h) h l !! w' = Some wk ->
    wcallback wk <> Some cb.
Proof.
  revert h. induction l as [|x l IH]; intros h Hh; simpl; [done|].
  apply IH. apply cp_only_alter; [|done].
  intros wk. right. unfold kill. by destruct (process wk).
Qed.

Lemma cp_only_assign (w cb w0 t cb' : nat) (p : pool) :
  cb' <> cb -> cp_only w cb p ->
  cp_only w cb (assign w0 t cb' p) /\
  calls cb (log (assign w0 t cb' p)) = calls cb (log p).
Proof.
  intros Hcb [Hh Hq]. split; [split|].
  - unfold assign; cbn [heap]. apply cp_only_alter; [|done].
    intros wk. left. simpl. congruence.
  - done.
  - unfold assign; cbn [log]. rewrite cp_calls_snoc. cbn [is_call]. lia.
Qed.

Lemma cp_only_processQueue (w cb : nat) (p : pool) :
  cp_only w cb p ->
  cp_only w cb (processQueue p) /\
  calls cb (log (processQueue p)) = calls cb (log p).
Proof.
  intros Ho. pose proof Ho as [Hh Hq]. unfold processQueue.
  destruct (queue p) as [|j q] eqn:Hj; [done|].
  destruct (find_idle p) as [w0|]; [|done].
  destruct (cp_only_assign w cb w0 (task j) (callback j)
              (Pool (size p) (heap p) (workers p) q (log p))) as [H1 H2].
  - apply Hq. left.
  - split; [done|]. cbn [queue]. intros j' Hj'. apply Hq. by right.
  - split; [done|exact H2].
Qed.

Lemma cp_only_on_exit (w cb x : nat) (p : pool) :
  cp_only w cb p ->
  cp_only w cb (on_exit x (mark_exited x p)) /\
  calls cb (log (on_exit x (mark_exited x p))) = calls cb (log p).
Proof.
  intros [Hh Hq].
  destruct (cp_on_exit_shape x p) as (Hl & _ & _ & Hqq). cbn zeta in Hl, Hqq.
  split; [|rewrite Hl, cp_calls_app; unfold calls; simpl; lia].
  split; [|by rewrite Hqq]. intros w' wk Hw'.
  unfold on_exit, createWorker, remove_dead, mark_exited. cbn [heap].
  intros [Hin|[_ Hnew]]%lookup_app_Some.
  - revert Hin. apply (cp_only_alter w); [intros wk0; by right|done|done].
  - destruct (_ - _); by simplify_eq/=.
Qed.

Lemma cp_only_runTask (w cb t cb' : nat) (p : pool) :
  cb' <> cb -> cp_only w cb p ->
  cp_only w cb (runTask t cb' p) /\
  calls cb (log (runTask t cb' p)) = calls cb (log p).
Proof.
  intros Hcb Ho. pose proof Ho as [Hh Hq].
  unfold runTask. destruct (find_idle p) as [w0|].
  - by apply cp_only_assign.
  - split; [|done]. split; [done|]. cbn [queue]. intros j.
    rewrite elem_of_app, list_elem_of_singleton. intros [Hj| ->]; [auto|done].
Qed.

Lemma cp_only_submit_all (w cb : nat) (subs : list job) (p : pool) :
  Forall (fun j => callback j <> cb) subs -> cp_only w cb p ->
  cp_only w cb (submit_all subs p) /\
  calls cb (log (submit_all subs p)) = calls cb (log p).
Proof.
  revert p. induction subs as [|j subs IH]; intros p Hs Ho; [done|].
  apply Forall_cons in Hs as [Hj Hs].
  destruct (cp_only_runTask w cb (task j) (callback j) p Hj Ho) as [Ho' Hc'].
  destruct (IH _ Hs Ho') as [Ho'' Hc'']. split; [done|].
  change (submit_all (j :: subs) p)
    with (submit_all subs (runTask (task j) (callback j) p)).
  by rewrite Hc''.
Qed.

(** Once the process that holds a callback has exited, no step calls it. *)
Lemma cp_only_step (w cb : nat) (p : pool) (ev : event) :
  exited w p = true -> cp_only w cb p -> brings_other cb ev ->
  cp_only w cb (step p ev) /\
  calls cb (log (step p ev)) = calls cb (log p).
Proof.
  intros Hex Ho Hev. pose proof Ho as [Hh Hq].
  apply cp_exited_spec in Hex.
  destruct ev as [t cb'|x m|x| |x m subs].
  - simpl in *. by apply cp_only_runTask.
  - assert (x <> w -> status_of x p <> None ->
            cp_only w cb (on_message x m p) /\
            calls cb (log (on_message x m p)) = calls cb (log p)) as Hm.
    { intros Hx _. unfold on_message.
      destruct (heap p !! x) as [wk|] eqn:Hwk; [|done].
      assert (cp_only w cb
                (Pool (size p)
                   (alter (fun wk => Worker (process wk) false (wcallback wk))
                      x (heap p)) (workers p) (queue p) (log p))) as Ho1.
      { split; [|done]. cbn [heap]. apply cp_only_alter; [|done].
        intros wk0. by right. }
      destruct (wcallback wk) as [cb0|] eqn:Hcb0.
      - assert (cb0 <> cb) as Hcb.
        { intros ->. by apply (Hh x wk Hx Hwk). }
        match goal with
        | |- context [processQueue ?q] =>
            destruct (cp_only_processQueue w cb q) as [H1 H2]
        end.
        { destruct Ho1 as [H1 H2]. by split. }
        split; [done|]. rewrite H2. unfold emit; cbn [log].
        rewrite cp_calls_snoc.
        destruct (error m); cbn [is_call]; rewrite bool_decide_false by done;
          lia.
      - split; [by destruct Ho1|]. unfold emit; cbn [log].
        rewrite cp_calls_snoc. cbn [is_call]. lia. }
    simpl. destruct (decide (x = w)) as [->|Hx]; [by rewrite Hex|].
    destruct (status_of x p) as [[]|]; try done; by apply Hm.
  - destruct (decide (x ∈ live p)) as [Hx|Hx];
      [|by rewrite cp_step_exit_dead].
    rewrite cp_step_exit_live by done. by apply cp_only_on_exit.
  - simpl. split; [|done]. split; [|done]. unfold destroy; cbn [heap].
    by apply cp_only_kills.
  - assert (x <> w ->
            cp_only w cb (on_message_then x m subs p) /\
            calls cb (log (on_message_then x m subs p)) = calls cb (log p))
      as Hm.
    { intros Hx. unfold on_message_then.
      destruct (heap p !! x) as [wk|] eqn:Hwk; [|done].
      assert (cp_only w cb
                (Pool (size p)
                   (alter (fun wk => Worker (process wk) false (wcallback wk))
                      x (heap p)) (workers p) (queue p) (log p))) as Ho1.
      { split; [|done]. cbn [heap]. apply cp_only_alter; [|done].
        intros wk0. by right. }
      destruct (wcallback wk) as [cb0|] eqn:Hcb0.
      - assert (cb0 <> cb) as Hcb.
        { intros ->. by apply (Hh x wk Hx Hwk). }
        match goal with
        | |- context [submit_all subs ?q] =>
            destruct (cp_only_submit_all w cb subs q Hev) as [H3 H4]
        end.
        { destruct Ho1 as [H1 H2]. by split. }
        match goal with
        | |- context [processQueue ?q] =>
            destruct (cp_only_processQueue w cb q H3) as [H1 H2]
        end.
        split; [done|]. rewrite H2, H4. unfold emit; cbn [log].
        rewrite cp_calls_snoc.
        destruct (error m); cbn [is_call]; rewrite bool_decide_false by done;
          lia.
      - split; [by destruct Ho1|]. unfold emit; cbn [log].
        rewrite cp_calls_snoc. cbn [is_call]. lia. }
    simpl. destruct (decide (x = w)) as [->|Hx]; [by rewrite Hex|].
    destruct (status_of x p) as [[]|]; try done; by apply Hm.
Qed.


Lemma cp_only_run (w cb : nat) (evs : list event) (p : pool) :
  exited w p = true -> cp_only w cb p -> Forall (brings_other cb) evs ->
  calls cb (log (run evs p)) = calls cb (log p).
Proof.
  revert p. induction evs as [|ev evs IH]; intros p Hex Ho Hevs; [done|].
  apply Forall_cons in Hevs as [Hev Hevs].
  destruct (cp_only_step w cb p ev Hex Ho Hev) as [Ho' Hc'].
  simpl. rewrite IH, Hc'; [done|by apply cp_exited_step|done|done].
Qed.

(** The ['exit'] listener does not call [processQueue]: the replacement
    is idle while a task waits, and the next submission goes ahead of it. *)
Example cp_respawn_overtakes_queue :
  let p := run [RunTask 10 0; RunTask 11 1; Exit 0; RunTask 12 2]
             (constructor 1) in
  log p = [Forked 0; Sent 0 10; Died; Forked 1; Sent 1 12] /\
  queue p = [Job 11 1].
Proof. split; reflexivity. Qed.

End ChildProcessPoolFacts.

(** ** Facts about the cluster master *)

Section ClusterDemoFacts.
Import ClusterDemo.

Lemma cl_on_exit_forks (pid newpid now : nat) (m : master) :
  workers (on_exit pid newpid now m) !! newpid = Some (Info 0 now) /\
  forked (on_exit pid newpid now m) = forked m ++ [newpid].
Proof. unfold on_exit, fork; simpl. by rewrite lookup_insert_eq. Qed.

Lemma cl_forked_step (m : master) (ev : event) :
  length (forked (step m ev)) =
  length (forked m) + (if is_exit ev then 1 else 0).
Proof.
  destruct ev as [pid newpid now|pid b]; simpl.
  - by rewrite length_app.
  - unfold on_message. destruct b; simpl; lia.
Qed.

Lemma cl_forked_run (evs : list event) (m : master) :
  length (forked (run evs m)) = length (forked m) + exits evs.
Proof.
  revert m. induction evs as [|ev evs IH]; intros m; simpl.
  - unfold exits. simpl. lia.
  - rewrite IH, cl_forked_step. unfold exits. rewrite filter_cons.
    destruct (is_exit ev); case_decide; simpl; try done; lia.
Qed.

Lemma cl_requests_cons (pid : nat) (ev : event) (evs : list event) :
  requests_from pid (ev :: evs) =
  (if is_request pid ev then 1 else 0) + requests_from pid evs.
Proof.
  unfold requests_from. rewrite filter_cons. by destruct (is_request pid ev).
Qed.

(** The counter of a worker counts its own requests, from its fork to its
    exit. *)
Lemma cl_counts (pid : nat) (evs : list event) (m : master) (i : info) :
  workers m !! pid = Some i ->
  Forall (fun ev => concerns pid ev = false) evs ->
  workers (run evs m) !! pid =
    Some (Info (requests i + requests_from pid evs) (startTime i)).
Proof.
  revert m i. induction evs as [|ev evs IH]; intros m i Hi Hevs.
  - simpl. unfold requests_from. simpl. rewrite Nat.add_0_r. by destruct i.
  - apply Forall_cons in Hevs as [Hev Hevs]. rewrite cl_requests_cons.
    change (run (ev :: evs) m) with (run evs (step m ev)).
    destruct ev as [p newpid now|p [|]]; simpl in Hev.
    + apply orb_false_iff in Hev as [Hp Hnew].
      apply bool_decide_eq_false in Hp, Hnew.
      rewrite (IH _ i); [done| |done]. simpl.
      by rewrite lookup_insert_ne, lookup_delete_ne.
    + simpl. destruct (decide (p = pid)) as [->|Hne].
      * rewrite bool_decide_true by done.
        rewrite (IH _ (Info (S (requests i)) (startTime i))); [|  |done].
        -- simpl. do 2 f_equal. lia.
        -- simpl. by rewrite lookup_alter_eq, Hi.
      * rewrite bool_decide_false by done.
        rewrite (IH _ i); [done| |done]. simpl. by rewrite lookup_alter_ne.
    + by rewrite (IH _ i).
Qed.

Lemma cl_size_alter (f : info -> info) (pid : nat) (ws : gmap nat info) :
  size (alter f pid ws) = size ws.
Proof. by rewrite <- !size_dom, dom_alter_L. Qed.

Lemma cl_size_step (m : master) (ev : event) :
  well_formed m [ev] -> size (workers (step m ev)) = size (workers m).
Proof.
  destruct ev as [pid newpid now|pid [|]]; simpl.
  - intros [[[i Hi] Hnew] _].
    rewrite map_size_insert_None by done.
    rewrite map_size_delete_Some by done.
    pose proof (map_size_ne_0_lookup_2 (workers m) pid ltac:(done)). lia.
  - intros _. apply cl_size_alter.
  - done.
Qed.

Lemma cl_size_run (evs : list event) (m : master) :
  well_formed m evs -> size (workers (run evs m)) = size (workers m).
Proof.
  revert m. induction evs as [|ev evs IH]; intros m Hwf; [done|].
  destruct Hwf as [Hev Hevs].
  change (run (ev :: evs) m) with (run evs (step m ev)).
  rewrite IH by done. apply cl_size_step. by split.
Qed.

Lemma cl_size_forks (forks : list (nat * nat)) (m : master) :
  NoDup (fst <$> forks) ->
  (forall pid, pid ∈ fst <$> forks -> workers m !! pid = None) ->
  size (workers (foldl (fun m f => fork (fst f) (snd f) m) m forks)) =
  size (workers m) + length forks.
Proof.
  revert m. induction forks as [|[pid now] forks IH]; intros m Hnd Hm; simpl.
  - lia.
  - rewrite fmap_cons in Hnd. apply NoDup_cons in Hnd as [Hpid Hnd].
    rewrite IH; [|done|].
    + simpl. rewrite map_size_insert_None; [lia|]. apply Hm. left.
    + intros pid' Hpid'. simpl. rewrite lookup_insert_ne.
      * apply Hm. by right.
      * intros ->. done.
Qed.

#[local] Set Warnings "-clear-no-such-hyp".

(** The workers the master tracks after some of them have exited. *)
Lemma cl_dom_exits (l : list (nat * nat * nat)) (m : master) :
  NoDup (fst ∘ fst <$> l) ->
  (forall pid, pid ∈ fst ∘ fst <$> l -> pid ∈ dom (workers m)) ->
  NoDup (snd ∘ fst <$> l) ->
  (forall pid, pid ∈ snd ∘ fst <$> l -> pid ∉ dom (workers m)) ->
  dom (workers (run (exits_of l) m)) =
    (dom (workers m) ∖ list_to_set (fst ∘ fst <$> l)) ∪
    list_to_set (snd ∘ fst <$> l).
Proof.
  revert m. induction l as [|[[pid newpid] now] l IH]; intros m Hp Hin Hn Hout.
  - simpl. set_solver.
  - rewrite fmap_cons in Hp, Hn. simpl in Hp, Hn.
    apply NoDup_cons in Hp as [Hpid Hp]. apply NoDup_cons in Hn as [Hnew Hn].
    assert (dom (workers (on_exit pid newpid now m)) =
            {[newpid]} ∪ (dom (workers m) ∖ {[pid]})) as Hdom.
    { unfold on_exit, fork; simpl. by rewrite dom_insert_L, dom_delete_L. }
    change (run (exits_of (((pid, newpid), now) :: l)) m)
      with (run (exits_of l) (on_exit pid newpid now m)).
    rewrite IH; [| done | | done |].
    + rewrite Hdom, !fmap_cons. simpl.
      assert (newpid ∉ dom (workers m)) by (apply Hout; left).
      assert (forall x, x ∈ fst ∘ fst <$> l -> x ∈ dom (workers m))
        by (intros x Hx; apply Hin; by right).
      set_solver.
    + intros x Hx. rewrite Hdom.
      assert (x ∈ dom (workers m)) by (apply Hin; by right).
      set_solver.
    + intros x Hx. rewrite Hdom.
      assert (x ∉ dom (workers m)) by (apply Hout; by right).
      set_solver.
Qed.

End ClusterDemoFacts.

(** ** Facts about the Fibonacci worker *)

Section FibWorkerFacts.
Import FibWorker.
Local Open Scope Z_scope.

Lemma fib_below_two (n : Z) : n < 2 -> fibonacci n = n.
Proof.
  intros Hn. simp fibonacci. destruct (Z_lt_dec n 2); simpl; [done|lia].
Qed.

Lemma fib_unfold (n : Z) :
  2 <= n -> fibonacci n = fibonacci (n - 1) + fibonacci (n - 2).
Proof.
  intros Hn. rewrite (fibonacci_equation_1 n).
  destruct (Z_lt_dec n 2); simpl; [lia|done].
Qed.

Lemma fib_pair_spec (k : nat) :
  fib_pair k = (fibonacci (Z.of_nat k), fibonacci (Z.of_nat k + 1)).
Proof.
  induction k as [|k IH].
  - unfold fib_pair. simpl. by rewrite !fib_below_two by lia.
  - unfold fib_pair in *. rewrite Nat.iter_succ, IH. cbn [fst snd].
    rewrite Nat2Z.inj_succ.
    rewrite (fib_unfold (Z.succ (Z.of_nat k) + 1)) by lia.
    replace (Z.succ (Z.of_nat k) + 1 - 1) with (Z.of_nat k + 1) by lia.
    replace (Z.succ (Z.of_nat k) + 1 - 2) with (Z.of_nat k) by lia.
    replace (Z.succ (Z.of_nat k)) with (Z.of_nat k + 1) by lia.
    f_equal. apply Z.add_comm.
Qed.

Lemma fib_pair_grows (k : nat) :
  0 <= fst (fib_pair k) <= snd (fib_pair k) /\ 1 <= snd (fib_pair k).
Proof.
  induction k as [|k IH]; [simpl; lia|].
  unfold fib_pair in *. rewrite Nat.iter_succ. cbn [fst snd]. lia.
Qed.

Lemma fib_monotone (m n : Z) :
  0 <= m <= n -> 0 <= fibonacci m <= fibonacci n.
Proof.
  intros [Hm Hmn].
  replace n with (m + Z.of_nat (Z.to_nat (n - m))) by lia.
  generalize (Z.to_nat (n - m)) as d. intros d. induction d as [|d IH].
  - rewrite Z.add_0_r.
    pose proof (fib_pair_grows (Z.to_nat m)) as H.
    rewrite fib_pair_spec, Z2Nat.id in H by done. simpl in H. lia.
  - pose proof (fib_pair_grows (Z.to_nat (m + Z.of_nat d))) as H.
    rewrite fib_pair_spec, Z2Nat.id in H by lia. simpl in H.
    replace (m + Z.of_nat (S d)) with (m + Z.of_nat d + 1) by lia. lia.
Qed.

Lemma calls_below_two (n : Z) : n < 2 -> calls n = 1.
Proof.
  intros Hn. simp calls. destruct (Z_lt_dec n 2); simpl; [done|lia].
Qed.

Lemma calls_unfold (n : Z) :
  2 <= n -> calls n = 1 + calls (n - 1) + calls (n - 2).
Proof.
  intros Hn. rewrite (calls_equation_1 n).
  destruct (Z_lt_dec n 2); simpl; [lia|done].
Qed.

Lemma calls_pair (k : nat) :
  calls (Z.of_nat k) = 2 * fibonacci (Z.of_nat k + 1) - 1 /\
  calls (Z.of_nat k + 1) = 2 * fibonacci (Z.of_nat k + 2) - 1.
Proof.
  induction k as [|k [IH1 IH2]].
  - change (Z.of_nat 0) with 0. rewrite !Z.add_0_l.
    rewrite !calls_below_two, fib_below_two by lia.
    rewrite (fib_unfold 2), !fib_below_two by lia. lia.
  - rewrite Nat2Z.inj_succ.
    replace (Z.succ (Z.of_nat k)) with (Z.of_nat k + 1) by lia.
    split; [by rewrite <- Z.add_assoc|].
    rewrite calls_unfold by lia.
    replace (Z.of_nat k + 1 + 1 - 1) with (Z.of_nat k + 1) by lia.
    replace (Z.of_nat k + 1 + 1 - 2) with (Z.of_nat k) by lia.
    rewrite IH1, IH2.
    rewrite (fib_unfold (Z.of_nat k + 1 + 2)) by lia.
    replace (Z.of_nat k + 1 + 2 - 1) with (Z.of_nat k + 2) by lia.
    replace (Z.of_nat k + 1 + 2 - 2) with (Z.of_nat k + 1) by lia.
    lia.
Qed.

End FibWorkerFacts.

(** ** Facts about a worker behind a promise *)

Section RunWorkerFacts.
Import RunWorker.

Lemma rw_listen_settled (pr : promise) (evs : list wevent) :
  pr <> Pending -> foldl listen pr evs = pr.
Proof.
  revert pr. induction evs as [|ev evs IH]; intros pr Hpr; [done|].
  simpl. assert (listen pr ev = pr) as ->; [|by apply IH].
  destruct pr; [done| |]; destruct ev; simpl; try done; by case_decide.
Qed.

Lemma rw_listen_idle (evs : list wevent) :
  Forall (fun ev => is_settling ev = false) evs ->
  foldl listen Pending evs = Pending.
Proof.
  induction 1 as [|ev evs Hev _ IH]; [done|].
  simpl. destruct ev as [v|e|code]; try done. simpl in *.
  case_decide; [done|]. by rewrite bool_decide_eq_false_2 in Hev.
Qed.

Lemma rw_pending_iff (evs : list wevent) :
  runWorker evs = Pending <-> Forall (fun ev => is_settling ev = false) evs.
Proof.
  split; [|apply rw_listen_idle].
  unfold runWorker. induction evs as [|ev evs IH]; [done|].
  simpl. intros H.
  destruct (listen Pending ev) eqn:Heq.
  - constructor; [|by apply IH].
    destruct ev as [v|e|code]; simpl in *; try done.
    case_decide; [by rewrite bool_decide_eq_true_2|done].
  - by rewrite rw_listen_settled in H.
  - by rewrite rw_listen_settled in H.
Qed.

Lemma rw_first_wins (pre post : list wevent) (ev : wevent) :
  Forall (fun ev => is_settling ev = false) pre ->
  is_settling ev = true ->
  runWorker (pre ++ ev :: post) = listen Pending ev /\
  listen Pending ev <> Pending.
Proof.
  intros Hpre Hev. unfold runWorker. rewrite foldl_app, rw_listen_idle by done.
  assert (listen Pending ev <> Pending) as Hne.
  { destruct ev as [v|e|code]; simpl in *; try done.
    case_decide; [|done]. by rewrite bool_decide_eq_true_2 in Hev. }
  simpl. by rewrite rw_listen_settled.
Qed.

End RunWorkerFacts.

(** ** Facts about the image processor *)

Section ImageProcessorFacts.
Import ImageProcessor.

Lemma ip_slice_chunk {A : Type} (array : list A) (j s : nat) :
  j <= length array ->
  slice array (Z.of_nat j) (Z.of_nat j + Z.of_nat s) = take s (drop j array).
Proof.
  intros Hj. unfold slice.
  destruct (Z.ltb_spec (Z.of_nat j + Z.of_nat s) 0); [lia|].
  destruct (Z.ltb_spec (Z.of_nat j) 0); [lia|].
  rewrite (Z.min_l (Z.of_nat j)) by lia. rewrite Nat2Z.id.
  destruct (decide (j + s <= length array)) as [Hle|Hgt].
  - rewrite Z.min_l by lia. f_equal. lia.
  - rewrite Z.min_r by lia.
    rewrite !take_ge; [done|rewrite length_drop; lia|rewrite length_drop; lia].
Qed.

Lemma ip_loop_more_fuel {A : Type} (fuel fuel' : nat) (array : list A)
    (size i : Z) (chunks res : list (list A)) :
  chunk_loop fuel array size i chunks = Some res -> fuel <= fuel' ->
  chunk_loop fuel' array size i chunks = Some res.
Proof.
  revert fuel' i chunks. induction fuel as [|fuel IH];
    intros fuel' i chunks; [done|].
  intros H Hle. destruct fuel' as [|fuel']; [lia|]. simpl in *.
  destruct (i <? Z.of_nat (length array))%Z; [|done].
  apply IH; [done|lia].
Qed.

(** The loop, from index [j] on, with chunks of [s >= 1] elements. *)
Lemma ip_loop_spec {A : Type} (array : list A) (s : nat) :
  0 < s ->
  forall fuel j chunks, length array - j < fuel ->
  exists res,
    chunk_loop fuel array (Z.of_nat s) (Z.of_nat j) chunks =
      Some (chunks ++ res) /\
    concat res = drop j array /\
    Forall (fun c => 0 < length c <= s) res /\
    length array - j <= length res * s < length array - j + s /\
    forall k c, res !! k = Some c -> c = take s (drop (j + k * s) array).
Proof.
  intros Hs fuel. induction fuel as [|fuel IH]; intros j chunks Hf; [lia|].
  simpl. destruct (Z.ltb_spec (Z.of_nat j) (Z.of_nat (length array)))
    as [Hlt|Hge].
  - destruct (IH (j + s) (chunks ++
                [slice array (Z.of_nat j) (Z.of_nat j + Z.of_nat s)]))
      as (res & Hloop & Hcat & Hall & Hlen & Hk); [lia|].
    exists (take s (drop j array) :: res).
    rewrite Nat2Z.inj_add in Hloop.
    rewrite Hloop, ip_slice_chunk, <- app_assoc by lia.
    split; [done|]. split; [|split; [|split]].
    + simpl. rewrite Hcat, <- drop_drop. apply take_drop.
    + constructor; [|done]. rewrite length_take, length_drop. lia.
    + assert (j < length array) as Hj by lia. clear -Hlen Hj Hs.
      destruct res as [|c res]; simpl in *; [lia|].
      generalize dependent (length res * s). intros x Hx. lia.
    + intros [|k] c; simpl.
      * intros [= <-]. by rewrite Nat.add_0_r.
      * intros Hc. rewrite (Hk k c Hc). do 2 f_equal. lia.
  - exists []. rewrite app_nil_r. split; [done|].
    split; [by rewrite drop_ge by lia|]. split; [done|].
    split; [simpl; lia|]. intros k c Hc. by rewrite lookup_nil in Hc.
Qed.

(** With a size below 1 the loop never ends on an array that is not empty. *)
Lemma ip_loop_diverges {A : Type} (array : list A) (size : Z) :
  (size <= 0)%Z -> array <> [] ->
  forall fuel i chunks, (i <= 0)%Z -> chunk_loop fuel array size i chunks = None.
Proof.
  intros Hs Ha fuel. induction fuel as [|fuel IH]; intros i chunks Hi; [done|].
  simpl. destruct array as [|a array]; [done|].
  rewrite (proj2 (Z.ltb_lt _ _)) by (simpl; lia).
  apply IH. lia.
Qed.

Lemma ip_promise_all_fulfilled (ps : list RunWorker.promise)
    (vs : list RunWorker.value) :
  promise_all ps = AllFulfilled vs <->
  Forall2 (fun pr v => pr = RunWorker.Fulfilled v) ps vs.
Proof.
  unfold promise_all. split.
  - destruct (omap rejection ps) eqn:Hr; [|done].
    destruct (mapM fulfilment ps) as [vs'|] eqn:Hm; [|done].
    intros [= <-]. apply mapM_Some_1 in Hm.
    eapply Forall2_impl; [done|]. intros [|v'|r] v; simpl; congruence.
  - intros H.
    assert (omap rejection ps = []) as ->.
    { induction H as [|pr v ps vs -> _ IH]; [done|]. by simpl. }
    assert (mapM fulfilment ps = Some vs) as ->; [|done].
    apply mapM_Some_2. eapply Forall2_impl; [done|]. by intros pr v ->.
Qed.

Section Chunks.
Context {Path : Type} (work : Path -> list RunWorker.wevent).

Lemma ip_process_chunks (chunks : list (list Path))
    (results : list RunWorker.value) (batches : list (list Path)) :
  let r := process_chunks work chunks results batches in
  (exists m, snd r = batches ++ take m chunks) /\
  (forall rs, fst r = Returned rs <->
     exists vs, rs = results ++ vs /\
       Forall2 (fun path v => processImage work path = RunWorker.Fulfilled v)
               (concat chunks) vs) /\
  (forall rs, fst r = Returned rs -> snd r = batches ++ chunks).
Proof.
  revert results batches. induction chunks as [|chunk chunks IH];
    intros results batches; cbn zeta.
  - simpl. split; [exists 0; by rewrite app_nil_r|]. split.
    + intros rs. split.
      * intros [= <-]. exists []. by rewrite app_nil_r.
      * intros (vs & -> & ->%Forall2_nil_inv_l). by rewrite app_nil_r.
    + intros _ _. by rewrite app_nil_r.
  - cbn [process_chunks].
    destruct (promise_all (processImage work <$> chunk)) as [vs| |] eqn:Hall.
    + destruct (IH (results ++ vs) (batches ++ [chunk])) as (Hm & Hr & Hb).
      apply ip_promise_all_fulfilled in Hall.
      apply Forall2_fmap_l in Hall.
      split; [|split].
      * destruct Hm as [m Hm]. exists (S m). rewrite Hm, <- app_assoc. done.
      * intros rs. rewrite Hr. split.
        -- intros (vs' & -> & Hvs'). exists (vs ++ vs').
           split; [by rewrite app_assoc|]. simpl. by apply Forall2_app.
        -- intros (vs' & -> & Hvs'). simpl in Hvs'.
           apply Forall2_app_inv_l in Hvs' as (v1 & v2 & H1 & H2 & ->).
           assert (v1 = vs) as ->.
           { clear -H1 Hall. revert vs Hall.
             induction H1 as [|x v l k Hx _ IH']; intros vs Hvs.
             - by apply Forall2_nil_inv_l in Hvs.
             - apply Forall2_cons_inv_l in Hvs as (v' & vs' & Hv' & Hvs' & ->).
               f_equal; [congruence|by apply IH']. }
           exists v2. by rewrite app_assoc.
      * intros rs Hrs. rewrite (Hb rs Hrs), <- app_assoc. done.
    + split; [by exists 1; simpl; rewrite take_0|]. split; [|done].
      intros rs. split; [done|]. intros (vs & _ & Hvs). simpl in Hvs.
      apply Forall2_app_inv_l in Hvs as (v1 & v2 & H1 & _ & _).
      assert (promise_all (processImage work <$> chunk) = AllFulfilled v1)
        by (by apply ip_promise_all_fulfilled, Forall2_fmap_l).
      congruence.
    + split; [by exists 1; simpl; rewrite take_0|]. split; [|done].
      intros rs. split; [done|]. intros (vs & _ & Hvs). simpl in Hvs.
      apply Forall2_app_inv_l in Hvs as (v1 & v2 & H1 & _ & _).
      assert (promise_all (processImage work <$> chunk) = AllFulfilled v1)
        by (by apply ip_promise_all_fulfilled, Forall2_fmap_l).
      congruence.
Qed.

(** A batch is started only when every image of the batches before it has
    been processed. *)
Lemma ip_process_chunks_started (chunks : list (list Path))
    (results : list RunWorker.value) (batches : list (list Path)) :
  exists m,
    snd (process_chunks work chunks results batches) = batches ++ take m chunks /\
    Forall (Forall (fun path =>
              exists v, processImage work path = RunWorker.Fulfilled v))
           (take (pred m) chunks).
Proof.
  revert results batches. induction chunks as [|chunk chunks IH];
    intros results batches.
  - exists 0. simpl. by rewrite app_nil_r.
  - cbn [process_chunks].
    destruct (promise_all (processImage work <$> chunk)) as [vs| |] eqn:Hall.
    + destruct (IH (results ++ vs) (batches ++ [chunk])) as (m & Hm & Hf).
      exists (S m). split; [by rewrite Hm, <- app_assoc|].
      destruct m as [|m]; simpl; [done|].
      constructor; [|done].
      apply ip_promise_all_fulfilled, Forall2_fmap_l in Hall.
      clear -Hall. induction Hall as [|x v l k Hx _ IH']; constructor;
        [by exists v|done].
    + exists 1. simpl. by rewrite take_0.
    + exists 1. simpl. by rewrite take_0.
Qed.

End Chunks.

End ImageProcessorFacts.

(** ** Facts about [multipleWorkersExample] *)

Section MultipleWorkersFacts.
Import MultipleWorkers.



End MultipleWorkersFacts.

(** ** Facts about the shared counter *)

Section AtomicCounterFacts.
Import AtomicCounter.

Lemma interleaved_app {A : Type} (l1 l2 : list A) : interleaved l1 l2 (l1 ++ l2).
Proof.
  induction l1 as [|x l1 IH]; simpl; [|by constructor].
  induction l2 as [|x l2 IH]; by constructor.
Qed.

Lemma interleaved_replicate {A : Type} (x : A) (l : list A) (a b : nat) :
  interleaved (replicate a x) (replicate b x) l -> l = replicate (a + b) x.
Proof.
  revert a b. induction l as [|y l IH]; intros a b H.
  - inversion H as [E1 E2| |]. by destruct a, b.
  - inversion H as [|z l1 l2 l' H' E1 E2|z l1 l2 l' H' E1 E2]; subst.
    + destruct a as [|a]; simplify_eq/=. by rewrite (IH _ _ H').
    + destruct b as [|b]; simplify_eq/=. rewrite (IH _ _ H').
      by rewrite Nat.add_succ_r.
Qed.

Lemma interleaved_replicate_all {A : Type} (x : A) (a b : nat) :
  interleaved (replicate a x) (replicate b x) (replicate (a + b) x).
Proof.
  induction a as [|a IH]; simpl; [|by constructor].
  induction b as [|b IH]; simpl; by constructor.
Qed.

Lemma ac_int32_small (z : Z) : (- 2 ^ 31 <= z < 2 ^ 31)%Z -> int32 z = z.
Proof. intros H. unfold int32. rewrite Z.mod_small; lia. Qed.

Lemma ac_adds (n : nat) (c : Z) :
  (0 <= c)%Z -> (c + Z.of_nat n < 2 ^ 31)%Z ->
  foldl exec c (replicate n (Add 1)) = (c + Z.of_nat n)%Z.
Proof.
  revert c. induction n as [|n IH]; intros c H0 H1; cbn [replicate foldl exec];
    [lia|].
  rewrite ac_int32_small by lia. rewrite IH by lia. lia.
Qed.

(** The store of the main thread comes after [k] additions of the worker;
    additions by either thread look the same. *)
Lemma ac_shape (m w : nat) (l : list op) :
  interleaved (Store 0 :: replicate m (Add 1)) (replicate w (Add 1)) l ->
  exists k, k <= w /\
    l = replicate k (Add 1) ++ Store 0 :: replicate (m + w - k) (Add 1).
Proof.
  revert l. induction w as [|w IH]; intros l H.
  - inversion H as [|z l1 l2 l' H' E1 E2|z l1 l2 l' H' E1 E2]; simplify_eq/=.
    exists 0. split; [lia|]. simpl.
    rewrite (interleaved_replicate _ _ m 0 H'). do 2 f_equal. lia.
  - inversion H as [|z l1 l2 l' H' E1 E2|z l1 l2 l' H' E1 E2]; simplify_eq/=.
    + exists 0. split; [lia|]. simpl.
      rewrite (interleaved_replicate _ _ m (S w) H'). do 2 f_equal. lia.
    + destruct (IH _ H') as (k & Hk & ->). exists (S k). split; [lia|].
      replace (m + S w - S k) with (m + w - k) by lia. done.
Qed.

Lemma ac_interleaving (m j k : nat) :
  interleaved (Store 0 :: replicate m (Add 1)) (replicate (k + j) (Add 1))
    (replicate k (Add 1) ++ Store 0 :: replicate (m + j) (Add 1)).
Proof.
  induction k as [|k IH]; simpl; constructor;
    [apply interleaved_replicate_all|done].
Qed.

Lemma ac_final (k n : nat) :
  (Z.of_nat n < 2 ^ 31)%Z ->
  final (replicate k (Add 1) ++ Store 0 :: replicate n (Add 1)) = Z.of_nat n.
Proof.
  intros Hn. unfold final. rewrite foldl_app. cbn [foldl exec].
  rewrite ac_int32_small by lia. rewrite ac_adds by lia. lia.
Qed.

End AtomicCounterFacts.

(** * The claims *)

(** C1, as stated, fails: a promise can be left pending for good after
    shutdown.  In the worker-threads pool [close()] calls no resolver: with
    one task in flight and one queued, both promises are pending after
    [close()] and stay so as long as the worker delivers nothing more; and
    once the only worker has died of an error, the queued task is settled
    in no continuation at all.  In the pool of [worker-demo.js] the exit
    of the terminated thread rejects the task in flight, and the queued
    task is settled in no continuation. *)
Lemma C1_close_leaves_tasks_pending :
  let p := WorkerThreadsPool.run
             [WorkerThreadsPool.RunTask 10; WorkerThreadsPool.RunTask 11;
              WorkerThreadsPool.Close]
             (WorkerThreadsPool.constructor 1) in
  let p2 := WorkerThreadsPool.run
              [WorkerThreadsPool.RunTask 10; WorkerThreadsPool.RunTask 11;
               WorkerThreadsPool.Error 0 9; WorkerThreadsPool.Close]
              (WorkerThreadsPool.constructor 1) in
  let q := WorkerDemo.run
             [WorkerDemo.Execute 10; WorkerDemo.Execute 11;
              WorkerDemo.TerminateSlot 0; WorkerDemo.Exit 0 1]
             (WorkerDemo.constructor 1) in
  WorkerThreadsPool.cur p 0 = Some (WorkerThreadsPool.Task 0 10) /\
  WorkerThreadsPool.queue p = [WorkerThreadsPool.Task 1 11] /\
  (forall evs,
     WorkerThreadsPool.quiet evs ->
     WorkerThreadsPool.settled 0
       (WorkerThreadsPool.log (WorkerThreadsPool.run evs p)) = 0 /\
     WorkerThreadsPool.settled 1
       (WorkerThreadsPool.log (WorkerThreadsPool.run evs p)) = 0) /\
  WorkerThreadsPool.queue p2 = [WorkerThreadsPool.Task 1 11] /\
  (forall evs,
     WorkerThreadsPool.settled 1
       (WorkerThreadsPool.log (WorkerThreadsPool.run evs p2)) = 0) /\
  WorkerDemo.log q =
    [WorkerDemo.Spawned 0 (WorkerDemo.Task 0 10); WorkerDemo.Rejected 0 1] /\
  WorkerDemo.queue q = [WorkerDemo.Task 1 11] /\
  (forall evs,
     WorkerDemo.outcome 1 (WorkerDemo.log (WorkerDemo.run evs q)) = None).
Proof.
  cbn zeta. split; [reflexivity|]. split; [reflexivity|].
  split; [|split; [reflexivity|split; [|split; [reflexivity|split;
                                                  [reflexivity|]]]]].
  - intros evs Hevs.
    split; by rewrite (proj1 (tp_quiet_run evs _ _ Hevs)).
  - intros evs. rewrite tp_frozen_run; [reflexivity|].
    intros [|w]; reflexivity.
  - intros evs. rewrite wd_over_run; [reflexivity| |reflexivity].
    by repeat constructor.
Qed.

(** C1, amended: in the worker-threads pool the resolvers of a task are
    called at most once; a task in flight is settled by the ['message'] or
    the ['error'] of its worker, also one delivered after [close()];
    [close()] itself calls no resolver, and nothing but an event that a
    worker still delivers settles a promise after it.  In the pool of [worker-demo.js] a promise that is settled
    keeps its outcome, whatever its listeners call later; a turn of
    [terminate()] calls no resolver, and the exit of a thread with a code
    other than 0 rejects its task if that is still pending. *)
Theorem C1_settled_at_most_once
    (n : nat) (evs : list WorkerThreadsPool.event)
    (q : WorkerDemo.pool) (qevs : list WorkerDemo.event)
    (qt : nat) (o : WorkerDemo.effect) :
  let p := WorkerThreadsPool.run evs (WorkerThreadsPool.constructor n) in
  (WorkerDemo.outcome qt (WorkerDemo.log q) = Some o ->
   WorkerDemo.outcome qt (WorkerDemo.log (WorkerDemo.run qevs q)) = Some o) /\
  (forall t, WorkerThreadsPool.settled t (WorkerThreadsPool.log p) <= 1) /\
  (forall w r t,
      WorkerThreadsPool.delivers w p = true ->
      WorkerThreadsPool.cur p w = Some t ->
      WorkerThreadsPool.settled (WorkerThreadsPool.tid t)
        (WorkerThreadsPool.log
           (WorkerThreadsPool.step p (WorkerThreadsPool.Message w r))) = 1) /\
  (forall w e t,
      WorkerThreadsPool.delivers w p = true ->
      WorkerThreadsPool.cur p w = Some t ->
      WorkerThreadsPool.settled (WorkerThreadsPool.tid t)
        (WorkerThreadsPool.log
           (WorkerThreadsPool.step p (WorkerThreadsPool.Error w e))) = 1) /\
  WorkerThreadsPool.log (WorkerThreadsPool.close p) =
    WorkerThreadsPool.log p /\
  (forall evs' t,
      WorkerThreadsPool.quiet evs' ->
      WorkerThreadsPool.settled t
        (WorkerThreadsPool.log
           (WorkerThreadsPool.run evs' (WorkerThreadsPool.close p))) =
      WorkerThreadsPool.settled t (WorkerThreadsPool.log p)) /\
  (forall i,
      WorkerDemo.log (WorkerDemo.step q (WorkerDemo.TerminateSlot i)) =
      WorkerDemo.log q) /\
  (forall k th code,
      WorkerDemo.threads q !! k = Some th ->
      WorkerDemo.has_exited th = false -> code <> 0 ->
      WorkerDemo.outcome (WorkerDemo.tid (WorkerDemo.th_task th))
        (WorkerDemo.log q) = None ->
      WorkerDemo.outcome (WorkerDemo.tid (WorkerDemo.th_task th))
        (WorkerDemo.log (WorkerDemo.step q (WorkerDemo.Exit k code))) =
      Some (WorkerDemo.Rejected
              (WorkerDemo.tid (WorkerDemo.th_task th)) code)).
Proof.
  cbn zeta. destruct (tp_reachable n evs) as [Hd Hp].
  split; [apply wd_outcome_stable|].
  split; [apply Hp|]. split; [|split; [|split; [done|split; [|split]]]].
  - intros w r t Hr Hc. by apply tp_message_busy.
  - intros w e t Hr Hc.
    destruct (tp_error_busy _ w e t Hr Hc) as (-> & _).
    rewrite tp_settled_snoc, (WorkerThreadsPool.tp_cur_pending _ Hp _ _ Hc). simpl.
    by rewrite bool_decide_eq_true_2.
  - intros evs' t Hevs'. by rewrite (proj1 (tp_quiet_run evs' _ t Hevs')).
  - intros i. apply wd_terminate_slot_fields.
  - intros k th code. apply wd_exit_rejects.
Qed.

Lemma C1_settled_at_most_once_witness :
  let p := WorkerThreadsPool.run [WorkerThreadsPool.RunTask 10]
             (WorkerThreadsPool.constructor 1) in
  let q := WorkerDemo.run [WorkerDemo.Execute 10; WorkerDemo.Error 0 7]
             (WorkerDemo.constructor 1) in
  let q' := WorkerDemo.run [WorkerDemo.Execute 10; WorkerDemo.TerminateSlot 0]
              (WorkerDemo.constructor 1) in
  let pc := WorkerThreadsPool.run
              [WorkerThreadsPool.RunTask 10; WorkerThreadsPool.Close]
              (WorkerThreadsPool.constructor 1) in
  WorkerThreadsPool.settled 0
    (WorkerThreadsPool.log
       (WorkerThreadsPool.step pc (WorkerThreadsPool.Message 0 7))) = 1 /\
  WorkerDemo.outcome 0
    (WorkerDemo.log (WorkerDemo.run [WorkerDemo.Exit 0 1] q)) =
    Some (WorkerDemo.Rejected 0 7) /\
  WorkerThreadsPool.settled 0
    (WorkerThreadsPool.log
       (WorkerThreadsPool.step p (WorkerThreadsPool.Message 0 7))) = 1 /\
  WorkerThreadsPool.settled 0
    (WorkerThreadsPool.log
       (WorkerThreadsPool.step p (WorkerThreadsPool.Error 0 7))) = 1 /\
  WorkerThreadsPool.settled 0
    (WorkerThreadsPool.log
       (WorkerThreadsPool.run [WorkerThreadsPool.RunTask 11]
          (WorkerThreadsPool.close p))) = 0 /\
  WorkerDemo.outcome 0
    (WorkerDemo.log (WorkerDemo.step q' (WorkerDemo.Exit 0 1))) =
    Some (WorkerDemo.Rejected 0 1).
Proof.
  pose proof (C1_settled_at_most_once 1 [WorkerThreadsPool.RunTask 10]
                (WorkerDemo.run [WorkerDemo.Execute 10; WorkerDemo.Error 0 7]
                   (WorkerDemo.constructor 1))
                [WorkerDemo.Exit 0 1] 0 (WorkerDemo.Rejected 0 7)) as H.
  pose proof (C1_settled_at_most_once 1 [WorkerThreadsPool.RunTask 10]
                (WorkerDemo.run
                   [WorkerDemo.Execute 10; WorkerDemo.TerminateSlot 0]
                   (WorkerDemo.constructor 1))
                [] 0 (WorkerDemo.Rejected 0 7)) as H'.
  pose proof (C1_settled_at_most_once 1
                [WorkerThreadsPool.RunTask 10; WorkerThreadsPool.Close]
                (WorkerDemo.constructor 1) [] 0 (WorkerDemo.Rejected 0 7))
    as Hc.
  cbn zeta in H, H', Hc. destruct H as (Ho & _ & Hm & He & _ & Hq & _).
  destruct H' as (_ & _ & _ & _ & _ & _ & _ & Hx).
  destruct Hc as (_ & _ & Hl & _).
  split; [|split; [|split; [|split; [|split]]]].
  - apply (Hl 0 7 (WorkerThreadsPool.Task 0 10)); reflexivity.
  - apply Ho. reflexivity.
  - apply (Hm 0 7 (WorkerThreadsPool.Task 0 10)); reflexivity.
  - apply (He 0 7 (WorkerThreadsPool.Task 0 10)); reflexivity.
  - rewrite Hq; [reflexivity|]. by repeat constructor.
  - apply (Hx 0 (WorkerDemo.Thread 0 (WorkerDemo.Task 0 10)
                   WorkerDemo.Terminated) 1); try reflexivity. lia.
Defined.

(** C2, as stated, fails: no capacity bounds the queue of a pool, neither
    in the worker-threads pool nor in the pool of [worker-demo.js]. *)
Lemma C2_queue_has_no_capacity :
  (~ exists cap, forall evs,
       length (WorkerThreadsPool.queue
                 (WorkerThreadsPool.run evs (WorkerThreadsPool.constructor 1)))
       <= cap) /\
  (~ exists cap, forall evs,
       length (WorkerDemo.queue
                 (WorkerDemo.run evs (WorkerDemo.constructor 1)))
       <= cap).
Proof.
  split.
  - intros [cap Hcap].
    specialize (Hcap ([WorkerThreadsPool.RunTask 0] ++
                      replicate (S cap) (WorkerThreadsPool.RunTask 0))).
    rewrite tp_run_app in Hcap.
    destruct (tp_flood 0 (S cap)
                (WorkerThreadsPool.run [WorkerThreadsPool.RunTask 0]
                   (WorkerThreadsPool.constructor 1)))
      as [_ Hlen]; [reflexivity|].
    rewrite Hlen in Hcap. lia.
  - intros [cap Hcap].
    specialize (Hcap ([WorkerDemo.Execute 0] ++
                      replicate (S cap) (WorkerDemo.Execute 0))).
    rewrite wd_run_app in Hcap.
    destruct (wd_flood 0 (S cap)
                (WorkerDemo.run [WorkerDemo.Execute 0]
                   (WorkerDemo.constructor 1)))
      as [_ Hlen]; [reflexivity|].
    rewrite Hlen in Hcap. lia.
Qed.

(** C2, amended: neither pool has a queue capacity.  A submission is never
    refused: with a free worker (an idle slot) the task is started at once,
    otherwise it is appended to the queue, whatever the length of the queue;
    no promise is settled by the submission. *)
Theorem C2_submit_never_refused
    (d : nat) (p : WorkerThreadsPool.pool) (q : WorkerDemo.pool) :
  match pop (WorkerThreadsPool.freeWorkers p) with
  | Some (w, _) =>
      WorkerThreadsPool.queue (WorkerThreadsPool.runTask d p) =
        WorkerThreadsPool.queue p /\
      WorkerThreadsPool.log (WorkerThreadsPool.runTask d p) =
        WorkerThreadsPool.log p ++
        [WorkerThreadsPool.Posted w
           (WorkerThreadsPool.Task (WorkerThreadsPool.nextTask p) d)]
  | None =>
      WorkerThreadsPool.queue (WorkerThreadsPool.runTask d p) =
        WorkerThreadsPool.queue p ++
        [WorkerThreadsPool.Task (WorkerThreadsPool.nextTask p) d] /\
      WorkerThreadsPool.log (WorkerThreadsPool.runTask d p) =
        WorkerThreadsPool.log p
  end /\
  match WorkerDemo.available (WorkerDemo.workers q) with
  | Some i =>
      WorkerDemo.queue (WorkerDemo.execute d q) = WorkerDemo.queue q /\
      WorkerDemo.log (WorkerDemo.execute d q) =
        WorkerDemo.log q ++
        [WorkerDemo.Spawned (length (WorkerDemo.threads q))
           (WorkerDemo.Task (WorkerDemo.nextTask q) d)]
  | None =>
      WorkerDemo.queue (WorkerDemo.execute d q) =
        WorkerDemo.queue q ++ [WorkerDemo.Task (WorkerDemo.nextTask q) d] /\
      WorkerDemo.log (WorkerDemo.execute d q) = WorkerDemo.log q
  end.
Proof.
  split.
  - unfold WorkerThreadsPool.runTask.
    by destruct (pop (WorkerThreadsPool.freeWorkers p)) as [[w rest]|].
  - unfold WorkerDemo.execute.
    by destruct (WorkerDemo.available (WorkerDemo.workers q)).
Qed.

(** C3, as stated, fails for the pool of [worker-demo.js]: more threads
    than the pool has slots can be alive.  In a pool of one slot with one
    task in flight and one queued, the message of the first thread starts
    the thread of the second task in the same slot while the first thread
    has not exited: two threads run. *)
Lemma C3_threads_exceed_pool_size :
  let q := WorkerDemo.run
             [WorkerDemo.Execute 10; WorkerDemo.Execute 11;
              WorkerDemo.Message 0 7]
             (WorkerDemo.constructor 1) in
  WorkerDemo.poolSize q = 1 /\
  WorkerDemo.threads q =
    [WorkerDemo.Thread 0 (WorkerDemo.Task 0 10) WorkerDemo.Running;
     WorkerDemo.Thread 0 (WorkerDemo.Task 1 11) WorkerDemo.Running] /\
  length (WorkerDemo.live q) = 2.
Proof. cbn zeta. split; [|split]; reflexivity. Qed.

(** C3, amended: the child-process pool of size [n] never has more than
    [n] workers.  In every reachable state, [workers] holds exactly [n]
    workers, at most [n] child processes have not exited and at most [n]
    workers are busy; while a dead worker is being replaced (between the
    removal and the fork of the ['exit'] listener) there are fewer than [n].
    In the pool of [worker-demo.js] there are always [n] slots, so at most
    [n] of them are busy; the threads are not bounded by [n]: with a task
    waiting, the message of a thread starts another thread while the
    first has not exited, one more thread alive than before. *)
Theorem C3_workers_bounded
    (n : nat) (evs : list ChildProcessPool.event)
    (evs' : list WorkerDemo.event) :
  let p := ChildProcessPool.run evs (ChildProcessPool.constructor n) in
  let q := WorkerDemo.run evs' (WorkerDemo.constructor n) in
  length (ChildProcessPool.workers p) = n /\
  length (ChildProcessPool.live p) <= n /\
  ChildProcessPool.busy_count p <= n /\
  (forall w, w ∈ ChildProcessPool.live p ->
     let m := ChildProcessPool.remove_dead w
                (ChildProcessPool.mark_exited w p) in
     ChildProcessPool.step p (ChildProcessPool.Exit w) =
       ChildProcessPool.createWorker m /\
     length (ChildProcessPool.workers m) < n /\
     length (ChildProcessPool.live m) < n) /\
  length (WorkerDemo.workers q) = n /\
  WorkerDemo.busy_count q <= n /\
  (forall k r,
     WorkerDemo.delivers k q = true -> WorkerDemo.queue q <> [] ->
     length (WorkerDemo.live (WorkerDemo.step q (WorkerDemo.Message k r))) =
       S (length (WorkerDemo.live q))).
Proof.
  cbn zeta. destruct (cp_reachable n evs) as [Hinv Hsize].
  unfold ChildProcessPool.cp_inv in Hinv. rewrite Hsize in Hinv.
  pose proof Hinv as (Hlen & _).
  split; [done|]. split; [by apply cp_live_bound|].
  split; [rewrite <- Hlen at 2; apply cp_busy_bound|].
  split; [|split; [|split]].
  - intros w Hw. split; [by apply cp_step_exit_live|].
    destruct (cp_tracks_remove n w _ Hinv Hw) as [Hn Hm].
    pose proof (cp_live_bound _ _ Hm) as Hb. destruct Hm as (Hl & _).
    split; lia.
  - by destruct (wd_slots n evs') as (_ & H1 & H2).
  - by destruct (wd_slots n evs') as (_ & H1 & H2).
  - intros k r. apply wd_live_message.
Qed.

Lemma C3_workers_bounded_witness :
  let p := ChildProcessPool.run
             [ChildProcessPool.RunTask 10 0; ChildProcessPool.Destroy]
             (ChildProcessPool.constructor 2) in
  let m := ChildProcessPool.remove_dead 1 (ChildProcessPool.mark_exited 1 p) in
  let q := WorkerDemo.run
             [WorkerDemo.Execute 10; WorkerDemo.Execute 11;
              WorkerDemo.Execute 12]
             (WorkerDemo.constructor 2) in
  length (ChildProcessPool.workers m) < 2 /\
  length (ChildProcessPool.live m) < 2 /\
  length (WorkerDemo.live (WorkerDemo.step q (WorkerDemo.Message 1 7))) = 3.
Proof.
  pose proof (C3_workers_bounded 2
                [ChildProcessPool.RunTask 10 0; ChildProcessPool.Destroy]
                [WorkerDemo.Execute 10; WorkerDemo.Execute 11;
                 WorkerDemo.Execute 12])
    as H.
  cbn zeta in H. destruct H as (_ & _ & _ & H & _ & _ & H').
  destruct (H 1) as (_ & H1 & H2); [vm_compute; right; left|].
  split; [exact H1|]. split; [exact H2|].
  rewrite (H' 1 7); reflexivity || discriminate.
Defined.

(** C4: the tasks are started in the order they were submitted.  For every
    trace, the tasks handed to a worker so far, in the order they were
    handed, followed by the queue, are the submitted tasks in the order of
    submission: the started tasks are a prefix of the submitted ones.  This
    holds for every pool size, one worker included, in the worker-threads
    pool and in the pool of [worker-demo.js].  With a task waiting, the
    message of a busy worker starts the head of the queue in the
    worker-threads pool, and in the pool of [worker-demo.js] the message
    or the error of a thread starts the head of the queue. *)
Theorem C4_started_in_submission_order
    (n : nat) (evs : list WorkerThreadsPool.event)
    (evs' : list WorkerDemo.event) :
  let p := WorkerThreadsPool.run evs (WorkerThreadsPool.constructor n) in
  let q := WorkerDemo.run evs' (WorkerDemo.constructor n) in
  WorkerThreadsPool.started (WorkerThreadsPool.log p) ++
    WorkerThreadsPool.queue p = WorkerThreadsPool.submitted 0 evs /\
  WorkerThreadsPool.started (WorkerThreadsPool.log p) `prefix_of`
    WorkerThreadsPool.submitted 0 evs /\
  (forall w r t t' rest,
     WorkerThreadsPool.running w p = true ->
     WorkerThreadsPool.cur p w = Some t ->
     WorkerThreadsPool.queue p = t' :: rest ->
     WorkerThreadsPool.started
       (WorkerThreadsPool.log
          (WorkerThreadsPool.step p (WorkerThreadsPool.Message w r))) =
       WorkerThreadsPool.started (WorkerThreadsPool.log p) ++ [t'] /\
     WorkerThreadsPool.queue
       (WorkerThreadsPool.step p (WorkerThreadsPool.Message w r)) = rest) /\
  WorkerDemo.started (WorkerDemo.log q) ++ WorkerDemo.queue q =
    WorkerDemo.submitted 0 evs' /\
  WorkerDemo.started (WorkerDemo.log q) `prefix_of`
    WorkerDemo.submitted 0 evs' /\
  (forall k r t' rest,
     WorkerDemo.delivers k q = true ->
     WorkerDemo.queue q = t' :: rest ->
     WorkerDemo.started
       (WorkerDemo.log (WorkerDemo.step q (WorkerDemo.Message k r))) =
       WorkerDemo.started (WorkerDemo.log q) ++ [t'] /\
     WorkerDemo.queue (WorkerDemo.step q (WorkerDemo.Message k r)) = rest) /\
  (forall k e t' rest,
     WorkerDemo.delivers k q = true ->
     WorkerDemo.queue q = t' :: rest ->
     WorkerDemo.started
       (WorkerDemo.log (WorkerDemo.step q (WorkerDemo.Error k e))) =
       WorkerDemo.started (WorkerDemo.log q) ++ [t'] /\
     WorkerDemo.queue (WorkerDemo.step q (WorkerDemo.Error k e)) = rest).
Proof.
  cbn zeta. pose proof (tp_order n evs) as Ho. cbn zeta in Ho.
  destruct (tp_reachable n evs) as [Hd _].
  destruct (wd_order n evs') as (_ & _ & Ho'). cbn zeta in Ho'.
  split; [done|]. split; [rewrite <- Ho; by apply prefix_app_r|].
  split; [intros w r t t' rest; by apply tp_message_starts_next|].
  split; [done|]. split; [rewrite <- Ho'; by apply prefix_app_r|].
  split.
  - intros k r t' rest Hk Hq.
    by destruct (wd_message_starts_next k r t' rest _ Hk Hq) as (H1 & H2 & _).
  - intros k e t' rest. apply wd_error_starts_next.
Qed.

Lemma C4_started_in_submission_order_witness :
  let p := WorkerThreadsPool.run
             [WorkerThreadsPool.RunTask 10; WorkerThreadsPool.RunTask 11;
              WorkerThreadsPool.RunTask 12]
             (WorkerThreadsPool.constructor 1) in
  let q := WorkerDemo.run
             [WorkerDemo.Execute 10; WorkerDemo.Execute 11;
              WorkerDemo.Execute 12]
             (WorkerDemo.constructor 1) in
  WorkerThreadsPool.started
    (WorkerThreadsPool.log
       (WorkerThreadsPool.step p (WorkerThreadsPool.Message 0 7))) =
    [WorkerThreadsPool.Task 0 10; WorkerThreadsPool.Task 1 11] /\
  WorkerThreadsPool.queue
    (WorkerThreadsPool.step p (WorkerThreadsPool.Message 0 7)) =
    [WorkerThreadsPool.Task 2 12] /\
  WorkerDemo.started
    (WorkerDemo.log (WorkerDemo.step q (WorkerDemo.Message 0 7))) =
    [WorkerDemo.Task 0 10; WorkerDemo.Task 1 11] /\
  WorkerDemo.queue (WorkerDemo.step q (WorkerDemo.Error 0 7)) =
    [WorkerDemo.Task 2 12].
Proof.
  pose proof (C4_started_in_submission_order 1
                [WorkerThreadsPool.RunTask 10; WorkerThreadsPool.RunTask 11;
                 WorkerThreadsPool.RunTask 12]
                [WorkerDemo.Execute 10; WorkerDemo.Execute 11;
                 WorkerDemo.Execute 12]) as H.
  cbn zeta in H. destruct H as (_ & _ & H & _ & _ & Hm & He).
  destruct (H 0 7 (WorkerThreadsPool.Task 0 10) (WorkerThreadsPool.Task 1 11)
              [WorkerThreadsPool.Task 2 12]) as [H1 H2]; try reflexivity.
  destruct (Hm 0 7 (WorkerDemo.Task 1 11) [WorkerDemo.Task 2 12])
    as [H3 _]; try reflexivity.
  destruct (He 0 7 (WorkerDemo.Task 1 11) [WorkerDemo.Task 2 12])
    as [_ H4]; try reflexivity.
  split; [exact H1|]. split; [exact H2|]. split; [exact H3|exact H4].
Defined.

(** C5, as stated, fails: a task whose worker fails is not retried.  In a
    pool of two workers the task is rejected at once, is not put back on the
    queue, and the other worker stays free. *)
Lemma C5_failed_task_is_not_retried :
  let p := WorkerThreadsPool.run
             [WorkerThreadsPool.RunTask 7; WorkerThreadsPool.Error 1 9]
             (WorkerThreadsPool.constructor 2) in
  WorkerThreadsPool.log p =
    [WorkerThreadsPool.Posted 1 (WorkerThreadsPool.Task 0 7);
     WorkerThreadsPool.Rejected 0 9] /\
  WorkerThreadsPool.queue p = [] /\
  WorkerThreadsPool.freeWorkers p = [0].
Proof. cbn zeta. repeat split; reflexivity. Qed.

(** C5, amended: no pool counts attempts or retries.  When the worker of a
    task in flight raises ['error'], the promise of the task is rejected at
    once with that error; the task is never put on the queue again, and no
    task is ever handed to a worker twice.  In the child-process pool a
    child that reports [msg.error] has the callback of its task called at
    once with the error, and nothing is added to the queue. *)
Theorem C5_error_rejects_without_retry
    (n : nat) (evs : list WorkerThreadsPool.event) (w e : nat)
    (t : WorkerThreadsPool.task)
    (c : ChildProcessPool.pool) (cw ce cb : nat) (m : ChildProcessPool.msg)
    (wk : ChildProcessPool.worker) :
  let p := WorkerThreadsPool.run evs (WorkerThreadsPool.constructor n) in
  WorkerThreadsPool.running w p = true ->
  WorkerThreadsPool.cur p w = Some t ->
  ChildProcessPool.heap c !! cw = Some wk ->
  ChildProcessPool.wcallback wk = Some cb ->
  ChildProcessPool.error m = Some ce ->
  let p' := WorkerThreadsPool.step p (WorkerThreadsPool.Error w e) in
  WorkerThreadsPool.log p' =
    WorkerThreadsPool.log p ++
    [WorkerThreadsPool.Rejected (WorkerThreadsPool.tid t) e] /\
  WorkerThreadsPool.queue p' = WorkerThreadsPool.queue p /\
  (forall evs',
     let p'' := WorkerThreadsPool.run evs' p' in
     NoDup (WorkerThreadsPool.tid <$>
              WorkerThreadsPool.started (WorkerThreadsPool.log p'')) /\
     WorkerThreadsPool.tid t ∉
       WorkerThreadsPool.tid <$> WorkerThreadsPool.queue p'') /\
  (exists rest,
     ChildProcessPool.log (ChildProcessPool.on_message cw m c) =
     ChildProcessPool.log c ++ ChildProcessPool.CalledError cb ce :: rest) /\
  ChildProcessPool.queue (ChildProcessPool.on_message cw m c) `suffix_of`
    ChildProcessPool.queue c.
Proof.
  cbn zeta. intros Hr Hc Hcw Hcb Hce.
  destruct (tp_reachable n evs) as [Hd Hp].
  destruct (tp_error_busy _ w e t (tp_running_delivers _ _ Hr) Hc)
    as (Hlog & Hq & _).
  split; [done|]. split; [done|]. split.
  - intros evs'. apply tp_never_again.
    + by apply tp_drained_step.
    + by apply tp_inv_step.
    + rewrite Hlog, tp_started_snoc, app_nil_r.
      by apply (WorkerThreadsPool.tp_cur_started _ Hp w).
  - by apply (cp_message_error cw ce cb m wk c).
Qed.

Lemma C5_error_rejects_without_retry_witness :
  let p := WorkerThreadsPool.run [WorkerThreadsPool.RunTask 7]
             (WorkerThreadsPool.constructor 2) in
  let c := ChildProcessPool.run [ChildProcessPool.RunTask 7 3]
             (ChildProcessPool.constructor 1) in
  WorkerThreadsPool.log
    (WorkerThreadsPool.step p (WorkerThreadsPool.Error 1 9)) =
    WorkerThreadsPool.log p ++ [WorkerThreadsPool.Rejected 0 9] /\
  ChildProcessPool.queue
    (ChildProcessPool.on_message 0 (ChildProcessPool.Msg (Some 4) 0) c)
    `suffix_of` ChildProcessPool.queue c.
Proof.
  pose proof (C5_error_rejects_without_retry 2 [WorkerThreadsPool.RunTask 7]
                1 9 (WorkerThreadsPool.Task 0 7)
                (ChildProcessPool.run [ChildProcessPool.RunTask 7 3]
                   (ChildProcessPool.constructor 1))
                0 4 3 (ChildProcessPool.Msg (Some 4) 0)
                (ChildProcessPool.Worker ChildProcessPool.Alive true (Some 3)))
    as H.
  cbn zeta in H.
  destruct H as (H1 & _ & _ & _ & H2); try reflexivity.
  split; [exact H1|exact H2].
Defined.

(** C6, as stated, fails: whatever the budget, a worker that dies after
    more deaths than the budget is still replaced. *)
Lemma C6_no_crash_budget :
  ~ exists budget, forall evs,
      let p := ChildProcessPool.run evs (ChildProcessPool.constructor 1) in
      budget < ChildProcessPool.deaths (ChildProcessPool.log p) ->
      forall w, w ∈ ChildProcessPool.live p ->
        ChildProcessPool.forks
          (ChildProcessPool.log
             (ChildProcessPool.step p (ChildProcessPool.Exit w))) =
        ChildProcessPool.forks (ChildProcessPool.log p).
Proof.
  intros [budget Hb]. destruct (cp_can_crash (S budget)) as [evs Hevs].
  specialize (Hb evs). cbn zeta in Hb.
  destruct (cp_reachable 1 evs) as [(Hlen & _ & Hlive) Hsize].
  rewrite Hsize in Hlen.
  destruct (ChildProcessPool.workers
              (ChildProcessPool.run evs (ChildProcessPool.constructor 1)))
    as [|w ws] eqn:Hws; [done|].
  assert (w ∈ ChildProcessPool.live
                (ChildProcessPool.run evs (ChildProcessPool.constructor 1)))
    as Hw by (apply Hlive; left).
  specialize (Hb ltac:(lia) w Hw).
  destruct (cp_log_step
              (ChildProcessPool.run evs (ChildProcessPool.constructor 1))
              (ChildProcessPool.Exit w)) as [Hf _].
  cbn zeta in Hf. rewrite decide_True in Hf by done. lia.
Qed.

(** C6, amended: there is no crash budget and no degraded state.  In the
    child-process pool every worker that died has been replaced, however
    many died before: the forks in the log are the size of the pool plus
    the deaths, and the exit of a live worker forks one more and leaves the
    pool at its size.  A submission is handled as ever: it is sent to an
    idle worker or queued, and no callback is called with an error.  The
    cluster master forks on every ['exit'] as well. *)
Theorem C6_every_exit_respawns
    (n : nat) (evs : list ChildProcessPool.event)
    (cevs : list ClusterDemo.event) (cm : ClusterDemo.master)
    (pid newpid now : nat) :
  let p := ChildProcessPool.run evs (ChildProcessPool.constructor n) in
  ChildProcessPool.forks (ChildProcessPool.log p) =
    n + ChildProcessPool.deaths (ChildProcessPool.log p) /\
  (forall w, w ∈ ChildProcessPool.live p ->
     let p' := ChildProcessPool.step p (ChildProcessPool.Exit w) in
     ChildProcessPool.log p' =
       ChildProcessPool.log p ++
       [ChildProcessPool.Died;
        ChildProcessPool.Forked (length (ChildProcessPool.heap p))] /\
     length (ChildProcessPool.workers p') = n /\
     length (ChildProcessPool.heap p) ∈ ChildProcessPool.workers p') /\
  (forall t cb,
     ChildProcessPool.log (ChildProcessPool.runTask t cb p) =
     ChildProcessPool.log p ++
     match ChildProcessPool.find_idle p with
     | Some w => [ChildProcessPool.Sent w t]
     | None => []
     end) /\
  ClusterDemo.workers (ClusterDemo.on_exit pid newpid now cm) !! newpid =
    Some (ClusterDemo.Info 0 now) /\
  length (ClusterDemo.forked (ClusterDemo.run cevs cm)) =
    length (ClusterDemo.forked cm) + ClusterDemo.exits cevs.
Proof.
  cbn zeta. split; [apply cp_forks_deaths|]. split; [|split; [|split]].
  - intros w Hw. rewrite cp_step_exit_live by done.
    destruct (cp_on_exit_shape w
                (ChildProcessPool.run evs (ChildProcessPool.constructor n)))
      as (Hl & Hws & _).
    split; [done|]. split.
    + destruct (cp_reachable n evs) as [Hinv Hsize].
      destruct (cp_inv_step _ (ChildProcessPool.Exit w) Hinv) as (Hlen & _).
      rewrite cp_size_step, Hsize, cp_step_exit_live in Hlen by done.
      done.
    + rewrite Hws. apply elem_of_app. right. left.
  - intros t cb. unfold ChildProcessPool.runTask.
    destruct (ChildProcessPool.find_idle _); simpl; by rewrite ?app_nil_r.
  - apply cl_on_exit_forks.
  - apply cl_forked_run.
Qed.

Lemma C6_every_exit_respawns_witness :
  let p := ChildProcessPool.run
             [ChildProcessPool.Exit 0; ChildProcessPool.Exit 1;
              ChildProcessPool.Exit 2]
             (ChildProcessPool.constructor 1) in
  length (ChildProcessPool.workers
            (ChildProcessPool.step p (ChildProcessPool.Exit 3))) = 1 /\
  4 ∈ ChildProcessPool.workers
        (ChildProcessPool.step p (ChildProcessPool.Exit 3)).
Proof.
  pose proof (C6_every_exit_respawns 1
                [ChildProcessPool.Exit 0; ChildProcessPool.Exit 1;
                 ChildProcessPool.Exit 2] []
                (ClusterDemo.Master ∅ []) 0 0 0) as H.
  cbn zeta in H. destruct H as (_ & H & _).
  destruct (H 3) as (_ & H1 & H2).
  - vm_compute. left.
  - split; [exact H1|exact H2].
Defined.

(** C7, as stated, fails: a task submitted after [close()] is accepted.  It
    is posted to the worker whose thread was terminated, its promise is
    not rejected, and nothing but an event of that worker would settle
    it. *)
Lemma C7_submit_after_close_is_accepted :
  let p := WorkerThreadsPool.run
             [WorkerThreadsPool.Close; WorkerThreadsPool.RunTask 5]
             (WorkerThreadsPool.constructor 1) in
  WorkerThreadsPool.log p =
    [WorkerThreadsPool.Posted 0 (WorkerThreadsPool.Task 0 5)] /\
  WorkerThreadsPool.running 0 p = false /\
  forall evs,
    WorkerThreadsPool.quiet evs ->
    WorkerThreadsPool.settled 0
      (WorkerThreadsPool.log (WorkerThreadsPool.run evs p)) = 0.
Proof.
  cbn zeta. split; [reflexivity|]. split; [reflexivity|]. intros evs Hevs.
  by rewrite (proj1 (tp_quiet_run evs _ _ Hevs)).
Qed.

(** C7, amended: no pool has a closed state.  In the worker-threads pool a
    submission after [close()] is handled as before it (submitting and
    closing commute) and settles no promise.  [close()] leaves the queue
    and the promises as they are; after it, as before it, a queued task
    leaves the queue when a worker that holds a task delivers a message,
    and it is handed to that worker, whose thread has been terminated.  In
    the pool of [worker-demo.js] a submission after any turns of
    [terminate()] is started or queued as without them. *)
Theorem C7_shutdown_does_not_gate_submit
    (n d : nat) (evs : list WorkerThreadsPool.event)
    (q : WorkerDemo.pool) (l : list nat) :
  let p := WorkerThreadsPool.run evs (WorkerThreadsPool.constructor n) in
  WorkerThreadsPool.runTask d (WorkerThreadsPool.close p) =
    WorkerThreadsPool.close (WorkerThreadsPool.runTask d p) /\
  (forall t,
     WorkerThreadsPool.settled t
       (WorkerThreadsPool.log
          (WorkerThreadsPool.runTask d (WorkerThreadsPool.close p))) =
     WorkerThreadsPool.settled t (WorkerThreadsPool.log p)) /\
  WorkerThreadsPool.queue (WorkerThreadsPool.close p) =
    WorkerThreadsPool.queue p /\
  WorkerThreadsPool.log (WorkerThreadsPool.close p) =
    WorkerThreadsPool.log p /\
  (forall w r t t' rest,
     WorkerThreadsPool.delivers w (WorkerThreadsPool.close p) = true ->
     WorkerThreadsPool.cur p w = Some t ->
     WorkerThreadsPool.queue p = t' :: rest ->
     let p' := WorkerThreadsPool.step (WorkerThreadsPool.close p)
                 (WorkerThreadsPool.Message w r) in
     WorkerThreadsPool.started (WorkerThreadsPool.log p') =
       WorkerThreadsPool.started (WorkerThreadsPool.log p) ++ [t'] /\
     WorkerThreadsPool.queue p' = rest /\
     WorkerThreadsPool.cur p' w = Some t' /\
     WorkerThreadsPool.running w p' = false) /\
  WorkerDemo.workers
    (WorkerDemo.execute d (foldl WorkerDemo.terminate_slot q l)) =
    WorkerDemo.workers (WorkerDemo.execute d q) /\
  WorkerDemo.queue
    (WorkerDemo.execute d (foldl WorkerDemo.terminate_slot q l)) =
    WorkerDemo.queue (WorkerDemo.execute d q) /\
  WorkerDemo.log
    (WorkerDemo.execute d (foldl WorkerDemo.terminate_slot q l)) =
    WorkerDemo.log (WorkerDemo.execute d q).
Proof.
  cbn zeta. split; [apply tp_close_runTask|].
  split; [|split; [done|split; [done|split]]].
  - intros t.
    apply (tp_quiet_step (WorkerThreadsPool.close _)
             (WorkerThreadsPool.RunTask d) t). done.
  - intros w r t t' rest Hw Hc Hq.
    set (p := WorkerThreadsPool.run evs (WorkerThreadsPool.constructor n)).
    destruct (tp_reachable n (evs ++ [WorkerThreadsPool.Close])) as [Hd _].
    rewrite tp_run_app in Hd.
    change (WorkerThreadsPool.tp_drained (WorkerThreadsPool.close p)) in Hd.
    assert (WorkerThreadsPool.cur (WorkerThreadsPool.close p) w = Some t)
      as Hc'.
    { unfold WorkerThreadsPool.cur, WorkerThreadsPool.close; simpl.
      by rewrite tp_cur_stop_all. }
    destruct (tp_message_hands_over (WorkerThreadsPool.close p) w r t t' rest
                Hd Hw Hc' Hq) as (H1 & H2 & H3 & H4).
    split; [done|]. split; [done|]. split; [done|].
    rewrite H4. apply tp_all_stopped_close.
  - apply wd_execute_terminate.
Qed.

Lemma C7_shutdown_does_not_gate_submit_witness :
  let p := WorkerThreadsPool.run
             [WorkerThreadsPool.RunTask 10; WorkerThreadsPool.RunTask 11]
             (WorkerThreadsPool.constructor 1) in
  let p' := WorkerThreadsPool.step (WorkerThreadsPool.close p)
              (WorkerThreadsPool.Message 0 7) in
  WorkerThreadsPool.queue p' = [] /\
  WorkerThreadsPool.cur p' 0 = Some (WorkerThreadsPool.Task 1 11) /\
  WorkerThreadsPool.running 0 p' = false.
Proof.
  pose proof (C7_shutdown_does_not_gate_submit 1 0
                [WorkerThreadsPool.RunTask 10; WorkerThreadsPool.RunTask 11]
                (WorkerDemo.constructor 1) []) as H.
  cbn zeta in H. destruct H as (_ & _ & _ & _ & H & _).
  destruct (H 0 7 (WorkerThreadsPool.Task 0 10) (WorkerThreadsPool.Task 1 11)
              []) as (_ & H2 & H3 & H4); try reflexivity.
  split; [exact H2|]. split; [exact H3|exact H4].
Defined.

(** C8, as stated, fails for [terminate()]: a second call is not always a
    no-op.  In a pool of one slot with one task in flight and one queued,
    the first call terminates the thread of the slot; the message that
    thread had posted is delivered at the [await] and starts the queued
    task on a new thread, which the first call leaves running.  A second
    call terminates that thread. *)
Lemma C8_second_terminate_is_not_a_noop :
  let q := WorkerDemo.run [WorkerDemo.Execute 10; WorkerDemo.Execute 11]
             (WorkerDemo.constructor 1) in
  let q1 := WorkerDemo.run (WorkerDemo.terminate_turns q ++
                            [WorkerDemo.Message 0 7]) q in
  let q2 := WorkerDemo.run (WorkerDemo.terminate_turns q1) q1 in
  WorkerDemo.terminate_turns q = [WorkerDemo.TerminateSlot 0] /\
  WorkerDemo.status_of 0 q1 = Some WorkerDemo.Terminated /\
  WorkerDemo.status_of 1 q1 = Some WorkerDemo.Running /\
  WorkerDemo.status_of 1 q2 = Some WorkerDemo.Terminated /\
  q2 <> q1.
Proof.
  cbn zeta. repeat (split; [reflexivity|]).
  intros H. apply (f_equal (WorkerDemo.status_of 1)) in H. discriminate H.
Qed.

(** C8, amended: [close()] is idempotent, [terminate()] is only as long as
    no thread delivers an event in between.  A second [close()] leaves the
    worker-threads pool as it is, whatever came since the first.  In the
    pool of [worker-demo.js] a turn of [terminate()] taken twice is taken
    once, and two calls whose turns follow one another in any order with
    no event of a thread between them leave the pool as one call does; a
    turn changes the pool exactly when the worker of its slot is a thread
    that is running, so a later call is a no-op only if no slot has
    started a thread since.  Neither method can raise. *)
Theorem C8_shutdown_idempotent
    (p : WorkerThreadsPool.pool) (evs : list WorkerThreadsPool.event)
    (q : WorkerDemo.pool) (l : list WorkerDemo.event) (i : nat) :
  WorkerThreadsPool.close (WorkerThreadsPool.close p) =
    WorkerThreadsPool.close p /\
  WorkerThreadsPool.close
    (WorkerThreadsPool.run evs (WorkerThreadsPool.close p)) =
    WorkerThreadsPool.run evs (WorkerThreadsPool.close p) /\
  WorkerDemo.terminate_slot (WorkerDemo.terminate_slot q i) i =
    WorkerDemo.terminate_slot q i /\
  (interleaved (WorkerDemo.terminate_turns q) (WorkerDemo.terminate_turns q)
     l ->
   WorkerDemo.run l q = WorkerDemo.run (WorkerDemo.terminate_turns q) q) /\
  (WorkerDemo.step q (WorkerDemo.TerminateSlot i) = q <->
   forall k, WorkerDemo.workers q !! i ≫= WorkerDemo.worker = Some k ->
             WorkerDemo.status_of k q <> Some WorkerDemo.Running).
Proof.
  split; [apply tp_close_idem|]. split; [apply tp_close_again|].
  split; [apply wd_terminate_slot_idem|].
  split; [apply wd_terminate_interleaved|apply wd_terminate_slot_same].
Qed.

Lemma C8_shutdown_idempotent_witness :
  let q := WorkerDemo.run
             [WorkerDemo.Execute 10; WorkerDemo.Execute 11;
              WorkerDemo.Execute 12]
             (WorkerDemo.constructor 2) in
  WorkerDemo.run
    [WorkerDemo.TerminateSlot 0; WorkerDemo.TerminateSlot 0;
     WorkerDemo.TerminateSlot 1; WorkerDemo.TerminateSlot 1] q =
  WorkerDemo.run (WorkerDemo.terminate_turns q) q.
Proof.
  cbn zeta.
  apply (C8_shutdown_idempotent
           (WorkerThreadsPool.constructor 1) []
           (WorkerDemo.run
              [WorkerDemo.Execute 10; WorkerDemo.Execute 11;
               WorkerDemo.Execute 12]
              (WorkerDemo.constructor 2))
           [WorkerDemo.TerminateSlot 0; WorkerDemo.TerminateSlot 0;
            WorkerDemo.TerminateSlot 1; WorkerDemo.TerminateSlot 1] 0).
  apply (interleaved_l (WorkerDemo.TerminateSlot 0)
           [WorkerDemo.TerminateSlot 1]
           [WorkerDemo.TerminateSlot 0; WorkerDemo.TerminateSlot 1]
           [WorkerDemo.TerminateSlot 0; WorkerDemo.TerminateSlot 1;
            WorkerDemo.TerminateSlot 1]).
  apply (interleaved_r (WorkerDemo.TerminateSlot 0)
           [WorkerDemo.TerminateSlot 1] [WorkerDemo.TerminateSlot 1]
           [WorkerDemo.TerminateSlot 1; WorkerDemo.TerminateSlot 1]).
  apply (interleaved_l (WorkerDemo.TerminateSlot 1) []
           [WorkerDemo.TerminateSlot 1] [WorkerDemo.TerminateSlot 1]).
  apply (interleaved_r (WorkerDemo.TerminateSlot 1) [] [] []).
  apply interleaved_nil.
Defined.

(** C9: in the child-process pool the exit of a live worker always takes
    the worker out of [workers] and puts a freshly forked one in, also when
    the exit was caused by [destroy()]: once the children killed by
    [destroy()] have exited, the pool holds [size] workers again, none of
    them one of the killed ones and all of them alive. *)
Theorem C9_destroy_repopulates
    (n : nat) (evs : list ChildProcessPool.event) (l : list nat) :
  let p := ChildProcessPool.run evs (ChildProcessPool.constructor n) in
  (forall w, w ∈ ChildProcessPool.workers p -> w ∈ l) ->
  let p' := ChildProcessPool.run (ChildProcessPool.Exit <$> l)
              (ChildProcessPool.destroy p) in
  (forall w, w ∈ ChildProcessPool.live p ->
     let p1 := ChildProcessPool.step p (ChildProcessPool.Exit w) in
     (w ∉ ChildProcessPool.workers p1) /\
     length (ChildProcessPool.heap p) ∈ ChildProcessPool.workers p1 /\
     ChildProcessPool.status_of (length (ChildProcessPool.heap p)) p1 =
       Some ChildProcessPool.Alive) /\
  length (ChildProcessPool.workers p') = n /\
  (forall w, w ∈ ChildProcessPool.workers p' ->
     (w ∉ ChildProcessPool.workers p) /\
     ChildProcessPool.status_of w p' = Some ChildProcessPool.Alive).
Proof.
  cbn zeta. intros Hl. destruct (cp_reachable n evs) as [Hinv Hsize].
  split.
  - intros w Hw.
    pose proof (cp_inv_step _ (ChildProcessPool.Exit w) Hinv) as (_ & _ & Hlive).
    rewrite cp_step_exit_live in * by done.
    destruct (cp_on_exit_shape w
                (ChildProcessPool.run evs (ChildProcessPool.constructor n)))
      as (_ & Hws & _).
    split; [|split].
    + intros Hin. apply Hlive, cp_live_spec in Hin.
      rewrite cp_status_on_exit in Hin.
      pose proof (cp_live_lt _ _ Hw).
      rewrite decide_False, decide_True in Hin by (done || lia).
      apply cp_live_spec in Hw.
      destruct Hw as [Hw|Hw]; rewrite Hw in Hin; by destruct Hin.
    + rewrite Hws. apply elem_of_app. right. left.
    + by rewrite cp_status_on_exit, decide_True.
  - destruct (cp_destroy_respawns l _ Hinv Hl) as [H1 H2].
    rewrite Hsize in H1. done.
Qed.

Lemma C9_destroy_repopulates_witness :
  let p := ChildProcessPool.run [ChildProcessPool.RunTask 10 0]
             (ChildProcessPool.constructor 2) in
  let p' := ChildProcessPool.run
              [ChildProcessPool.Exit 1; ChildProcessPool.Exit 0]
              (ChildProcessPool.destroy p) in
  length (ChildProcessPool.workers p') = 2 /\
  ChildProcessPool.workers p' = [2; 3].
Proof.
  pose proof (C9_destroy_repopulates 2 [ChildProcessPool.RunTask 10 0] [1; 0])
    as H.
  cbn zeta in H. destruct H as (_ & H & _).
  - intros w Hw. vm_compute in Hw.
    apply elem_of_cons in Hw as [->|Hw]; [right; left|].
    apply elem_of_cons in Hw as [->|Hw]; [left|].
    by apply elem_of_nil in Hw.
  - split; [exact H|reflexivity].
Defined.

(** C10: in the worker-threads pool a worker that raises ['error'] while
    busy has its task rejected, and that is all: it is not in [freeWorkers]
    and never will be again, it delivers nothing more, and [workers] keeps
    its length, so no worker takes its place.  Once every worker has
    stopped, no promise is settled any more: the tasks on the queue and the
    tasks submitted later stay unsettled for good. *)
Theorem C10_errored_worker_is_lost
    (n : nat) (evs : list WorkerThreadsPool.event) (w e : nat)
    (t : WorkerThreadsPool.task) :
  let p := WorkerThreadsPool.run evs (WorkerThreadsPool.constructor n) in
  WorkerThreadsPool.running w p = true ->
  WorkerThreadsPool.cur p w = Some t ->
  let p' := WorkerThreadsPool.step p (WorkerThreadsPool.Error w e) in
  WorkerThreadsPool.log p' =
    WorkerThreadsPool.log p ++
    [WorkerThreadsPool.Rejected (WorkerThreadsPool.tid t) e] /\
  (forall evs',
     let p'' := WorkerThreadsPool.run evs' p' in
     (w ∉ WorkerThreadsPool.freeWorkers p'') /\
     WorkerThreadsPool.running w p'' = false /\
     length (WorkerThreadsPool.workers p'') = n) /\
  (WorkerThreadsPool.all_stopped p' ->
   forall evs' t',
     t' ∈ WorkerThreadsPool.tid <$> WorkerThreadsPool.queue p' \/
     WorkerThreadsPool.nextTask p' <= t' ->
     WorkerThreadsPool.settled t'
       (WorkerThreadsPool.log (WorkerThreadsPool.run evs' p')) = 0).
Proof.
  cbn zeta. intros Hr Hc.
  destruct (tp_reachable n evs) as [Hd Hp].
  destruct (tp_error_busy _ w e t (tp_running_delivers _ _ Hr) Hc)
    as (Hlog & Hq & Hf & Hlen & Hc' & Hr' & Hdead).
  assert (WorkerThreadsPool.tp_drained
            (WorkerThreadsPool.step
               (WorkerThreadsPool.run evs (WorkerThreadsPool.constructor n))
               (WorkerThreadsPool.Error w e))) as Hd'
    by (by apply tp_drained_step).
  assert (WorkerThreadsPool.tp_inv
            (WorkerThreadsPool.step
               (WorkerThreadsPool.run evs (WorkerThreadsPool.constructor n))
               (WorkerThreadsPool.Error w e))) as Hp'
    by (by apply tp_inv_step).
  split; [done|]. split.
  - intros evs'.
    destruct (tp_dead_forever w evs' _ Hdead) as [H1 H2].
    { rewrite Hf. by apply (tp_busy_not_free _ _ t). }
    split; [done|]. split; [done|].
    replace (WorkerThreadsPool.run evs'
               (WorkerThreadsPool.step
                  (WorkerThreadsPool.run evs (WorkerThreadsPool.constructor n))
                  (WorkerThreadsPool.Error w e)))
      with (WorkerThreadsPool.run (evs ++ WorkerThreadsPool.Error w e :: evs')
              (WorkerThreadsPool.constructor n))
      by (by rewrite tp_run_app).
    apply tp_workers_reachable.
  - intros Hall evs' t' Ht'.
    rewrite tp_frozen_run
      by (by apply tp_unclosed_all_dead; [apply tp_unclosed_reachable|..]).
    apply tp_fresh_unsettled; [done|].
    assert (NoDup (WorkerThreadsPool.tid <$>
              (WorkerThreadsPool.started (WorkerThreadsPool.log
                 (WorkerThreadsPool.step
                    (WorkerThreadsPool.run evs (WorkerThreadsPool.constructor n))
                    (WorkerThreadsPool.Error w e))) ++
               WorkerThreadsPool.queue
                 (WorkerThreadsPool.step
                    (WorkerThreadsPool.run evs (WorkerThreadsPool.constructor n))
                    (WorkerThreadsPool.Error w e))))) as Hnd.
    { rewrite (WorkerThreadsPool.tp_fifo _ Hp'). apply NoDup_seq. }
    intros Hin. destruct Ht' as [Ht'|Ht'].
    + rewrite fmap_app in Hnd. apply NoDup_app in Hnd as (_ & Hdis & _).
      by apply (Hdis t').
    + assert (t' ∈ seq 0 (WorkerThreadsPool.nextTask
                 (WorkerThreadsPool.step
                    (WorkerThreadsPool.run evs (WorkerThreadsPool.constructor n))
                    (WorkerThreadsPool.Error w e)))) as Hs.
      { rewrite <- (WorkerThreadsPool.tp_fifo _ Hp'), fmap_app.
        apply elem_of_app. by left. }
      apply elem_of_seq in Hs. lia.
Qed.

Lemma C10_errored_worker_is_lost_witness :
  let p := WorkerThreadsPool.run
             [WorkerThreadsPool.RunTask 1; WorkerThreadsPool.RunTask 2]
             (WorkerThreadsPool.constructor 1) in
  let p' := WorkerThreadsPool.step p (WorkerThreadsPool.Error 0 5) in
  WorkerThreadsPool.log p' =
    WorkerThreadsPool.log p ++ [WorkerThreadsPool.Rejected 0 5] /\
  WorkerThreadsPool.settled 1
    (WorkerThreadsPool.log
       (WorkerThreadsPool.run [WorkerThreadsPool.RunTask 3] p')) = 0.
Proof.
  pose proof (C10_errored_worker_is_lost 1
                [WorkerThreadsPool.RunTask 1; WorkerThreadsPool.RunTask 2]
                0 5 (WorkerThreadsPool.Task 0 1)) as H.
  cbn zeta in H. destruct H as (H1 & _ & H2); try reflexivity.
  split; [exact H1|].
  apply (H2 ltac:(intros [|w]; reflexivity) [WorkerThreadsPool.RunTask 3] 1).
  left. vm_compute. left.
Defined.


(** * Further properties of the code *)

(** X1: the worker-threads pool never has more tasks in flight than it has
    workers: in every reachable state at most [poolSize] tasks have been
    posted to a worker and not settled yet. *)
Theorem X1_tasks_in_flight_bounded
    (n : nat) (evs : list WorkerThreadsPool.event) :
  length (WorkerThreadsPool.in_flight
            (WorkerThreadsPool.run evs (WorkerThreadsPool.constructor n)))
  <= n.
Proof.
  destruct (tp_reachable n evs) as [_ Hp].
  rewrite <- (tp_workers_reachable n evs) at 2.
  apply tp_in_flight_bound; [done|apply tp_held_reachable].
Qed.

(** X2: a worker-threads pool whose workers never raise ['error'] loses no
    task.  Whenever all the workers of a pool of at least one worker are
    idle, the queue is empty, every task submitted so far has been settled
    exactly once, and no promise has been rejected. *)
Theorem X2_no_task_lost_without_errors
    (n : nat) (evs : list WorkerThreadsPool.event) :
  let p := WorkerThreadsPool.run evs (WorkerThreadsPool.constructor n) in
  0 < n ->
  WorkerThreadsPool.error_free evs ->
  (forall w, WorkerThreadsPool.cur p w = None) ->
  WorkerThreadsPool.queue p = [] /\
  (forall t, t ∈ WorkerThreadsPool.submitted 0 evs ->
             WorkerThreadsPool.settled (WorkerThreadsPool.tid t)
               (WorkerThreadsPool.log p) = 1) /\
  (forall t e,
     WorkerThreadsPool.Rejected t e ∉ WorkerThreadsPool.log p).
Proof.
  cbn zeta. intros Hn Hef Hidle.
  destruct (tp_reachable n evs) as [Hd Hp].
  pose proof (tp_held_reachable n evs) as Hh.
  pose proof (tp_staffed_reachable n evs Hef) as Hs.
  pose proof (tp_order n evs) as Ho. cbn zeta in Ho.
  assert (WorkerThreadsPool.queue
            (WorkerThreadsPool.run evs (WorkerThreadsPool.constructor n)) = [])
    as Hq.
  { apply Hd. destruct (Hs 0) as [Hf|Hc].
    - rewrite tp_workers_reachable. lia.
    - intros Hnil. rewrite Hnil in Hf. by apply elem_of_nil in Hf.
    - by rewrite Hidle in Hc. }
  split; [done|]. split; [|intros t e; by apply tp_no_reject_run].
  intros t Ht. rewrite <- Ho, Hq, app_nil_r in Ht.
  pose proof (WorkerThreadsPool.tp_once _ Hp (WorkerThreadsPool.tid t)) as H1.
  destruct (WorkerThreadsPool.settled (WorkerThreadsPool.tid t) _) as [|k]
    eqn:Hk; [|lia].
  destruct (Hh t Ht Hk) as [w Hw]. by rewrite Hidle in Hw.
Qed.

Lemma X2_no_task_lost_without_errors_witness :
  let evs := [WorkerThreadsPool.RunTask 1; WorkerThreadsPool.RunTask 2;
              WorkerThreadsPool.RunTask 3; WorkerThreadsPool.Message 1 10;
              WorkerThreadsPool.Message 0 11; WorkerThreadsPool.Message 1 12] in
  let p := WorkerThreadsPool.run evs (WorkerThreadsPool.constructor 2) in
  WorkerThreadsPool.queue p = [] /\
  WorkerThreadsPool.settled 2 (WorkerThreadsPool.log p) = 1.
Proof.
  cbn zeta.
  destruct (X2_no_task_lost_without_errors 2
              [WorkerThreadsPool.RunTask 1; WorkerThreadsPool.RunTask 2;
               WorkerThreadsPool.RunTask 3; WorkerThreadsPool.Message 1 10;
               WorkerThreadsPool.Message 0 11; WorkerThreadsPool.Message 1 12])
    as (H1 & H2 & _).
  - lia.
  - repeat constructor.
  - intros [|[|w]]; reflexivity.
  - split; [exact H1|].
    apply (H2 (WorkerThreadsPool.Task 2 3)). vm_compute.
    right. right. left.
Defined.

(** X3: nothing but an event of its own worker settles a task in flight.
    As long as the worker that holds a task delivers neither a message
    nor an error, the task stays with that worker and its promise stays
    pending, whatever is submitted, whatever the other workers deliver,
    and across [close()].  So a task is left pending for good when the
    thread of its worker stops without a result, as for a task that
    [runTask] gives to a worker that raised ['error'] while idle (such a
    worker stays in [freeWorkers]). *)
Theorem X3_only_its_worker_settles_a_task
    (n : nat) (evs evs' : list WorkerThreadsPool.event) (w : nat)
    (t : WorkerThreadsPool.task) :
  let p := WorkerThreadsPool.run evs (WorkerThreadsPool.constructor n) in
  WorkerThreadsPool.cur p w = Some t ->
  WorkerThreadsPool.silent w evs' ->
  WorkerThreadsPool.cur (WorkerThreadsPool.run evs' p) w = Some t /\
  WorkerThreadsPool.settled (WorkerThreadsPool.tid t)
    (WorkerThreadsPool.log (WorkerThreadsPool.run evs' p)) = 0.
Proof.
  cbn zeta. intros Hc Hr. destruct (tp_reachable n evs) as [Hd Hp].
  by apply tp_kept_run.
Qed.

Lemma X3_only_its_worker_settles_a_task_witness :
  let p := WorkerThreadsPool.run
             [WorkerThreadsPool.RunTask 4; WorkerThreadsPool.Error 0 9;
              WorkerThreadsPool.RunTask 5]
             (WorkerThreadsPool.constructor 2) in
  WorkerThreadsPool.cur p 0 = Some (WorkerThreadsPool.Task 1 5) /\
  WorkerThreadsPool.settled 1
    (WorkerThreadsPool.log
       (WorkerThreadsPool.run
          [WorkerThreadsPool.RunTask 6; WorkerThreadsPool.Message 1 3;
           WorkerThreadsPool.Close] p)) = 0.
Proof.
  cbn zeta. split; [reflexivity|].
  apply (X3_only_its_worker_settles_a_task 2
           [WorkerThreadsPool.RunTask 4; WorkerThreadsPool.Error 0 9;
            WorkerThreadsPool.RunTask 5]
           [WorkerThreadsPool.RunTask 6; WorkerThreadsPool.Message 1 3;
            WorkerThreadsPool.Close]
           0 (WorkerThreadsPool.Task 1 5)); [reflexivity|].
  by repeat constructor.
Defined.

(** X4: [fibonacci] (and [fib]) gives back an argument below 2 as it is, a
    negative one included, and on a natural number it is the Fibonacci
    number the textbook loop computes. *)
Theorem X4_fibonacci_is_fibonacci (k : nat) :
  FibWorker.fibonacci (- Z.of_nat k) = (- Z.of_nat k)%Z /\
  FibWorker.fibonacci (Z.of_nat k) = fst (FibWorker.fib_pair k) /\
  FibWorker.fibonacci (Z.of_nat k + 2) =
    (FibWorker.fibonacci (Z.of_nat k + 1) +
     FibWorker.fibonacci (Z.of_nat k))%Z.
Proof.
  split; [apply fib_below_two; lia|]. split.
  - by rewrite fib_pair_spec.
  - rewrite fib_unfold by lia. f_equal; f_equal; lia.
Qed.

(** X5: up to [fibonacci(78)] every result is a non-negative integer below
    2^53, so the additions of the JavaScript function are exact;
    [fibonacci(79)] is beyond 2^53. *)
Theorem X5_fibonacci_exact_up_to_78 (n : Z) :
  (0 <= n <= 78)%Z ->
  (0 <= FibWorker.fibonacci n < 2 ^ 53)%Z /\
  (2 ^ 53 < FibWorker.fibonacci 79)%Z.
Proof.
  intros Hn.
  assert (FibWorker.fib_pair (Z.to_nat 78) =
          (8944394323791464, 14472334024676221)%Z)
    as Hp by (vm_compute; reflexivity).
  pose proof (fib_pair_spec (Z.to_nat 78)) as Hs.
  rewrite Hp, Z2Nat.id in Hs by lia.
  replace (78 + 1)%Z with 79%Z in Hs by lia.
  pose proof (f_equal fst Hs) as H78. pose proof (f_equal snd Hs) as H79.
  cbn [fst snd] in H78, H79. clear Hs Hp.
  pose proof (fib_monotone n 78 ltac:(lia)) as Hm.
  rewrite <- H78 in Hm. rewrite <- H79. lia.
Qed.

Lemma X5_fibonacci_exact_up_to_78_witness :
  (0 <= 40 <= 78)%Z /\ (0 <= FibWorker.fibonacci 40 < 2 ^ 53)%Z.
Proof.
  split; [lia|].
  pose proof (X5_fibonacci_exact_up_to_78 40) as H.
  destruct H as [H _]; [lia|exact H].
Defined.

(** X6: computing [fibonacci(n)] for [n >= 0] enters the function
    [2 * fibonacci(n + 1) - 1] times: the cost grows like the result. *)
Theorem X6_fibonacci_call_count (n : Z) :
  (0 <= n)%Z ->
  FibWorker.calls n = (2 * FibWorker.fibonacci (n + 1) - 1)%Z.
Proof.
  intros Hn. destruct (calls_pair (Z.to_nat n)) as [H _].
  by rewrite Z2Nat.id in H.
Qed.

Lemma X6_fibonacci_call_count_witness :
  (0 <= 40)%Z /\
  FibWorker.calls 40 = (2 * FibWorker.fibonacci (40 + 1) - 1)%Z.
Proof.
  split; [lia|]. apply (X6_fibonacci_call_count 40). lia.
Defined.

(** X7: the promise of [runWorker] is settled by the first message, error
    or exit with a code other than 0 of the worker, and by nothing after
    it; it stays pending exactly when the worker posts nothing, raises
    nothing and exits with code 0. *)
Theorem X7_runWorker_first_event_settles
    (pre post : list RunWorker.wevent) (ev : RunWorker.wevent) :
  (RunWorker.runWorker pre = RunWorker.Pending <->
   Forall (fun ev => RunWorker.is_settling ev = false) pre) /\
  (Forall (fun ev => RunWorker.is_settling ev = false) pre ->
   RunWorker.is_settling ev = true ->
   RunWorker.runWorker (pre ++ ev :: post) =
     RunWorker.listen RunWorker.Pending ev /\
   RunWorker.listen RunWorker.Pending ev <> RunWorker.Pending).
Proof. split; [apply rw_pending_iff|apply rw_first_wins]. Qed.

Lemma X7_runWorker_first_event_settles_witness :
  RunWorker.runWorker
    [RunWorker.Exit 0; RunWorker.Exit 3;
     RunWorker.Message (RunWorker.Num 5)] =
  RunWorker.Rejected (RunWorker.Stopped 3).
Proof.
  destruct (X7_runWorker_first_event_settles
              [RunWorker.Exit 0] [RunWorker.Message (RunWorker.Num 5)]
              (RunWorker.Exit 3)) as [_ H].
  destruct H as [H _]; [by repeat constructor|reflexivity|].
  exact H.
Defined.


(** X9: [chunkArray] with a size of at least 1 returns, and cuts the array
    into consecutive chunks: put end to end the chunks are the array; every
    chunk holds at least one element and at most [size]; chunk [k] is the
    [size] elements from index [k * size] on (fewer at the end of the
    array); and there are the array's length divided by [size], rounded up,
    of them. *)
Theorem X9_chunkArray_partitions {A : Type}
    (array : list A) (size : Z) (fuel : nat) :
  (1 <= size)%Z -> length array < fuel ->
  exists chunks,
    ImageProcessor.chunkArray fuel array size = Some chunks /\
    concat chunks = array /\
    Forall (fun c => 0 < length c <= Z.to_nat size) chunks /\
    length array <= length chunks * Z.to_nat size
      < length array + Z.to_nat size /\
    forall k c, chunks !! k = Some c ->
      c = take (Z.to_nat size) (drop (k * Z.to_nat size) array).
Proof.
  intros Hs Hf.
  destruct (ip_loop_spec array (Z.to_nat size) ltac:(lia) fuel 0 [])
    as (res & Hloop & Hcat & Hall & Hlen & Hk); [lia|].
  exists res. unfold ImageProcessor.chunkArray.
  rewrite Z2Nat.id in Hloop by lia.
  split; [exact Hloop|]. split; [exact Hcat|]. split; [exact Hall|].
  split; [lia|]. exact Hk.
Qed.

Lemma X9_chunkArray_partitions_witness :
  exists chunks,
    ImageProcessor.chunkArray 6 [10; 11; 12; 13; 14] 2 = Some chunks /\
    concat chunks = [10; 11; 12; 13; 14].
Proof.
  destruct (X9_chunkArray_partitions [10; 11; 12; 13; 14] 2 6)
    as (chunks & H1 & H2 & _); [lia|simpl; lia|].
  exists chunks. split; [exact H1|exact H2].
Defined.

(** X10: with a size below 1, [chunkArray] returns only for the empty
    array: on any other array its loop never ends, whatever the fuel, and
    so [processImages] of an [ImageProcessor] made with a concurrency below
    1 never returns either, and starts no worker. *)
Theorem X10_chunkArray_size_below_one {A : Type}
    (array : list A) (size : Z) (fuel : nat)
    (work : A -> list RunWorker.wevent) :
  (size <= 0)%Z ->
  (array = [] -> ImageProcessor.chunkArray (S fuel) array size = Some []) /\
  (array <> [] ->
     ImageProcessor.chunkArray fuel array size = None /\
     ImageProcessor.processImages work fuel size array = None).
Proof.
  intros Hs. split; [by intros ->|].
  intros Ha.
  assert (ImageProcessor.chunkArray fuel array size = None) as Hc
    by (by apply ip_loop_diverges).
  split; [done|]. unfold ImageProcessor.processImages. by rewrite Hc.
Qed.

Lemma X10_chunkArray_size_below_one_witness :
  ImageProcessor.chunkArray 1000 [10; 11] 0 = None.
Proof.
  destruct (X10_chunkArray_size_below_one [10; 11] 0 1000 (fun _ => []))
    as [_ H]; [lia|].
  destruct H as [H _]; [discriminate|exact H].
Defined.

(** X11: [processImages] with a concurrency of at least 1 starts the
    workers batch by batch.  The batches it starts are the first chunks of
    [chunkArray], a batch is started only when every image of the batches
    before it has been fulfilled, and the call returns exactly when every
    image is fulfilled: then all the batches were started and the results
    are those of the images, in the order of the paths.  An image whose
    worker is rejected, or exits with code 0 without a message, keeps the
    call from returning and the later batches from starting. *)
Theorem X11_processImages_batches {Path : Type}
    (work : Path -> list RunWorker.wevent) (concurrency : Z)
    (imagePaths : list Path) (fuel : nat) :
  (1 <= concurrency)%Z -> length imagePaths < fuel ->
  exists chunks m e,
    ImageProcessor.chunkArray fuel imagePaths concurrency = Some chunks /\
    ImageProcessor.processImages work fuel concurrency imagePaths =
      Some (e, take m chunks) /\
    Forall (Forall (fun path =>
              exists v, ImageProcessor.processImage work path =
                        RunWorker.Fulfilled v))
           (take (pred m) chunks) /\
    (forall rs,
       e = ImageProcessor.Returned rs <->
       Forall2 (fun path v =>
                  ImageProcessor.processImage work path =
                  RunWorker.Fulfilled v) imagePaths rs) /\
    (forall rs, e = ImageProcessor.Returned rs -> take m chunks = chunks).
Proof.
  intros Hc Hf.
  destruct (ip_loop_spec imagePaths (Z.to_nat concurrency) ltac:(lia) fuel 0 [])
    as (chunks & Hloop & Hcat & _); [lia|].
  rewrite Z2Nat.id in Hloop by lia.
  change (Z.of_nat 0) with 0%Z in Hloop. simpl in Hloop, Hcat.
  destruct (ip_process_chunks_started work chunks [] []) as (m & Hm & Hst).
  destruct (ip_process_chunks work chunks [] []) as (_ & Hr & Hb).
  exists chunks, m, (fst (ImageProcessor.process_chunks work chunks [] [])).
  unfold ImageProcessor.processImages, ImageProcessor.chunkArray.
  rewrite Hloop. split; [done|]. split; [|split; [done|split]].
  - f_equal. simpl in Hm. rewrite <- Hm.
    by destruct (ImageProcessor.process_chunks _ _ _ _).
  - intros rs. rewrite Hr, Hcat. split.
    + by intros (vs & -> & Hvs).
    + intros Hvs. by exists rs.
  - intros rs Hrs. pose proof (Hb rs Hrs) as Hb'. simpl in Hm, Hb'. congruence.
Qed.

Lemma X11_processImages_batches_witness :
  exists chunks m e,
    ImageProcessor.chunkArray 4 [1; 2; 3] 2 = Some chunks /\
    ImageProcessor.processImages
      (fun path => [RunWorker.Message (RunWorker.Num (Z.of_nat path))])
      4 2 [1; 2; 3] = Some (e, take m chunks).
Proof.
  destruct (X11_processImages_batches
              (fun path => [RunWorker.Message (RunWorker.Num (Z.of_nat path))])
              2 [1; 2; 3] 4) as (chunks & m & e & H1 & H2 & _);
    [lia|simpl; lia|].
  exists chunks, m, e. split; [exact H1|exact H2].
Defined.

(** X12: the counter of the [Atomics] example.  However the additions of
    the worker interleave with the main thread, the final value is 2000
    less the additions the worker made before the main thread stored 0: it
    is at least 1000 and at most 2000, it is 2000 exactly when the store
    came first, and every value in between is the outcome of some
    interleaving. *)
Theorem X12_atomic_counter_interleavings :
  (forall l,
     interleaved AtomicCounter.main_thread AtomicCounter.worker_thread l ->
     exists k, k <= 1000 /\
       l = replicate k (AtomicCounter.Add 1) ++
           AtomicCounter.Store 0 ::
           replicate (2000 - k) (AtomicCounter.Add 1) /\
       AtomicCounter.final l = (2000 - Z.of_nat k)%Z) /\
  (forall k, k <= 1000 ->
     exists l,
       interleaved AtomicCounter.main_thread AtomicCounter.worker_thread l /\
       AtomicCounter.final l = (2000 - Z.of_nat k)%Z).
Proof.
  unfold AtomicCounter.main_thread, AtomicCounter.worker_thread. split.
  - intros l Hl. destruct (ac_shape 1000 1000 l Hl) as (k & Hk & ->).
    exists k. split; [done|]. split; [done|].
    rewrite ac_final by lia. lia.
  - intros k Hk.
    exists (replicate k (AtomicCounter.Add 1) ++
            AtomicCounter.Store 0 ::
            replicate (1000 + (1000 - k)) (AtomicCounter.Add 1)).
    split; [|rewrite ac_final by lia; lia].
    pose proof (ac_interleaving 1000 (1000 - k) k) as H.
    replace (k + (1000 - k)) with 1000 in H by lia. exact H.
Qed.

Lemma X12_atomic_counter_interleavings_witness :
  exists k, k <= 1000 /\
    AtomicCounter.final
      (AtomicCounter.worker_thread ++ AtomicCounter.main_thread) =
    (2000 - Z.of_nat k)%Z.
Proof.
  destruct X12_atomic_counter_interleavings as [H _].
  destruct (H (AtomicCounter.worker_thread ++ AtomicCounter.main_thread))
    as (k & Hk & _ & Hf).
  - clear H. unfold AtomicCounter.worker_thread, AtomicCounter.main_thread.
    generalize 1000. intros n.
    generalize (AtomicCounter.Store 0 :: replicate n (AtomicCounter.Add 1)).
    intros l. induction n as [|n IH]; simpl.
    + induction l as [|x l IH]; by constructor.
    + by constructor.
  - exists k. split; [exact Hk|exact Hf].
Defined.



(** X14: the ['exit'] listener of the child-process pool does not look at
    the queue.  When a process that has not exited yet exits, the pool
    forks a replacement and sends it nothing, whatever waits in the queue;
    a task submitted next is sent to an idle worker at once, ahead of every
    task of the queue. *)
Theorem X14_submission_after_exit_overtakes_queue
    (n : nat) (evs : list ChildProcessPool.event) (w t cb : nat) :
  let p := ChildProcessPool.run evs (ChildProcessPool.constructor n) in
  let p' := ChildProcessPool.run
              [ChildProcessPool.Exit w; ChildProcessPool.RunTask t cb] p in
  w ∈ ChildProcessPool.live p ->
  ChildProcessPool.log (ChildProcessPool.step p (ChildProcessPool.Exit w)) =
    ChildProcessPool.log p ++
    [ChildProcessPool.Died;
     ChildProcessPool.Forked (length (ChildProcessPool.heap p))] /\
  ChildProcessPool.queue p' = ChildProcessPool.queue p /\
  exists k,
    ChildProcessPool.log p' =
      ChildProcessPool.log p ++
      [ChildProcessPool.Died;
       ChildProcessPool.Forked (length (ChildProcessPool.heap p));
       ChildProcessPool.Sent k t].
Proof.
  cbn zeta. intros Hw.
  set (p := ChildProcessPool.run evs (ChildProcessPool.constructor n)) in *.
  change (ChildProcessPool.run
            [ChildProcessPool.Exit w; ChildProcessPool.RunTask t cb] p)
    with (ChildProcessPool.runTask t cb
            (ChildProcessPool.step p (ChildProcessPool.Exit w))).
  rewrite cp_step_exit_live by done.
  destruct (cp_on_exit_shape w p) as (Hl & _ & _ & Hq). cbn zeta in Hl, Hq.
  split; [done|]. unfold ChildProcessPool.runTask.
  destruct (ChildProcessPool.find_idle _) as [k|] eqn:Hf;
    [|by destruct (cp_exit_idle w p)].
  split; [done|]. exists k. unfold ChildProcessPool.assign.
  cbn [ChildProcessPool.log]. rewrite Hl, <- app_assoc. done.
Qed.

Lemma X14_submission_after_exit_overtakes_queue_witness :
  let p := ChildProcessPool.run
             [ChildProcessPool.RunTask 10 0; ChildProcessPool.RunTask 11 1]
             (ChildProcessPool.constructor 1) in
  let p' := ChildProcessPool.run
              [ChildProcessPool.Exit 0; ChildProcessPool.RunTask 12 2] p in
  ChildProcessPool.queue p' = [ChildProcessPool.Job 11 1] /\
  exists k,
    ChildProcessPool.log p' =
      ChildProcessPool.log p ++
      [ChildProcessPool.Died; ChildProcessPool.Forked 1;
       ChildProcessPool.Sent k 12].
Proof.
  cbn zeta.
  destruct (X14_submission_after_exit_overtakes_queue 1
              [ChildProcessPool.RunTask 10 0; ChildProcessPool.RunTask 11 1]
              0 12 2) as (_ & H1 & H2).
  - vm_compute. left.
  - split; [exact H1|exact H2].
Defined.

(** X15: a callback held by a process that exits is never called.  If, of
    all the worker objects and queue entries, only worker [w] holds
    callback [cb] when its process exits, then whatever happens next, short
    of the caller handing in [cb] again, the pool never calls [cb]: the
    task that was in flight on the process is lost without an error. *)
Theorem X15_callback_of_exited_process_never_called
    (n : nat) (evs evs' : list ChildProcessPool.event) (w cb : nat) :
  let p := ChildProcessPool.run evs (ChildProcessPool.constructor n) in
  w ∈ ChildProcessPool.live p ->
  ChildProcessPool.cp_only w cb p ->
  Forall (ChildProcessPool.brings_other cb) evs' ->
  ChildProcessPool.calls cb
    (ChildProcessPool.log
       (ChildProcessPool.run (ChildProcessPool.Exit w :: evs') p)) =
  ChildProcessPool.calls cb (ChildProcessPool.log p).
Proof.
  cbn zeta. intros Hw Ho Hevs.
  set (p := ChildProcessPool.run evs (ChildProcessPool.constructor n)) in *.
  change (ChildProcessPool.run (ChildProcessPool.Exit w :: evs') p)
    with (ChildProcessPool.run evs'
            (ChildProcessPool.step p (ChildProcessPool.Exit w))).
  assert (ChildProcessPool.exited w
            (ChildProcessPool.step p (ChildProcessPool.Exit w)) = true) as Hex
    by (by apply cp_exit_exits, cp_live_lt).
  rewrite cp_step_exit_live in * by done.
  destruct (cp_only_on_exit w cb w p Ho) as [Ho' Hc'].
  by rewrite (cp_only_run w cb evs' _ Hex Ho' Hevs).
Qed.

Lemma X15_callback_of_exited_process_never_called_witness :
  let p := ChildProcessPool.run
             [ChildProcessPool.RunTask 10 7]
             (ChildProcessPool.constructor 1) in
  ChildProcessPool.calls 7
    (ChildProcessPool.log
       (ChildProcessPool.run
          [ChildProcessPool.Exit 0; ChildProcessPool.RunTask 11 8;
           ChildProcessPool.Message 1 (ChildProcessPool.Msg None 5);
           ChildProcessPool.Message 0 (ChildProcessPool.Msg None 6)] p)) = 0.
Proof.
  cbn zeta.
  rewrite (X15_callback_of_exited_process_never_called 1
             [ChildProcessPool.RunTask 10 7]
             [ChildProcessPool.RunTask 11 8;
              ChildProcessPool.Message 1 (ChildProcessPool.Msg None 5);
              ChildProcessPool.Message 0 (ChildProcessPool.Msg None 6)] 0 7).
  - reflexivity.
  - vm_compute. left.
  - split.
    + intros [|w'] wk Hne; [done|]. vm_compute. discriminate.
    + intros j Hj. vm_compute in Hj. by apply elem_of_nil in Hj.
  - repeat constructor; simpl; discriminate.
Defined.

(** X16: the request counter of the cluster master.  The worker forked on
    an ['exit'] starts with a counter of 0, and until it exits, or its pid
    is given to another worker, its counter is the number of
    [{cmd: 'request'}] messages it has sent since: what the worker before
    it had counted is gone from the statistics.  A message of a worker the
    master does not track changes nothing. *)
Theorem X16_cluster_counts_requests_since_fork
    (m : ClusterDemo.master) (pid newpid now : nat)
    (evs : list ClusterDemo.event) :
  (Forall (fun ev => ClusterDemo.concerns newpid ev = false) evs ->
   ClusterDemo.workers
     (ClusterDemo.run (ClusterDemo.Exit pid newpid now :: evs) m) !! newpid =
     Some (ClusterDemo.Info (ClusterDemo.requests_from newpid evs) now)) /\
  (ClusterDemo.workers m !! pid = None ->
   forall request,
     ClusterDemo.workers
       (ClusterDemo.step m (ClusterDemo.Message pid request)) =
     ClusterDemo.workers m).
Proof.
  split.
  - intros Hevs.
    change (ClusterDemo.run (ClusterDemo.Exit pid newpid now :: evs) m)
      with (ClusterDemo.run evs (ClusterDemo.on_exit pid newpid now m)).
    destruct (cl_on_exit_forks pid newpid now m) as [Hnew _].
    by rewrite (cl_counts newpid evs _ _ Hnew Hevs).
  - intros Hpid [|]; [|done]. simpl. apply map_eq. intros k.
    destruct (decide (pid = k)) as [->|Hne].
    + by rewrite lookup_alter_eq, Hpid.
    + by rewrite lookup_alter_ne.
Qed.

Lemma X16_cluster_counts_requests_since_fork_witness :
  ClusterDemo.workers
    (ClusterDemo.run
       [ClusterDemo.Exit 100 102 5; ClusterDemo.Message 102 true;
        ClusterDemo.Message 101 true; ClusterDemo.Message 102 true]
       (ClusterDemo.start [(100, 0); (101, 0)])) !! 102 =
  Some (ClusterDemo.Info 2 5).
Proof.
  destruct (X16_cluster_counts_requests_since_fork
              (ClusterDemo.start [(100, 0); (101, 0)]) 100 102 5
              [ClusterDemo.Message 102 true; ClusterDemo.Message 101 true;
               ClusterDemo.Message 102 true]) as [H _].
  apply H. repeat constructor.
Defined.

(** X17: the cluster master keeps its number of workers.  When the first
    workers have different pids, every worker that exits is one the master
    tracks, and the pid of a replacement is not the pid of another tracked
    worker, the map [workers] holds as many workers as were forked at the
    start, after every trace. *)
Theorem X17_cluster_keeps_its_size
    (forks : list (nat * nat)) (evs : list ClusterDemo.event) :
  let m := ClusterDemo.start forks in
  NoDup (fst <$> forks) ->
  ClusterDemo.well_formed m evs ->
  size (ClusterDemo.workers (ClusterDemo.run evs m)) = length forks.
Proof.
  cbn zeta. intros Hnd Hwf. rewrite cl_size_run by done.
  unfold ClusterDemo.start. rewrite cl_size_forks; [done|done|].
  intros pid _. apply lookup_empty.
Qed.

Lemma X17_cluster_keeps_its_size_witness :
  size (ClusterDemo.workers
          (ClusterDemo.run
             [ClusterDemo.Exit 100 102 5; ClusterDemo.Message 102 true;
              ClusterDemo.Exit 101 100 6]
             (ClusterDemo.start [(100, 0); (101, 0)]))) = 2.
Proof.
  apply (X17_cluster_keeps_its_size [(100, 0); (101, 0)]
           [ClusterDemo.Exit 100 102 5; ClusterDemo.Message 102 true;
            ClusterDemo.Exit 101 100 6]).
  - apply (bool_decide_unpack _). reflexivity.
  - repeat split; try (eexists; reflexivity); reflexivity.
Defined.

(** X18: the two thread pools are never idle with work waiting.  In every
    reachable state with a task in the queue, the worker-threads pool has
    no free worker, and every slot of the pool of [worker-demo.js] is
    busy. *)
Theorem X18_thread_pools_work_conserving
    (n : nat) (evs : list WorkerThreadsPool.event)
    (evs' : list WorkerDemo.event) :
  let p := WorkerThreadsPool.run evs (WorkerThreadsPool.constructor n) in
  let q := WorkerDemo.run evs' (WorkerDemo.constructor n) in
  (WorkerThreadsPool.queue p <> [] -> WorkerThreadsPool.freeWorkers p = []) /\
  (WorkerDemo.queue q <> [] ->
   forall i s, WorkerDemo.workers q !! i = Some s -> WorkerDemo.busy s = true).
Proof.
  cbn zeta. split.
  - intros Hq. destruct (tp_reachable n evs) as [Hd _].
    destruct (WorkerThreadsPool.freeWorkers _) eqn:Hf; [done|].
    destruct Hq. apply Hd. by rewrite Hf.
  - intros Hq. destruct (wd_order n evs') as (Hd & _). cbn zeta in Hd.
    assert (WorkerDemo.available
              (WorkerDemo.workers
                 (WorkerDemo.run evs' (WorkerDemo.constructor n))) = None)
      as Hav.
    { destruct (WorkerDemo.available _) eqn:Hav; [|done].
      destruct Hq. apply Hd. congruence. }
    apply wd_available_None in Hav. intros i s Hi.
    by apply (Forall_lookup_1 _ _ _ _ Hav Hi).
Qed.

Lemma X18_thread_pools_work_conserving_witness :
  WorkerThreadsPool.freeWorkers
    (WorkerThreadsPool.run
       [WorkerThreadsPool.RunTask 1; WorkerThreadsPool.RunTask 2;
        WorkerThreadsPool.RunTask 3]
       (WorkerThreadsPool.constructor 2)) = [].
Proof.
  destruct (X18_thread_pools_work_conserving 2
              [WorkerThreadsPool.RunTask 1; WorkerThreadsPool.RunTask 2;
               WorkerThreadsPool.RunTask 3] []) as [H _].
  apply H. discriminate.
Defined.


(** X20: the pool of [worker-demo.js] loses no task as long as every
    thread reports once.  If a thread posts a message or raises an error
    only while the promise of its task is pending, then every task
    submitted is in the queue, or its promise is settled, or its thread is
    the worker of a busy slot.  So whenever no slot of a pool of at least
    one slot is busy, the queue is empty and every promise is settled. *)
Theorem X20_worker_demo_loses_no_task
    (n : nat) (evs : list WorkerDemo.event) :
  let p := WorkerDemo.run evs (WorkerDemo.constructor n) in
  WorkerDemo.polite (WorkerDemo.constructor n) evs ->
  (forall t, t ∈ WorkerDemo.submitted 0 evs ->
     t ∈ WorkerDemo.queue p \/
     WorkerDemo.outcome (WorkerDemo.tid t) (WorkerDemo.log p) <> None \/
     exists k i,
       WorkerDemo.th_core <$> WorkerDemo.threads p !! k = Some (i, t) /\
       WorkerDemo.workers p !! i =
         Some (WorkerDemo.Slot (Some k) true)) /\
  (0 < n ->
   (forall i s, WorkerDemo.workers p !! i = Some s ->
                WorkerDemo.busy s = false) ->
   WorkerDemo.queue p = [] /\
   forall t, t ∈ WorkerDemo.submitted 0 evs ->
     WorkerDemo.outcome (WorkerDemo.tid t) (WorkerDemo.log p) <> None).
Proof.
  cbn zeta. intros Hpol.
  destruct (wd_kept_run evs _ (wd_kept_constructor n) Hpol) as [Ha Hb].
  destruct (wd_order n evs) as (Hd & _ & Ho). cbn zeta in Hd, Ho.
  destruct (wd_slots n evs) as (_ & Hlen & _). cbn zeta in Hlen.
  set (p := WorkerDemo.run evs (WorkerDemo.constructor n)) in *.
  assert (forall t, t ∈ WorkerDemo.submitted 0 evs ->
            t ∈ WorkerDemo.queue p \/
            WorkerDemo.outcome (WorkerDemo.tid t) (WorkerDemo.log p) <> None \/
            exists k i,
              WorkerDemo.th_core <$> WorkerDemo.threads p !! k = Some (i, t) /\
              WorkerDemo.workers p !! i =
                Some (WorkerDemo.Slot (Some k) true)) as Hall.
  { intros t. rewrite <- Ho, elem_of_app. intros [Ht|Ht]; [|by left].
    right. destruct (Ha t Ht) as (k & i & Hk).
    destruct (WorkerDemo.outcome (WorkerDemo.tid t) (WorkerDemo.log p))
      eqn:Hout; [by left|].
    right. exists k, i. split; [done|]. by apply (Hb k i t). }
  split; [exact Hall|]. intros Hn Hidle.
  assert (WorkerDemo.queue p = []) as Hq.
  { apply Hd. intros Hav. apply wd_available_None in Hav.
    destruct (WorkerDemo.workers p) as [|s ws] eqn:Hws; [simpl in Hlen; lia|].
    apply Forall_cons in Hav as [Hs _].
    rewrite (Hidle 0 s) in Hs; done. }
  split; [done|]. intros t Ht.
  destruct (Hall t Ht) as [Hin|[Hout|(k & i & _ & Hi)]].
  - rewrite Hq in Hin. by apply elem_of_nil in Hin.
  - done.
  - by pose proof (Hidle _ _ Hi).
Qed.

Lemma X20_worker_demo_loses_no_task_witness :
  let evs := [WorkerDemo.Execute 10; WorkerDemo.Execute 11;
              WorkerDemo.Message 0 5; WorkerDemo.Exit 0 0;
              WorkerDemo.Error 1 6; WorkerDemo.Exit 1 1] in
  let p := WorkerDemo.run evs (WorkerDemo.constructor 1) in
  WorkerDemo.queue p = [] /\
  WorkerDemo.outcome 1 (WorkerDemo.log p) <> None.
Proof.
  cbn zeta.
  destruct (X20_worker_demo_loses_no_task 1
              [WorkerDemo.Execute 10; WorkerDemo.Execute 11;
               WorkerDemo.Message 0 5; WorkerDemo.Exit 0 0;
               WorkerDemo.Error 1 6; WorkerDemo.Exit 1 1]) as [_ H].
  - repeat split; intros th [= <-]; reflexivity.
  - destruct H as [H1 H2]; [lia| |].
    + intros [|i] s [= <-]; reflexivity.
    + split; [exact H1|].
      apply (H2 (WorkerDemo.Task 1 11)). vm_compute. right. left.
Defined.

(** X21: the graceful shutdown of the cluster master ends with a full
    cluster.  The [SIGTERM] listener tells every tracked worker to shut
    down; when each of them has exited, once, and the replacements the
    ['exit'] listener forked have pids of their own, the master tracks
    exactly the replacements: as many workers as before, none of which was
    told to shut down. *)
Theorem X21_cluster_shutdown_repopulates
    (m : ClusterDemo.master) (l : list (nat * nat * nat)) :
  let told := ClusterDemo.on_sigterm m in
  let m' := ClusterDemo.run (ClusterDemo.exits_of l) m in
  NoDup (fst ∘ fst <$> l) ->
  list_to_set (fst ∘ fst <$> l) = told ->
  NoDup (snd ∘ fst <$> l) ->
  (forall pid, pid ∈ snd ∘ fst <$> l -> pid ∉ told) ->
  dom (ClusterDemo.workers m') = list_to_set (snd ∘ fst <$> l) /\
  size (ClusterDemo.workers m') = size (ClusterDemo.workers m) /\
  ClusterDemo.on_sigterm m' ## told.
Proof.
  cbn zeta. unfold ClusterDemo.on_sigterm. intros Hp Htold Hn Hout.
  assert (dom (ClusterDemo.workers
                 (ClusterDemo.run (ClusterDemo.exits_of l) m)) =
          list_to_set (snd ∘ fst <$> l)) as Hdom.
  { rewrite cl_dom_exits; [|done| |done|done].
    - by rewrite Htold, difference_diag_L, (left_id_L _ _).
    - intros pid Hpid. rewrite <- Htold. by apply elem_of_list_to_set. }
  split; [done|]. split.
  - rewrite <- !size_dom, Hdom, <- Htold.
    rewrite !size_list_to_set by done. by rewrite !length_fmap.
  - rewrite Hdom. intros pid Hpid%elem_of_list_to_set. by apply Hout.
Qed.

Lemma X21_cluster_shutdown_repopulates_witness :
  dom (ClusterDemo.workers
         (ClusterDemo.run
            (ClusterDemo.exits_of [(101, 103, 7); (100, 102, 8)])
            (ClusterDemo.start [(100, 0); (101, 0)]))) =
  list_to_set [103; 102].
Proof.
  destruct (X21_cluster_shutdown_repopulates
              (ClusterDemo.start [(100, 0); (101, 0)])
              [(101, 103, 7); (100, 102, 8)]) as [H _].
  - apply (bool_decide_unpack _). reflexivity.
  - apply (bool_decide_unpack _). reflexivity.
  - apply (bool_decide_unpack _). reflexivity.
  - intros pid (x & -> & Hx)%list_elem_of_fmap.
    apply elem_of_cons in Hx as [->|Hx];
      [|apply elem_of_cons in Hx as [->|Hx]; [|by apply elem_of_nil in Hx]];
      apply (bool_decide_unpack _); reflexivity.
  - exact H.
Defined.
